(** * goa: the design-to-code compiler

    A shallow embedding of the parts of goa that its specification makes
    claims about, and the proofs of those claims.

    - [Coerce]: the type library (kinds, [Primitive.Load], [Array.Load],
      [Object.Load], [Member.Load], [IncompatibleValue]).
    - [design]: the attribute model, the validation pass
      (design/validation.go).
    - [dsl]: the DSL evaluation engine ([executeDSL], [ReportError],
      [RunDSL]) and the finalization pass.

    Go maps are iterated in an unspecified order.  Wherever the source ranges
    over a map, the map is an association list whose order is the order of
    that iteration, so every statement about one call holds for every
    iteration order; where two calls are compared, the second is given the
    map in an order of its own. *)

From Stdlib Require Import List String Ascii ZArith Bool Lia Arith DecimalString Permutation.
Import ListNotations.
Open Scope string_scope.
Set Warnings "-register-all".


(** ** Association lists standing for Go maps *)

Section Assoc.
Context {V : Type}.

(** [m[k]] with the comma-ok result. *)
Fixpoint lookup (k : string) (m : list (string * V)) : option V :=
  match m with
  | [] => None
  | (k', v) :: rest => if String.eqb k k' then Some v else lookup k rest
  end.

(** [m[k] = v]: the entry is replaced in place when the key is present and
    added otherwise. *)
Fixpoint insert (k : string) (v : V) (m : list (string * V)) : list (string * V) :=
  match m with
  | [] => [(k, v)]
  | (k', v') :: rest =>
      if String.eqb k k' then (k, v) :: rest else (k', v') :: insert k v rest
  end.

Definition keys (m : list (string * V)) : list string := map fst m.

(** [for n := range o { if n == k { found = true; break } }]. *)
Definition has_key (k : string) (m : list (string * V)) : bool :=
  existsb (fun kv => String.eqb k (fst kv)) m.

Lemma lookup_insert_same k v m : lookup k (insert k v m) = Some v.
Proof.
  induction m as [|[k' v'] m IH]; simpl.
  - now rewrite String.eqb_refl.
  - destruct (String.eqb k k') eqn:E; simpl.
    + now rewrite String.eqb_refl.
    + now rewrite E.
Qed.

Lemma lookup_insert_other k k' v m :
  k <> k' -> lookup k' (insert k v m) = lookup k' m.
Proof.
  intros Hne. induction m as [|[k0 v0] m IH]; simpl.
  - destruct (String.eqb k' k) eqn:E; [apply String.eqb_eq in E; congruence | reflexivity].
  - destruct (String.eqb k k0) eqn:E; simpl.
    + apply String.eqb_eq in E; subst k0.
      destruct (String.eqb k' k) eqn:E'; [apply String.eqb_eq in E'; congruence | reflexivity].
    + destruct (String.eqb k' k0); [reflexivity | exact IH].
Qed.

Lemma has_key_lookup k m : has_key k m = true <-> exists v, lookup k m = Some v.
Proof.
  induction m as [|[k' v'] m IH]; simpl.
  - split; [discriminate | intros [v H]; discriminate].
  - destruct (String.eqb k k') eqn:E; simpl.
    + split; eauto.
    + exact IH.
Qed.

Lemma has_key_In k m : has_key k m = true <-> In k (keys m).
Proof.
  unfold has_key, keys. rewrite existsb_exists, in_map_iff. split.
  - intros [kv [Hin E]]. apply String.eqb_eq in E. exists kv. split; [now symmetry | exact Hin].
  - intros [kv [E Hin]]. exists kv. split; [exact Hin | subst k; apply String.eqb_refl].
Qed.

Lemma has_key_insert k k' v m :
  has_key k' (insert k v m) = (String.eqb k' k || has_key k' m)%bool.
Proof.
  induction m as [|[k0 v0] m IH]; simpl.
  - reflexivity.
  - destruct (String.eqb k k0) eqn:E; simpl.
    + apply String.eqb_eq in E; subst k0.
      destruct (String.eqb k' k); reflexivity.
    + rewrite IH. destruct (String.eqb k' k), (String.eqb k' k0); reflexivity.
Qed.

Lemma lookup_not_has_key k m : has_key k m = false -> lookup k m = None.
Proof.
  intros H. destruct (lookup k m) eqn:E; [|reflexivity].
  assert (has_key k m = true) by (apply has_key_lookup; eauto). congruence.
Qed.
End Assoc.

(** Decimal rendering of an index, as [%v] and [%d] print it. *)
Definition itoa (n : nat) : string := NilEmpty.string_of_uint (Nat.to_uint n).

(** * The type library *)

Module Coerce.

(** [type Kind uint] with its seven declared constants. *)
Inductive Kind :=
| NullType | BooleanType | IntegerType | NumberType | StringType
| ArrayType | ObjectType.

(** The native integer types a dynamic value can carry. *)
Inductive IntWidth :=
| TInt | TUint | TInt8 | TUint8 | TInt16 | TUint16
| TInt32 | TUint32 | TInt64 | TUint64.

Definition IntWidth_eqb (a b : IntWidth) : bool :=
  match a, b with
  | TInt, TInt | TUint, TUint | TInt8, TInt8 | TUint8, TUint8
  | TInt16, TInt16 | TUint16, TUint16 | TInt32, TInt32 | TUint32, TUint32
  | TInt64, TInt64 | TUint64, TUint64 => true
  | _, _ => false
  end.

(** [int(v)] on a 64-bit platform: the value wrapped into the range of
    a signed 64-bit integer. *)
Definition to_int (z : Z) : Z :=
  ((z + 2 ^ 63) mod 2 ^ 64 - 2 ^ 63)%Z.

(** [strconv.ParseBool]: the accepted spellings. *)
Definition ParseBool_value (s : string) : option bool :=
  if existsb (String.eqb s) ["1"; "t"; "T"; "TRUE"; "true"; "True"] then Some true
  else if existsb (String.eqb s) ["0"; "f"; "F"; "FALSE"; "false"; "False"] then Some false
  else None.

Section Library.
(** What the Go runtime and standard library supply: floating point
    numbers, time values, number parsing, JSON decoding and [%v]. *)
Variables float32 float64 Time : Type.
Variable float64_of_Z : Z -> float64.
Variable float64_of_float32 : float32 -> float64.
(** [strconv.Quote]. *)
Variable Quote : string -> string.
(** [strconv.ParseInt(s, 10, 0)] and [strconv.ParseFloat(s, 64)]: the
    number, or the text of the error. *)
Variable ParseInt : string -> Z + string.
Variable ParseFloat : string -> float64 + string.
(** [t.Format(time.RFC3339)]. *)
Variable Format_RFC3339 : Time -> string.

(** A dynamically typed value ([interface{}]). *)
Inductive Value :=
| VNil
| VBool (b : bool)
| VInt (w : IntWidth) (z : Z)
| VFloat32 (f : float32)
| VFloat64 (f : float64)
| VString (s : string)
| VTime (t : Time)
| VSlice (elems : list Value)            (* reflect.Slice *)
| VArr (elems : list Value)              (* reflect.Array *)
| VMap (m : list (string * Value))       (* map[string]interface{} *)
| VOther (type_name : string).           (* any other dynamic type, by its name:
                                            neither a slice nor an array *)

(** [json.Unmarshal] into a [[]interface{}] and into a
    [map[string]interface{}]: the decoded value, or the text of the error. *)
Variable Unmarshal_array : string -> list Value + string.
Variable Unmarshal_object : string -> list (string * Value) + string.
(** [fmt.Sprintf("%v", value)]. *)
Variable fmt_v : Value -> string.
(** [reflect.TypeOf(v).Kind() == reflect.String] for a value [v] of the
    dynamic type of that name: true of the defined types whose underlying
    type is [string], which are not the type [string] itself. *)
Variable kind_is_String : string -> bool.

(** [strconv.ParseBool] with the text of its error. *)
Definition ParseBool (s : string) : bool + string :=
  match ParseBool_value s with
  | Some b => inl b
  | None => inr ("strconv.ParseBool: parsing " ++ Quote s ++ ": invalid syntax")
  end.

(** Go errors: [*IncompatibleValue] and the errors validations build. *)
Inductive GoError :=
| IncompatibleValue (value : Value) (to : string) (extra : string)
| ErrorString (msg : string).

(** [Error()]. *)
Definition Error (e : GoError) : string :=
  match e with
  | IncompatibleValue value to extra =>
      let extra := if (String.length extra =? 0)%nat then "" else ": " ++ extra in
      "Cannot load value " ++ fmt_v value ++ " into a " ++ to ++ extra
  | ErrorString msg => msg
  end.

(** What a call does: it returns the pair [(result, err)], or it panics. *)
Inductive outcome :=
| Returns (res : Value) (err : option GoError)
| Panics.

(** [type Validation func(name string, val interface{}) error]. *)
Definition Validation := string -> Value -> option GoError.

Record MemberOf (T : Type) := mkMember {
  Type' : T;
  Description : string;
  Validations : list Validation;
  DefaultValue : Value
}.
Arguments mkMember {T}.
Arguments Type' {T}.
Arguments Description {T}.
Arguments Validations {T}.
Arguments DefaultValue {T}.

(** The implementations of the [DataType] interface: [Primitive],
    [*Array] and [Object].  Types and members are non-nil, as the
    declaring helpers ([M], [From]) build them. *)
Inductive DataType :=
| Primitive (k : Kind)
| Array (ElemType : DataType)
| Object (o : list (string * MemberOf DataType)).

Definition Member := MemberOf DataType.

(** [Primitive.Name]; [None] is the panic of the default case. *)
Definition Primitive_Name (b : Kind) : option string :=
  match b with
  | NullType => Some "null"
  | BooleanType => Some "boolean"
  | IntegerType => Some "integer"
  | NumberType => Some "number"
  | StringType => Some "string"
  | _ => None
  end.

(** The last statement of [Primitive.Load]:
    [return nil, &IncompatibleValue{value: value, to: b.Name(), extra: extra}]. *)
Definition incompatible (b : Kind) (value : Value) (extra : string) : outcome :=
  match Primitive_Name b with
  | Some name => Returns VNil (Some (IncompatibleValue value name extra))
  | None => Panics
  end.

(** [value == c] for an untyped integer constant [c]: the constant takes
    its default type [int], and two interface values are equal when
    their dynamic types are identical and their values equal. *)
Definition iface_eq_const (w : IntWidth) (z c : Z) : bool :=
  IntWidth_eqb w TInt && (z =? c)%Z.

Definition Primitive_Load (b : Kind) (value : Value) : outcome :=
  match value with
  | VNil => Returns VNil None
  | _ =>
    match b with
    | BooleanType =>
        match value with
        | VBool _ => Returns value None
        | VString v =>
            match ParseBool v with
            | inl res => Returns (VBool res) None
            | inr e => incompatible b value e
            end
        | VInt w z =>
            if iface_eq_const w z 0 then Returns (VBool false) None
            else if iface_eq_const w z 1 then Returns (VBool true) None
            else incompatible b value "integer value must be 0 or 1"
        | _ => incompatible b value ""
        end
    | IntegerType =>
        match value with
        | VInt TInt z => Returns (VInt TInt z) None
        | VInt _ z => Returns (VInt TInt (to_int z)) None
        | VString v =>
            match ParseInt v with
            | inl res => Returns (VInt TInt (to_int res)) None
            | inr e => incompatible b value e
            end
        | _ => incompatible b value ""
        end
    | NumberType =>
        match value with
        | VInt _ z => Returns (VFloat64 (float64_of_Z z)) None
        | VFloat32 f => Returns (VFloat64 (float64_of_float32 f)) None
        | VFloat64 f => Returns (VFloat64 f) None
        | VString v =>
            match ParseFloat v with
            | inl res => Returns (VFloat64 res) None
            | inr e => incompatible b value e
            end
        | _ => incompatible b value ""
        end
    | StringType =>
        match value with
        | VTime t => Returns (VString (Format_RFC3339 t)) None
        | VString _ => Returns value None
        | _ => incompatible b value ""
        end
    | _ => incompatible b value ""
    end
  end.

(** The second loop of [Array.Load]: elements are loaded in order and the
    first failure is returned with its index. *)
Fixpoint Array_Load_elems (load : Value -> outcome) (value : Value)
         (arr : list Value) (i : nat) (res : list Value) : outcome :=
  match arr with
  | [] => Returns (VSlice res) None
  | x :: rest =>
      match load x with
      | Panics => Panics
      | Returns _ (Some err) =>
          Returns VNil (Some (IncompatibleValue value "Array"
            ("cannot load value at index " ++ itoa i ++ ": " ++ Error err)))
      | Returns ev None => Array_Load_elems load value rest (S i) (res ++ [ev])
      end
  end.

(** [Array.Load], over the loader of the element type.
    [reflect.TypeOf(nil)] is the nil [reflect.Type], and calling [Kind]
    on it panics.  The branch for the kind [reflect.String] asserts
    [value.(string)]: the assertion holds of the type [string] only and
    panics on a value of any other type of that kind. *)
Definition Array_Load_with (load : Value -> outcome) (value : Value) : outcome :=
  match value with
  | VNil => Panics
  | VString s =>
      match Unmarshal_array s with
      | inr e =>
          Returns VNil (Some (IncompatibleValue value "Array"
            ("failed to decode JSON: " ++ e)))
      | inl arr => Array_Load_elems load value arr 0 []
      end
  | VSlice elems | VArr elems => Array_Load_elems load value elems 0 []
  | VOther type_name =>
      if kind_is_String type_name then Panics
      else
        Returns VNil (Some (IncompatibleValue value "Array"
          "value must be an array or a slice"))
  | _ =>
      Returns VNil (Some (IncompatibleValue value "Array"
        "value must be an array or a slice"))
  end.

(** [for _, validation := range m.Validations] of [Member.Load]. *)
Fixpoint run_validations (vs : list Validation) (name : string) (res : Value)
  : option GoError :=
  match vs with
  | [] => None
  | validation :: rest =>
      match validation name res with
      | Some err => Some err
      | None => run_validations rest name res
      end
  end.

(** [Member.Load], over the loader of the member's type. *)
Definition Member_Load_with (load : Value -> outcome) (m : Member)
           (name : string) (value : Value) : outcome :=
  match load value with
  | Panics => Panics
  | Returns _ (Some err) => Returns VNil (Some err)
  | Returns res None =>
      match run_validations (Validations m) name res with
      | Some err => Returns VNil (Some err)
      | None => Returns res None
      end
  end.

(** The validation loop inside [Object.Load]: every failing validation
    appends its error ([continue] moves on to the next validation). *)
Fixpoint append_validation_errors (vs : list Validation) (n : string)
         (val : Value) (errors : list GoError) : list GoError :=
  match vs with
  | [] => errors
  | validation :: rest =>
      match validation n val with
      | Some err => append_validation_errors rest n val (errors ++ [err])
      | None => append_validation_errors rest n val errors
      end
  end.

Definition member_error (value : Value) (n : string) (err : GoError) : GoError :=
  IncompatibleValue value "Object"
    ("could not load member " ++ n ++ ": " ++ Error err).

(** [val == nil] on an interface value. *)
Definition is_nil (v : Value) : bool :=
  match v with VNil => true | _ => false end.

(** [val, _ := m[n]]: the nil interface when the key is absent. *)
Definition field (n : string) (m : list (string * Value)) : Value :=
  match lookup n m with Some v => v | None => VNil end.

(** The member loop of [Object.Load] and its final test of [errors]. *)
Fixpoint Object_Load_members (loadm : Member -> string -> Value -> outcome)
         (value : Value) (m : list (string * Value))
         (o : list (string * Member))
         (coerced : list (string * Value)) (errors : list GoError) : outcome :=
  match o with
  | [] =>
      match errors with
      | e :: _ => Returns VNil (Some e)
      | [] => Returns (VMap coerced) None
      end
  | (n, member) :: rest =>
      let val := field n m in
      if is_nil val then
        let val := if is_nil (DefaultValue member) then val else DefaultValue member in
        Object_Load_members loadm value m rest (insert n val coerced) errors
      else
        match loadm member n val with
        | Panics => Panics
        | Returns _ (Some err) =>
            Object_Load_members loadm value m rest coerced
              (errors ++ [member_error value n err])
        | Returns val None =>
            Object_Load_members loadm value m rest (insert n val coerced)
              (append_validation_errors (Validations member) n val errors)
        end
  end.

(** [Object.Load], over the loader of members. *)
Definition Object_Load_with (loadm : Member -> string -> Value -> outcome)
           (o : list (string * Member)) (value : Value) : outcome :=
  match value with
  | VString v =>
      match Unmarshal_object v with
      | inr _ =>
          Returns VNil (Some (IncompatibleValue (VString v) "Object"
            "string is not a JSON object"))
      | inl m => Object_Load_members loadm value m o [] []
      end
  | VMap m => Object_Load_members loadm value m o [] []
  | _ => Returns VNil (Some (IncompatibleValue value "Object" ""))
  end.

(** [DataType.Load], dispatched on the implementation. *)
Fixpoint Load (t : DataType) (value : Value) {struct t} : outcome :=
  match t with
  | Primitive k => Primitive_Load k value
  | Array elem => Array_Load_with (Load elem) value
  | Object o =>
      Object_Load_with
        (fun member => Member_Load_with (Load (Type' member)) member) o value
  end.

Definition Array_Load (ElemType : DataType) : Value -> outcome :=
  Array_Load_with (Load ElemType).
Definition Member_Load (m : Member) : string -> Value -> outcome :=
  Member_Load_with (Load (Type' m)) m.
Definition Object_Load (o : list (string * Member)) : Value -> outcome :=
  Object_Load_with Member_Load o.

(** *** What the specification says of each primitive kind

    These follow the words of the specification and are compared with
    [Primitive_Load] below. *)

(** Boolean: native booleans, parseable boolean strings, the [int]s 0 and 1. *)
Definition Boolean_accepts (value : Value) : option bool :=
  match value with
  | VBool b => Some b
  | VString s => ParseBool_value s
  | VInt TInt 0 => Some false
  | VInt TInt 1 => Some true
  | _ => None
  end.

(** Integer: any native integer width, or a base-10 integer string. *)
Definition Integer_accepts (value : Value) : option Z :=
  match value with
  | VInt TInt z => Some z
  | VInt _ z => Some (to_int z)
  | VString s => match ParseInt s with inl z => Some (to_int z) | inr _ => None end
  | _ => None
  end.

(** String: native strings, or a time value rendered as RFC3339. *)
Definition String_accepts (value : Value) : option string :=
  match value with
  | VString s => Some s
  | VTime t => Some (Format_RFC3339 t)
  | _ => None
  end.

(** The call returns nil and an [IncompatibleValue] naming [value] and [to]. *)
Definition yields_IncompatibleValue (r : outcome) (value : Value) (to : string) : Prop :=
  exists extra, r = Returns VNil (Some (IncompatibleValue value to extra)).

(** What one member contributes to [Object.Load]: the default when the input
    has no value under its name, the result of [Member.Load] otherwise. *)
Definition member_result (m : list (string * Value)) (nm : string * Member) : outcome :=
  let (n, member) := nm in
  if is_nil (field n m) then
    Returns (if is_nil (DefaultValue member) then VNil else DefaultValue member) None
  else Member_Load member n (field n m).

Definition member_loads (m : list (string * Value)) (nm : string * Member) : Prop :=
  exists v, member_result m nm = Returns v None.

(** [value] is a string-keyed map, or a string that decodes to one. *)
Definition holds_object (value : Value) (m : list (string * Value)) : Prop :=
  value = VMap m \/ exists s, value = VString s /\ Unmarshal_object s = inl m.

(** ** Facts about [Primitive.Load] *)

Lemma Primitive_Load_nil b : Primitive_Load b VNil = Returns VNil None.
Proof. reflexivity. Qed.

Lemma ParseBool_inl s b : ParseBool_value s = Some b -> ParseBool s = inl b.
Proof. unfold ParseBool. now intros ->. Qed.

Lemma ParseBool_inr s :
  ParseBool_value s = None -> exists e, ParseBool s = inr e.
Proof. unfold ParseBool. intros ->. eauto. Qed.

(** C7 (as amended).  [Primitive.Load] returns [(nil, nil)] on a nil input
    whatever the kind.  On a non-nil input: Boolean succeeds exactly on native
    booleans (returned unchanged), strings [strconv.ParseBool] parses, and the
    [int] values 0 and 1 (giving false and true); Integer succeeds exactly on
    the native integer types (converted to [int]) and on strings
    [strconv.ParseInt] parses in base 10; String succeeds exactly on native
    strings and on time values (rendered as RFC3339); every other non-nil
    input yields nil and an [IncompatibleValue].  Integers of a type other
    than [int] under the Boolean kind are left out of the statement. *)
Theorem Primitive_Load_by_kind :
  (forall b, Primitive_Load b VNil = Returns VNil None) /\
  (forall value,
      value <> VNil -> (forall w z, value = VInt w z -> w = TInt) ->
      match Boolean_accepts value with
      | Some r => Primitive_Load BooleanType value = Returns (VBool r) None
      | None => yields_IncompatibleValue (Primitive_Load BooleanType value) value "boolean"
      end) /\
  (forall value,
      value <> VNil ->
      match Integer_accepts value with
      | Some z => Primitive_Load IntegerType value = Returns (VInt TInt z) None
      | None => yields_IncompatibleValue (Primitive_Load IntegerType value) value "integer"
      end) /\
  (forall value,
      value <> VNil ->
      match String_accepts value with
      | Some s => Primitive_Load StringType value = Returns (VString s) None
      | None => yields_IncompatibleValue (Primitive_Load StringType value) value "string"
      end).
Proof.
  unfold yields_IncompatibleValue.
  split; [reflexivity|]. split; [|split].
  - intros value Hnil Hint.
    destruct value as [ |b|w z|f|f|s|t|l|l|m|tn]; try congruence; simpl;
      try (eexists; reflexivity); try reflexivity.
    + rewrite (Hint w z eq_refl). simpl.
      destruct z as [|p|p]; simpl; [reflexivity| |eexists; reflexivity].
      destruct p; simpl; first [reflexivity | eexists; reflexivity].
    + destruct (ParseBool_value s) as [b|] eqn:E.
      * now rewrite (ParseBool_inl _ _ E).
      * destruct (ParseBool_inr _ E) as [e ->]. eexists; reflexivity.
  - intros value Hnil.
    destruct value as [ |b|w z|f|f|s|t|l|l|m|tn]; try congruence; simpl;
      try (eexists; reflexivity).
    + destruct w; reflexivity.
    + destruct (ParseInt s); [reflexivity | eexists; reflexivity].
  - intros value Hnil.
    destruct value as [ |b|w z|f|f|s|t|l|l|m|tn]; try congruence; simpl;
      try (eexists; reflexivity); reflexivity.
Qed.

(** A primitive type of one of the five declared kinds always returns. *)
Lemma Primitive_Load_returns b value :
  Primitive_Name b <> None -> Primitive_Load b value <> Panics.
Proof.
  intros Hname. unfold Primitive_Load, incompatible.
  destruct (Primitive_Name b) as [name|]; [|congruence].
  destruct value as [ |v|w z|f|f|s|t|l|l|m|tn]; try discriminate;
    destruct b; try discriminate.
  - destruct (iface_eq_const w z 0); [discriminate|].
    destruct (iface_eq_const w z 1); discriminate.
  - destruct w; discriminate.
  - destruct (ParseBool s); discriminate.
  - destruct (ParseInt s); discriminate.
  - destruct (ParseFloat s); discriminate.
Qed.

(** ** Facts about [Array.Load] *)

(** C8.  [Array.Load] called with the nil interface panics: it returns
    neither a value nor an [IncompatibleValue]. *)
Theorem Array_Load_nil_panics (ElemType : DataType) :
  Array_Load ElemType VNil = Panics.
Proof. reflexivity. Qed.

(** Away from nil, the element loop returns the first failure with its index. *)
Lemma Array_Load_elems_first_failure load value pre x post i res err r :
  (forall y, In y pre -> exists ev, load y = Returns ev None) ->
  load x = Returns r (Some err) ->
  Array_Load_elems load value (pre ++ x :: post)%list i res =
  Returns VNil (Some (IncompatibleValue value "Array"
    ("cannot load value at index " ++ itoa (i + List.length pre) ++ ": " ++ Error err))).
Proof.
  revert i res. induction pre as [|y pre IH]; intros i res Hpre Hx; simpl.
  - rewrite Hx. now rewrite Nat.add_0_r.
  - destruct (Hpre y (or_introl eq_refl)) as [ev ->].
    rewrite IH; [|intros; apply Hpre; now right|exact Hx].
    now replace (S i + List.length pre) with (i + S (List.length pre)) by lia.
Qed.

Lemma Array_Load_elems_returns load value arr i res :
  (forall x, In x arr -> load x <> Panics) ->
  Array_Load_elems load value arr i res <> Panics.
Proof.
  revert i res. induction arr as [|x arr IH]; intros i res Hload; simpl; [discriminate|].
  pose proof (Hload x (or_introl eq_refl)) as Hx.
  destruct (load x) as [ev [err|]|]; [discriminate | | congruence].
  apply IH. intros y Hy. apply Hload. now right.
Qed.

(** The inputs on which [Array.Load] panics before it looks at an element:
    the nil interface, and a value of a defined type of kind String. *)
Definition panics_Array_Load (value : Value) : Prop :=
  value = VNil \/ exists type_name, value = VOther type_name /\ kind_is_String type_name = true.

(** On those inputs [Array.Load] panics, and on any other it returns
    whenever the loader of the elements does. *)
Lemma Array_Load_with_panics load value :
  (forall x, load x <> Panics) ->
  (Array_Load_with load value = Panics <-> panics_Array_Load value).
Proof.
  intros Hload. unfold panics_Array_Load. split.
  - destruct value; simpl; try discriminate; auto.
    + destruct (Unmarshal_array s); [|discriminate].
      intros H. exfalso. revert H. apply Array_Load_elems_returns. auto.
    + intros H. exfalso. revert H. apply Array_Load_elems_returns. auto.
    + intros H. exfalso. revert H. apply Array_Load_elems_returns. auto.
    + destruct (kind_is_String type_name) eqn:E; [eauto | discriminate].
  - intros [->|(tn & -> & E)]; simpl; [reflexivity | now rewrite E].
Qed.

(** ** Facts about [Object.Load] *)

Lemma is_nil_true v : is_nil v = true -> v = VNil.
Proof. destruct v; simpl; congruence. Qed.

Lemma append_validation_errors_head vs n val e errors :
  exists errors', append_validation_errors vs n val (e :: errors) = e :: errors'.
Proof.
  revert errors. induction vs as [|v vs IH]; intros errors; simpl.
  - eauto.
  - destruct (v n val); [apply (IH (errors ++ [_])%list) | apply IH].
Qed.

(** A validation that passed in [Member.Load] passes again in [Object.Load]. *)
Lemma append_validation_errors_passed vs n val errors :
  run_validations vs n val = None ->
  append_validation_errors vs n val errors = errors.
Proof.
  induction vs as [|v vs IH]; simpl; [reflexivity|].
  destruct (v n val); [discriminate | exact IH].
Qed.

Lemma Member_Load_ok_validations member n val v :
  Member_Load member n val = Returns v None ->
  run_validations (Validations member) n v = None.
Proof.
  unfold Member_Load, Member_Load_with.
  destruct (Load (Type' member) val) as [res [err|]|]; try discriminate.
  destruct (run_validations (Validations member) n res) eqn:E; try discriminate.
  intros H. injection H as <-. exact E.
Qed.

(** Once an error is recorded, the loop ends by returning the first one. *)
Lemma Object_Load_members_recorded value m o coerced e errors :
  (forall nm, In nm o -> member_result m nm <> Panics) ->
  Object_Load_members Member_Load value m o coerced (e :: errors) =
  Returns VNil (Some e).
Proof.
  revert coerced errors. induction o as [|[n member] o IH]; intros coerced errors Hp; simpl.
  - reflexivity.
  - assert (Hp' : forall nm, In nm o -> member_result m nm <> Panics)
      by (intros; apply Hp; now right).
    specialize (Hp (n, member) (or_introl eq_refl)). simpl in Hp.
    destruct (is_nil (field n m)).
    + now apply IH.
    + destruct (Member_Load member n (field n m)) as [res [err|]|]; [| |congruence].
      * apply (IH coerced (errors ++ [_])%list), Hp'.
      * destruct (append_validation_errors_head (Validations member) n res e errors)
          as [errors' ->].
        now apply IH.
Qed.

(** The values of the members, inserted in iteration order. *)
Fixpoint coerce_members (m : list (string * Value)) (o : list (string * Member))
         (coerced : list (string * Value)) : list (string * Value) :=
  match o with
  | [] => coerced
  | nm :: rest =>
      match member_result m nm with
      | Returns v None => coerce_members m rest (insert (fst nm) v coerced)
      | _ => coerce_members m rest coerced
      end
  end.

(** While the members load, the loop records nothing and fills [coerced]. *)
Lemma Object_Load_members_loaded value m pre rest coerced :
  (forall nm, In nm pre -> member_loads m nm) ->
  Object_Load_members Member_Load value m (pre ++ rest)%list coerced [] =
  Object_Load_members Member_Load value m rest (coerce_members m pre coerced) [].
Proof.
  revert coerced. induction pre as [|[n member] pre IH]; intros coerced Hok; simpl.
  - reflexivity.
  - assert (Hok' : forall nm, In nm pre -> member_loads m nm)
      by (intros; apply Hok; now right).
    destruct (Hok (n, member) (or_introl eq_refl)) as [v Hv]. simpl in Hv.
    destruct (is_nil (field n m)) eqn:En.
    + rewrite (is_nil_true _ En). now apply IH.
    + rewrite Hv.
      rewrite (append_validation_errors_passed _ _ _ _ (Member_Load_ok_validations _ _ _ _ Hv)).
      now apply IH.
Qed.

Lemma coerce_members_keeps m o coerced n v :
  ~ In n (keys o) -> lookup n coerced = Some v ->
  lookup n (coerce_members m o coerced) = Some v.
Proof.
  revert coerced. induction o as [|[n' member] o IH]; intros coerced Hnotin Hl; simpl.
  - exact Hl.
  - simpl in Hnotin.
    assert (n' <> n) by tauto. assert (~ In n (keys o)) by tauto.
    destruct (if is_nil (field n' m) then _ else _) as [v' [e|]|]; simpl;
      try now apply IH.
    apply IH; [assumption|]. now rewrite lookup_insert_other.
Qed.

Lemma coerce_members_lookup m o coerced n member v :
  NoDup (keys o) -> In (n, member) o ->
  member_result m (n, member) = Returns v None ->
  lookup n (coerce_members m o coerced) = Some v.
Proof.
  revert coerced. induction o as [|[n' member'] o IH]; intros coerced Hnd Hin Hres.
  - destruct Hin.
  - simpl in Hnd. inversion Hnd as [|? ? Hnotin Hnd']; subst.
    destruct Hin as [E|Hin].
    + injection E as -> ->. cbn [coerce_members fst]. rewrite Hres.
      apply coerce_members_keeps; [exact Hnotin | apply lookup_insert_same].
    + cbn [coerce_members]. destruct (member_result m (n', member')) as [v' [e|]|];
        now apply IH.
Qed.

Lemma holds_object_Load o value m :
  holds_object value m ->
  Object_Load o value = Object_Load_members Member_Load value m o [] [].
Proof.
  intros [->|[s [-> Hs]]]; unfold Object_Load, Object_Load_with; [reflexivity|].
  now rewrite Hs.
Qed.

(** For an input that is a string-keyed map or a JSON object literal
    string, and members whose own [Load] returns: when every member loads,
    [Object.Load] returns the map that gives each declared member the value
    loaded from its key, or its default when the input has none; when a
    member fails, it returns nil and the error of the first member that
    failed in the iteration, whatever the later members do. *)
Lemma Object_Load_first_error o value m :
  holds_object value m ->
  (forall nm, In nm o -> member_result m nm <> Panics) ->
  ((forall nm, In nm o -> member_loads m nm) ->
   exists coerced,
     Object_Load o value = Returns (VMap coerced) None /\
     (NoDup (keys o) ->
      forall n member v, In (n, member) o ->
        member_result m (n, member) = Returns v None ->
        lookup n coerced = Some v)) /\
  (forall pre n member post r err,
     o = (pre ++ (n, member) :: post)%list ->
     (forall nm, In nm pre -> member_loads m nm) ->
     member_result m (n, member) = Returns r (Some err) ->
     Object_Load o value = Returns VNil (Some (member_error value n err))).
Proof.
  intros Hobj Hpanic. rewrite (holds_object_Load o _ _ Hobj). split.
  - intros Hok. exists (coerce_members m o []). split.
    + rewrite <- (app_nil_r o) at 1.
      now rewrite Object_Load_members_loaded.
    + intros Hnd n member v Hin Hres. now apply coerce_members_lookup with member.
  - intros pre n member post r err -> Hpre Hfail.
    rewrite Object_Load_members_loaded by exact Hpre.
    assert (Hpost : forall nm, In nm post -> member_result m nm <> Panics).
    { intros nm Hin. apply Hpanic, in_or_app. right. now right. }
    simpl in *. destruct (is_nil (field n m)); [discriminate|].
    rewrite Hfail. simpl. now apply Object_Load_members_recorded.
Qed.

(** ** More on the loaders

    The properties below are read off [Primitive.Load], [Array.Load],
    [Member.Load] and [Object.Load]. *)

(** Number: any native numeric type, or a string [strconv.ParseFloat] parses. *)
Definition Number_accepts (value : Value) : option float64 :=
  match value with
  | VInt _ z => Some (float64_of_Z z)
  | VFloat32 f => Some (float64_of_float32 f)
  | VFloat64 f => Some f
  | VString s => match ParseFloat s with inl f => Some f | inr _ => None end
  | _ => None
  end.

(** The Go type a kind loads into: [bool], [int], [float64], [string]. *)
Definition of_kind (b : Kind) (v : Value) : Prop :=
  match b, v with
  | BooleanType, VBool _ => True
  | IntegerType, VInt TInt _ => True
  | NumberType, VFloat64 _ => True
  | StringType, VString _ => True
  | _, _ => False
  end.

(** [value] is a slice, an array, or a string that decodes to a JSON array. *)
Definition holds_array (value : Value) (arr : list Value) : Prop :=
  value = VSlice arr \/ value = VArr arr \/
  exists s, value = VString s /\ Unmarshal_array s = inl arr.

(** Types made of objects and of the five declared primitives. *)
Fixpoint array_free (t : DataType) : bool :=
  match t with
  | Primitive k => match Primitive_Name k with Some _ => true | None => false end
  | Array _ => false
  | Object o =>
      (fix members (ms : list (string * MemberOf DataType)) : bool :=
         match ms with
         | [] => true
         | (_, member) :: rest => array_free (Type' member) && members rest
         end) o
  end.

(** Induction over a type and the types of its members. *)
Fixpoint DataType_members_ind (P : DataType -> Prop)
         (HP : forall k, P (Primitive k))
         (HA : forall e, P e -> P (Array e))
         (HO : forall o, Forall (fun nm => P (Type' (snd nm))) o -> P (Object o))
         (t : DataType) {struct t} : P t :=
  match t with
  | Primitive k => HP k
  | Array e => HA e (DataType_members_ind P HP HA HO e)
  | Object o =>
      HO o ((fix members (ms : list (string * MemberOf DataType))
               : Forall (fun nm => P (Type' (snd nm))) ms :=
               match ms with
               | [] => Forall_nil _
               | nm :: rest =>
                   Forall_cons nm (DataType_members_ind P HP HA HO (Type' (snd nm)))
                               (members rest)
               end) o)
  end.

Lemma Primitive_Load_result b value r :
  value <> VNil -> Primitive_Load b value = Returns r None -> of_kind b r.
Proof.
  intros Hnil. unfold Primitive_Load, incompatible.
  destruct value as [ |v|w z|f|f|s|t|l|l|m|tn]; try congruence;
    destruct b; simpl; try discriminate;
    try (intros H; injection H as <-; exact I).
  - destruct (iface_eq_const w z 0); [intros H; injection H as <-; exact I|].
    destruct (iface_eq_const w z 1); [intros H; injection H as <-; exact I|discriminate].
  - destruct w; intros H; injection H as <-; exact I.
  - destruct (ParseBool s); [intros H; injection H as <-; exact I|discriminate].
  - destruct (ParseInt s); [intros H; injection H as <-; exact I|discriminate].
  - destruct (ParseFloat s); [intros H; injection H as <-; exact I|discriminate].
Qed.

(** X1.  A value [Primitive.Load] returns without error for a non-nil input
    has the Go type of the kind: a [bool] for Boolean, an [int] for Integer,
    a [float64] for Number, a [string] for String; the Null kind loads no
    non-nil input. *)
Theorem Primitive_Load_gives_kind b value r :
  value <> VNil -> Primitive_Load b value = Returns r None ->
  of_kind b r /\ b <> NullType.
Proof.
  intros Hnil H. pose proof (Primitive_Load_result b value r Hnil H) as Hk.
  split; [exact Hk|]. intros ->. destruct r; exact Hk.
Qed.

(** X2.  Loading is idempotent on primitives: a value that [Primitive.Load]
    returned loads again, under the same kind, to itself. *)
Theorem Primitive_Load_idempotent b value r :
  Primitive_Load b value = Returns r None ->
  Primitive_Load b r = Returns r None.
Proof.
  intros H. destruct value as [ |v|w z|f|f|s|t|l|l|m|tn].
  1: { simpl in H. injection H as <-. reflexivity. }
  all: match type of H with Primitive_Load _ ?v = _ =>
         assert (Hk : of_kind b r) by (apply (Primitive_Load_result b v r); [discriminate | exact H])
       end;
    clear H; destruct b, r as [ |v'|w' z'|f'|f'|s'|t'|l'|l'|m'|tn']; simpl in Hk;
      try contradiction; try reflexivity;
    destruct w'; try contradiction; reflexivity.
Qed.

(** X3.  The Number kind succeeds exactly on the native integer and float
    types (converted to [float64]) and on strings [strconv.ParseFloat]
    parses; every other non-nil input yields nil and an
    [IncompatibleValue] naming the kind number. *)
Theorem Primitive_Load_Number value :
  value <> VNil ->
  match Number_accepts value with
  | Some f => Primitive_Load NumberType value = Returns (VFloat64 f) None
  | None => yields_IncompatibleValue (Primitive_Load NumberType value) value "number"
  end.
Proof.
  unfold yields_IncompatibleValue. intros Hnil.
  destruct value as [ |v|w z|f|f|s|t|l|l|m|tn]; try congruence; simpl;
    try (eexists; reflexivity).
  destruct (ParseFloat s); [reflexivity | eexists; reflexivity].
Qed.

Lemma Array_Load_elems_loaded load value arr i res :
  (forall x, In x arr -> exists ev, load x = Returns ev None) ->
  exists evs,
    Array_Load_elems load value arr i res = Returns (VSlice (res ++ evs)) None /\
    Forall2 (fun x ev => load x = Returns ev None) arr evs.
Proof.
  revert i res. induction arr as [|x arr IH]; intros i res Hall; simpl.
  - exists []. rewrite app_nil_r. split; [reflexivity | constructor].
  - destruct (Hall x (or_introl eq_refl)) as [ev Hev]. rewrite Hev.
    destruct (IH (S i) (res ++ [ev])%list) as (evs & -> & HF);
      [intros y Hy; apply Hall; now right|].
    exists (ev :: evs). rewrite <- app_assoc. split; [reflexivity | now constructor].
Qed.

Lemma holds_array_Load ElemType value arr :
  holds_array value arr ->
  Array_Load ElemType value = Array_Load_elems (Load ElemType) value arr 0 [].
Proof.
  intros [->|[->|(s & -> & Hs)]]; unfold Array_Load, Array_Load_with;
    [reflexivity | reflexivity | now rewrite Hs].
Qed.

(** X4.  When every element of the input loads into the element type,
    [Array.Load] returns a slice with the loaded elements, one for each
    element of the input and in the same order. *)
Theorem Array_Load_loads_each_element ElemType value arr :
  holds_array value arr ->
  (forall x, In x arr -> exists ev, Load ElemType x = Returns ev None) ->
  exists evs,
    Array_Load ElemType value = Returns (VSlice evs) None /\
    Forall2 (fun x ev => Load ElemType x = Returns ev None) arr evs.
Proof.
  intros Harr Hall. rewrite (holds_array_Load ElemType value arr Harr).
  exact (Array_Load_elems_loaded (Load ElemType) value arr 0 [] Hall).
Qed.

(** X5.  [Array.Load] stops at the first element that fails to load and
    returns nil with an [IncompatibleValue] that carries the whole input, the
    index of that element and the text of its error; the elements after it
    are not looked at. *)
Theorem Array_Load_reports_first_failure ElemType value pre x post r err :
  holds_array value (pre ++ x :: post)%list ->
  (forall y, In y pre -> exists ev, Load ElemType y = Returns ev None) ->
  Load ElemType x = Returns r (Some err) ->
  Array_Load ElemType value =
  Returns VNil (Some (IncompatibleValue value "Array"
    ("cannot load value at index " ++ itoa (List.length pre) ++ ": " ++ Error err))).
Proof.
  intros Harr Hpre Hx. rewrite (holds_array_Load ElemType value _ Harr).
  exact (Array_Load_elems_first_failure (Load ElemType) value pre x post 0 [] err r Hpre Hx).
Qed.

(** X6.  With an element type of one of the five declared primitive kinds,
    [Array.Load] panics on exactly two sorts of input: the nil interface,
    and a value of a defined type whose kind is String (the assertion
    [value.(string)] fails on it).  On every other input it returns. *)
Theorem Array_Load_of_primitives_panics k value :
  Primitive_Name k <> None ->
  (Array_Load (Primitive k) value = Panics <-> panics_Array_Load value).
Proof.
  intros Hk. apply Array_Load_with_panics.
  intros x. simpl. now apply Primitive_Load_returns.
Qed.

Lemma run_validations_pass vs name res :
  run_validations vs name res = None <-> Forall (fun v => v name res = None) vs.
Proof.
  induction vs as [|v vs IH]; simpl.
  - split; [constructor | reflexivity].
  - destruct (v name res) eqn:E.
    + split; [discriminate | intros H; inversion H; congruence].
    + rewrite IH. split; [now constructor | intros H; now inversion H].
Qed.

Lemma run_validations_first vs name res pre v post err :
  vs = (pre ++ v :: post)%list ->
  Forall (fun v => v name res = None) pre -> v name res = Some err ->
  run_validations vs name res = Some err.
Proof.
  intros -> Hpre Hv. induction Hpre as [|v0 pre H0 Hpre IH]; simpl.
  - now rewrite Hv.
  - now rewrite H0.
Qed.

(** X7.  [Member.Load] succeeds exactly when the type loads the value and
    every validation of the member accepts the loaded value, and then returns
    that value; when the type loads and a validation refuses, it returns nil
    with the error of the first validation that refused. *)
Theorem Member_Load_validates_loaded m name value res :
  (Member_Load m name value = Returns res None <->
   Load (Type' m) value = Returns res None /\
   Forall (fun v => v name res = None) (Validations m)) /\
  (forall pre v post err,
     Load (Type' m) value = Returns res None ->
     Validations m = (pre ++ v :: post)%list ->
     Forall (fun v => v name res = None) pre -> v name res = Some err ->
     Member_Load m name value = Returns VNil (Some err)).
Proof.
  unfold Member_Load, Member_Load_with. split.
  - destruct (Load (Type' m) value) as [r [e|]|]; try (split; [discriminate|intros [H _]; discriminate H]).
    destruct (run_validations (Validations m) name r) eqn:E.
    + split; [discriminate|]. intros [H Hall]. injection H as ->.
      apply run_validations_pass in Hall. congruence.
    + split.
      * intros H. injection H as <-. split; [reflexivity|]. now apply run_validations_pass.
      * intros [H _]. exact H.
  - intros pre v post err -> Hvs Hpre Hv.
    now rewrite (run_validations_first _ name res pre v post err Hvs Hpre Hv).
Qed.

Lemma Object_Load_members_returns loadm value m o coerced errors :
  (forall n member x, In (n, member) o -> loadm member n x <> Panics) ->
  Object_Load_members loadm value m o coerced errors <> Panics.
Proof.
  revert coerced errors. induction o as [|[n member] o IH]; intros coerced errors Hload; simpl.
  - destruct errors; discriminate.
  - assert (Hrest : forall n0 member0 x, In (n0, member0) o -> loadm member0 n0 x <> Panics)
      by (intros; apply Hload; now right).
    destruct (is_nil (field n m)); [now apply IH|].
    pose proof (Hload n member (field n m) (or_introl eq_refl)) as Hn.
    destruct (loadm member n (field n m)) as [r [e|]|]; [| |congruence]; now apply IH.
Qed.

Lemma array_free_members o :
  array_free (Object o) = true ->
  Forall (fun nm => array_free (Type' (snd nm)) = true) o.
Proof.
  simpl. induction o as [|[n member] o IH]; intros H; [constructor|].
  apply andb_true_iff in H. destruct H as [H1 H2]. constructor; [exact H1 | now apply IH].
Qed.

(** X8.  On a type made of objects and the five declared primitives, at any
    depth, [Load] never panics, whatever the input: it returns a value or an
    error. *)
Theorem Load_without_arrays_returns t :
  array_free t = true -> forall value, Load t value <> Panics.
Proof.
  induction t as [k|e IH|o IH] using DataType_members_ind; intros Hfree value.
  - simpl in *. apply Primitive_Load_returns.
    destruct (Primitive_Name k); [discriminate | discriminate Hfree].
  - discriminate Hfree.
  - apply array_free_members in Hfree. simpl. unfold Object_Load_with.
    assert (Hm : forall m, Object_Load_members
                   (fun member => Member_Load_with (Load (Type' member)) member)
                   value m o [] [] <> Panics).
    { intros m. apply Object_Load_members_returns.
      intros n member x Hin. unfold Member_Load_with.
      rewrite Forall_forall in IH, Hfree.
      pose proof (IH (n, member) Hin (Hfree (n, member) Hin) x) as Hx. simpl in Hx.
      destruct (Load (Type' member) x) as [r [e|]|]; [discriminate| |congruence].
      destruct (run_validations (Validations member) n r); discriminate. }
    destruct value; try discriminate; [|apply Hm].
    destruct (Unmarshal_object s); [apply Hm | discriminate].
Qed.

Lemma append_validation_errors_nil vs n val errors :
  append_validation_errors vs n val errors = [] -> errors = [].
Proof.
  revert errors. induction vs as [|v vs IH]; intros errors; simpl; [auto|].
  destruct (v n val).
  - intros H. apply IH in H. destruct errors; discriminate H.
  - apply IH.
Qed.

(** When the loop ends without an error, every member loaded, nothing was
    recorded and the result holds the values of the members. *)
Lemma Object_Load_members_success value m o coerced errors c :
  Object_Load_members Member_Load value m o coerced errors = Returns (VMap c) None ->
  errors = [] /\ (forall nm, In nm o -> member_loads m nm) /\
  c = coerce_members m o coerced.
Proof.
  revert coerced errors. induction o as [|[n member] o IH]; intros coerced errors; simpl.
  - destruct errors; [|discriminate]. intros H. injection H as <-.
    split; [reflexivity|]. split; [intros nm []|reflexivity].
  - unfold member_loads. destruct (is_nil (field n m)) eqn:En.
    + intros H. apply IH in H. destruct H as (He & Hall & Hc).
      rewrite (is_nil_true _ En) in Hc.
      split; [exact He|]. split; [|exact Hc].
      intros nm [<-|Hin]; [|exact (Hall nm Hin)]. simpl. rewrite En. eauto.
    + destruct (Member_Load member n (field n m)) as [r [e|]|] eqn:El; [| |discriminate].
      * intros H. apply IH in H. destruct H as (He & _). destruct errors; discriminate He.
      * intros H. apply IH in H. destruct H as (He & Hall & Hc).
        apply append_validation_errors_nil in He.
        split; [exact He|]. split; [|exact Hc].
        intros nm [<-|Hin]; [|exact (Hall nm Hin)]. simpl. rewrite En. eauto.
Qed.

Lemma keys_insert_new (k : string) (v : Value) (m : list (string * Value)) :
  ~ In k (keys m) -> keys (insert k v m) = (keys m ++ [k])%list.
Proof.
  unfold keys. induction m as [|[k' v'] m IH]; simpl; intros Hnot; [reflexivity|].
  destruct (String.eqb k k') eqn:E.
  - apply String.eqb_eq in E. exfalso. apply Hnot. left. now symmetry.
  - simpl. f_equal. apply IH. intros H. apply Hnot. now right.
Qed.

Lemma coerce_members_keys m o coerced :
  (forall nm, In nm o -> member_loads m nm) ->
  NoDup (keys coerced ++ keys o) ->
  keys (coerce_members m o coerced) = (keys coerced ++ keys o)%list.
Proof.
  revert coerced. induction o as [|[n member] o IH]; intros coerced Hall Hnd.
  - simpl. now rewrite app_nil_r.
  - destruct (Hall (n, member) (or_introl eq_refl)) as [v Hv].
    cbn [coerce_members fst]. rewrite Hv.
    assert (Hnot : ~ In n (keys coerced)).
    { intros Hin. simpl in Hnd. apply NoDup_remove_2 in Hnd. apply Hnd.
      apply in_or_app. now left. }
    rewrite IH.
    + rewrite keys_insert_new by exact Hnot. simpl. now rewrite <- app_assoc.
    + intros nm Hin. apply Hall. now right.
    + rewrite keys_insert_new by exact Hnot. simpl in Hnd. now rewrite <- app_assoc.
Qed.

(** X9.  When [Object.Load] succeeds on a map or a JSON object string, the
    names in the map it returns are the names of the declared members: a key
    of the input that names no member is dropped, and a member the input
    lacks is present, with its default or nil. *)
Theorem Object_Load_returns_declared_names o value m coerced :
  holds_object value m -> NoDup (keys o) ->
  Object_Load o value = Returns (VMap coerced) None ->
  keys coerced = keys o /\
  forall n member, In (n, member) o ->
    is_nil (field n m) = true ->
    lookup n coerced =
    Some (if is_nil (DefaultValue member) then VNil else DefaultValue member).
Proof.
  intros Hobj Hnd H. rewrite (holds_object_Load o _ _ Hobj) in H.
  apply Object_Load_members_success in H. destruct H as (_ & Hall & ->).
  split; [exact (coerce_members_keys m o [] Hall Hnd)|].
  intros n member Hin Hnil.
  apply coerce_members_lookup with member; [exact Hnd | exact Hin|].
  simpl. now rewrite Hnil.
Qed.

End Library.

Arguments VNil {float32 float64 Time}.
Arguments VBool {float32 float64 Time}.
Arguments VInt {float32 float64 Time}.
Arguments VString {float32 float64 Time}.
Arguments VSlice {float32 float64 Time}.
Arguments VMap {float32 float64 Time}.
Arguments Returns {float32 float64 Time}.
Arguments Panics {float32 float64 Time}.
Arguments IncompatibleValue {float32 float64 Time}.
Arguments Primitive {float32 float64 Time}.
Arguments Array {float32 float64 Time}.
Arguments Object {float32 float64 Time}.
Arguments mkMember {float32 float64 Time T}.

(** ** The library run on concrete inputs

    A small runtime to evaluate the definitions with: floats and times are
    the unit type, [ParseInt] knows the string 42, the JSON decoders reject
    everything, [%v] prints a fixed mark, and Color is a defined type of
    kind String. *)
Module Run.

Definition F := unit.
Definition value := @Value F F F.
Definition Quote (s : string) : string := "'" ++ s ++ "'".
Definition ParseInt (s : string) : Z + string :=
  if String.eqb s "42" then inl 42%Z else inr "invalid syntax".
Definition ParseFloat (s : string) : F + string := inr "invalid syntax".
Definition Unmarshal_array (s : string) : list value + string := inr "invalid character".
Definition Unmarshal_object (s : string) : list (string * value) + string :=
  inr "invalid character".
Definition fmt_v (v : value) : string := "?".
Definition kind_is_String (type_name : string) : bool := String.eqb type_name "Color".

Definition Primitive_Load : Kind -> value -> outcome F F F :=
  Primitive_Load F F F (fun _ => tt) (fun _ => tt) Quote ParseInt ParseFloat (fun _ => "T").
Definition Load : DataType F F F -> value -> outcome F F F :=
  Load F F F (fun _ => tt) (fun _ => tt) Quote ParseInt ParseFloat (fun _ => "T")
       Unmarshal_array Unmarshal_object fmt_v kind_is_String.
Definition Array_Load : DataType F F F -> value -> outcome F F F :=
  Array_Load F F F (fun _ => tt) (fun _ => tt) Quote ParseInt ParseFloat (fun _ => "T")
       Unmarshal_array Unmarshal_object fmt_v kind_is_String.
Definition Object_Load : list (string * Member F F F) -> value -> outcome F F F :=
  Object_Load F F F (fun _ => tt) (fun _ => tt) Quote ParseInt ParseFloat (fun _ => "T")
       Unmarshal_array Unmarshal_object fmt_v kind_is_String.

(** An object with an integer member and a boolean member, and an input in
    which neither loads. *)
Definition point : list (string * Member F F F) :=
  [("x", mkMember (Primitive IntegerType) "abscissa" [] VNil);
   ("ok", mkMember (Primitive BooleanType) "flag" [] VNil)].
Definition bad_point : list (string * value) :=
  [("x", VString "abc"); ("ok", VInt TInt 7)].

End Run.

(** C7, the claim as stated fails: a nil input under the Boolean kind is none
    of the accepted inputs, yet the call returns nil with a nil error and no
    [IncompatibleValue]. *)
Lemma Primitive_Load_nil_not_incompatible :
  Run.Primitive_Load BooleanType VNil = Returns VNil None /\
  forall e, Run.Primitive_Load BooleanType VNil <> Returns VNil (Some e).
Proof. split; [reflexivity | intros e H; discriminate H]. Qed.

(** The Boolean kind on an integer of another width than [int]: the value 1
    held as an [int8] is refused, since [value == 1] compares it with the
    [int] 1. *)
Lemma Primitive_Load_Boolean_int8_one :
  Run.Primitive_Load BooleanType (VInt TInt8 1) =
  Returns VNil (Some (IncompatibleValue (VInt TInt8 1) "boolean"
                        "integer value must be 0 or 1")).
Proof. reflexivity. Qed.

Lemma Primitive_Load_by_kind_witness :
  Run.Primitive_Load BooleanType (VInt TInt 1) = Returns (VBool true) None.
Proof.
  pose proof (Primitive_Load_by_kind unit unit unit (fun _ : Z => tt) (fun _ : unit => tt)
                Run.Quote Run.ParseInt Run.ParseFloat (fun _ : unit => "T")) as H.
  destruct H as [_ [H _]].
  apply (H (VInt TInt 1)).
  - discriminate.
  - intros w z E. injection E as <- _. reflexivity.
Defined.

(** C2.  [Object.Load] does not return on every input that is a
    string-keyed map: the nil element of a nested array, which a JSON null
    decodes to, reaches [Array.Load] through the member of the object, and
    the call panics; it returns neither the loaded members nor the error of
    the member. *)
Theorem Object_Load_nil_element_panics :
  Run.Object_Load
    [("rows", mkMember (Array (Array (Primitive IntegerType))) "rows" [] VNil)]
    (VMap [("rows", VSlice [VSlice [VInt TInt 1]; VNil])]) = Panics.
Proof. reflexivity. Qed.

(** C8 at a concrete array type: loading nil into an array of integers. *)
Lemma Array_Load_nil_example :
  Run.Array_Load (Primitive IntegerType) VNil = Panics.
Proof. reflexivity. Qed.

Lemma Object_Load_first_error_witness :
  Run.Object_Load Run.point (VMap Run.bad_point) =
  Returns VNil
    (Some (IncompatibleValue (VMap Run.bad_point) "Object"
       "could not load member x: Cannot load value ? into a integer: invalid syntax")).
Proof.
  refine (proj2 (Object_Load_first_error unit unit unit (fun _ : Z => tt) (fun _ : unit => tt)
            Run.Quote Run.ParseInt Run.ParseFloat (fun _ : unit => "T")
            Run.Unmarshal_array Run.Unmarshal_object Run.fmt_v Run.kind_is_String
            Run.point (VMap Run.bad_point) Run.bad_point _ _)
          [] "x" _ _ VNil _ eq_refl _ eq_refl).
  - left. reflexivity.
  - intros nm [<-|[<-|[]]]; discriminate.
  - intros nm [].
Defined.

(** ** The further properties on concrete inputs *)

Abbreviation on_primitives T :=
  (T unit unit unit (fun _ : Z => tt) (fun _ : unit => tt)
     Run.Quote Run.ParseInt Run.ParseFloat (fun _ : unit => "T")).
Abbreviation on_library T :=
  (T unit unit unit (fun _ : Z => tt) (fun _ : unit => tt)
     Run.Quote Run.ParseInt Run.ParseFloat (fun _ : unit => "T")
     Run.Unmarshal_array Run.Unmarshal_object Run.fmt_v Run.kind_is_String).

Lemma Primitive_Load_gives_kind_witness :
  of_kind unit unit unit IntegerType (VInt TInt 42) /\ IntegerType <> NullType.
Proof.
  apply (on_primitives Primitive_Load_gives_kind IntegerType (VString "42") (VInt TInt 42));
    [discriminate | reflexivity].
Defined.

Lemma Primitive_Load_idempotent_witness :
  Run.Primitive_Load BooleanType (VBool true) = Returns (VBool true) None.
Proof.
  apply (on_primitives Primitive_Load_idempotent BooleanType (VString "true") (VBool true)).
  reflexivity.
Defined.

Lemma Primitive_Load_Number_witness :
  Run.Primitive_Load NumberType (VInt TInt8 3) = Returns (VFloat64 unit unit unit tt) None.
Proof.
  apply (on_primitives Primitive_Load_Number (VInt TInt8 3)). discriminate.
Defined.

Lemma Array_Load_loads_each_element_witness :
  exists evs,
    Run.Array_Load (Primitive IntegerType) (VSlice [VInt TInt8 1; VString "42"]) =
      Returns (VSlice evs) None /\
    Forall2 (fun x ev => Run.Load (Primitive IntegerType) x = Returns ev None)
            [VInt TInt8 1; VString "42"] evs.
Proof.
  apply (on_library Array_Load_loads_each_element (Primitive IntegerType)
           (VSlice [VInt TInt8 1; VString "42"]) [VInt TInt8 1; VString "42"]).
  - left. reflexivity.
  - intros x [<-|[<-|[]]]; eexists; reflexivity.
Defined.

Lemma Array_Load_reports_first_failure_witness :
  Run.Array_Load (Primitive IntegerType) (VSlice [VInt TInt 1; VString "x"; VNil]) =
  Returns VNil
    (Some (IncompatibleValue (VSlice [VInt TInt 1; VString "x"; VNil]) "Array"
       "cannot load value at index 1: Cannot load value ? into a integer: invalid syntax")).
Proof.
  apply (on_library Array_Load_reports_first_failure (Primitive IntegerType)
           (VSlice [VInt TInt 1; VString "x"; VNil]) [VInt TInt 1] (VString "x") [VNil] VNil
           (IncompatibleValue (VString "x") "integer" "invalid syntax")).
  - left. reflexivity.
  - intros y [<-|[]]. eexists. reflexivity.
  - reflexivity.
Defined.

Lemma Array_Load_of_primitives_panics_witness :
  Run.Array_Load (Primitive BooleanType) (VOther unit unit unit "Color") = Panics.
Proof.
  apply (on_library Array_Load_of_primitives_panics BooleanType
           (VOther unit unit unit "Color")); [discriminate|].
  right. exists "Color". split; reflexivity.
Defined.

(** A slice returns, whatever its elements are, and so does a value of a
    type that is of no string kind. *)
Lemma Array_Load_of_primitives_returns_example :
  Run.Array_Load (Primitive BooleanType) (VSlice [VNil; VOther unit unit unit "Color"])
    <> Panics /\
  Run.Array_Load (Primitive BooleanType) (VOther unit unit unit "chan int") <> Panics.
Proof. split; discriminate. Qed.

(** A member whose second validation refuses every value. *)
Definition guarded : Member unit unit unit :=
  mkMember (Primitive IntegerType) "guarded"
           [fun _ _ => None; fun name _ => Some (ErrorString unit unit unit (name ++ " is refused"))] VNil.

Lemma Member_Load_validates_loaded_witness :
  on_library Member_Load guarded "n" (VString "42") =
  Returns VNil (Some (ErrorString unit unit unit "n is refused")).
Proof.
  apply (proj2 (on_library Member_Load_validates_loaded guarded "n" (VString "42")
                  (VInt TInt 42))
           [fun _ _ => None] (fun name _ => Some (ErrorString unit unit unit (name ++ " is refused"))) []);
    try reflexivity.
  repeat constructor.
Defined.

Lemma Load_without_arrays_returns_witness :
  Run.Load (Object [("at", mkMember (Object Run.point) "place" [] VNil)])
           (VMap [("at", VOther unit unit unit "chan int")]) <> Panics.
Proof.
  apply (on_library Load_without_arrays_returns). reflexivity.
Defined.

(** An input with an undeclared key and without the member ok, and what it
    loads to. *)
Definition partial_point : list (string * Run.value) :=
  [("x", VInt TInt8 1); ("junk", VBool true)].
Definition loaded_point : list (string * Run.value) :=
  [("x", VInt TInt 1); ("ok", VNil)].

Lemma Object_Load_returns_declared_names_witness :
  keys loaded_point = keys Run.point /\
  forall n member, In (n, member) Run.point ->
    is_nil unit unit unit (field unit unit unit n partial_point) = true ->
    lookup n loaded_point =
    Some (if is_nil unit unit unit (@DefaultValue unit unit unit _ member) then VNil
          else @DefaultValue unit unit unit _ member).
Proof.
  apply (on_library Object_Load_returns_declared_names Run.point
           (VMap partial_point) partial_point).
  - left. reflexivity.
  - repeat constructor; simpl; intuition discriminate.
  - reflexivity.
Defined.

End Coerce.


(** * Value validations (validation.go, the functions behind the property
    builders) *)

Module validators.
Import Coerce.
#[local] Arguments VArr {float32 float64 Time}.

Section Validators.
Variables float32 float64 Time : Type.
Abbreviation value := (Value float32 float64 Time).

(** What the standard library supplies to [validateFormat]: each parser
    gives the text of its error, if any. *)
Variable ToLower : string -> string.
Variable time_Parse : string -> string -> option string.
Variable mail_ParseAddress : string -> option string.
Variable hostnameRegex_MatchString : string -> bool.
Variable hostnameRegex_String : string.
Variable net_ParseIP_is_nil : string -> bool.
Variable ipv4Regex_MatchString : string -> bool.
Variable url_ParseRequestURI : string -> option string.
Variable net_ParseMAC : string -> option string.
Variable net_ParseCIDR : string -> option string.

(** [time.RFC3339]. *)
Definition RFC3339 : string := "2006-01-02T15:04:05Z07:00".

(** An error: one built by [fmt.Errorf] from a format and its arguments, or
    one a library call returned.  [AErr None] is a nil error given as an
    argument. *)
Inductive error :=
| Errorf (format : string) (args : list arg)
| LibraryError (text : string)
with arg :=
| AStr (s : string)
| AInt (n : Z)
| AVal (v : value)
| AErr (e : option error).

(** [type Validation func(val interface{}) error]. *)
Definition Validation := value -> option error.

Definition validateRequired (name : string) : Validation :=
  fun val =>
    if is_nil _ _ _ val then Some (Errorf "Property %s is required." [AStr name])
    else None.

(** The error a parser returned, as an [error] value. *)
Definition library (r : option string) : option error :=
  match r with
  | Some text => Some (LibraryError text)
  | None => None
  end.

(** The [switch] of [validateFormat]: the value of [err] when it ends. *)
Definition format_error (f sval : string) : option error :=
  let lower := ToLower f in
  if String.eqb lower "date-time" then library (time_Parse sval RFC3339)
  else if String.eqb lower "email" then library (mail_ParseAddress sval)
  else if String.eqb lower "hostname" then
    if negb (hostnameRegex_MatchString sval) then
      Some (Errorf "invalid hostname value '%s', does not match %s"
              [AStr sval; AStr hostnameRegex_String])
    else None
  else if String.eqb lower "ipv4" || String.eqb lower "ipv6" then
    let err :=
      if net_ParseIP_is_nil sval then Some (Errorf "invalid %s value '%s'" [AStr f; AStr sval])
      else None in
    if String.eqb f "ipv4" then
      if negb (ipv4Regex_MatchString sval) then
        Some (Errorf "invalid IPv4 value '%s'" [AStr sval])
      else err
    else err
  else if String.eqb lower "uri" then library (url_ParseRequestURI sval)
  else if String.eqb lower "mac" then library (net_ParseMAC sval)
  else if String.eqb lower "cidr" then library (net_ParseCIDR sval)
  else Some (Errorf "unknown validation format '%s'" [AStr f]).

(** [validateFormat]: the string branch ends with an unconditional
    [return fmt.Errorf("%s has an invalid value: %s", name, err)]. *)
Definition validateFormat (name f : string) : Validation :=
  fun val =>
    match val with
    | VNil => None
    | VString sval =>
        Some (Errorf "%s has an invalid value: %s" [AStr name; AErr (format_error f sval)])
    | _ =>
        Some (Errorf "%s has an invalid type, got '%v', need string" [AStr name; AVal val])
    end.

Definition validateIntMaximum (name : string) (max : Z) : Validation :=
  fun val =>
    match val with
    | VNil => None
    | VInt TInt ival =>
        if (ival >? max)%Z then
          Some (Errorf "%s has an invalid value: maximum allowed is %v, got %v"
                  [AStr name; AInt max; AInt ival])
        else None
    | _ =>
        Some (Errorf "%s has an invalid type, got '%v', need integer" [AStr name; AVal val])
    end.

Definition validateIntMinimum (name : string) (min : Z) : Validation :=
  fun val =>
    match val with
    | VNil => None
    | VInt TInt ival =>
        if (ival <? min)%Z then
          Some (Errorf "%s has an invalid value: minimum allowed is %v, got %v"
                  [AStr name; AInt min; AInt ival])
        else None
    | _ =>
        Some (Errorf "%s has an invalid type, got '%v', need integer" [AStr name; AVal val])
    end.

(** [len(sval)] and [reflect.ValueOf(val).Len()]. *)
Definition len_string (s : string) : Z := Z.of_nat (String.length s).
Definition len_elems (l : list value) : Z := Z.of_nat (List.length l).

Definition validateMinLength (name : string) (min : Z) : Validation :=
  fun val =>
    match val with
    | VNil => None
    | VString sval =>
        if (len_string sval <? min)%Z then
          Some (Errorf
            "%s has an invalid value: minimum length is %v, got '%s' (%d characters)"
            [AStr name; AInt min; AStr sval; AInt (len_string sval)])
        else None
    | VSlice elems | VArr elems =>
        if (len_elems elems <? min)%Z then
          Some (Errorf
            "%s has an invalid value: minimum length is %v but actual length is %d, got %v"
            [AStr name; AInt min; AInt (len_elems elems); AVal val])
        else None
    | _ =>
        Some (Errorf "%s has an invalid type, got '%v', need string or array"
                [AStr name; AVal val])
    end.

Definition validateMaxLength (name : string) (max : Z) : Validation :=
  fun val =>
    match val with
    | VNil => None
    | VString sval =>
        if (len_string sval >? max)%Z then
          Some (Errorf
            "%s has an invalid value: maximum length is %v, got '%s' (%d characters)"
            [AStr name; AInt max; AStr sval; AInt (len_string sval)])
        else None
    | VSlice elems | VArr elems =>
        if (len_elems elems >? max)%Z then
          Some (Errorf
            "%s has an invalid value: maximum length is %v but actual length is %d, got %v"
            [AStr name; AInt max; AInt (len_elems elems); AVal val])
        else None
    | _ =>
        Some (Errorf "%s has an invalid type, got '%v', need string or array"
                [AStr name; AVal val])
    end.

(** The length a length validation measures: bytes of a string, elements of
    a slice or an array; nothing else has one. *)
Definition measured (val : value) : option Z :=
  match val with
  | VString s => Some (len_string s)
  | VSlice elems | VArr elems => Some (len_elems elems)
  | _ => None
  end.

(** X10.  An absent value passes every constraint but presence: nil is
    accepted by the maximum, minimum, minimum-length, maximum-length and
    format validations, and [validateRequired] refuses nil and nothing else. *)
Theorem nil_passes_all_but_required name f bound val :
  validateIntMaximum name bound VNil = None /\
  validateIntMinimum name bound VNil = None /\
  validateMinLength name bound VNil = None /\
  validateMaxLength name bound VNil = None /\
  validateFormat name f VNil = None /\
  (validateRequired name val <> None <-> val = VNil).
Proof.
  repeat split; try reflexivity; unfold validateRequired;
    destruct val; simpl; congruence.
Qed.

(** X11.  The integer bounds accept, besides nil, exactly the values of type
    [int] within the bound: an [int] above the maximum or below the minimum
    is refused, and so is every value of another type, integers of other
    widths included.  Together they accept an [int] exactly when it lies
    between the minimum and the maximum. *)
Theorem integer_bounds_accept name min max val :
  (validateIntMaximum name max val = None <->
   val = VNil \/ exists z, val = VInt TInt z /\ (z <= max)%Z) /\
  (validateIntMinimum name min val = None <->
   val = VNil \/ exists z, val = VInt TInt z /\ (min <= z)%Z) /\
  (validateIntMinimum name min val = None /\ validateIntMaximum name max val = None <->
   val = VNil \/ exists z, val = VInt TInt z /\ (min <= z <= max)%Z).
Proof.
  assert (Hmax : validateIntMaximum name max val = None <->
                 val = VNil \/ exists z, val = VInt TInt z /\ (z <= max)%Z).
  { destruct val as [ |b|w z|g|g|s|t|l|l|m|tn]; simpl;
      try (split; [discriminate | intros [H|(z0 & H & _)]; discriminate H]).
    - split; auto.
    - destruct w;
        try (split; [discriminate | intros [H|(z0 & H & _)]; discriminate H]).
      destruct (z >? max)%Z eqn:E.
      + split; [discriminate|]. intros [H|(z0 & H & Hle)]; [discriminate H|].
        injection H as <-. lia.
      + split; [|reflexivity]. intros _. right. exists z. split; [reflexivity | lia]. }
  assert (Hmin : validateIntMinimum name min val = None <->
                 val = VNil \/ exists z, val = VInt TInt z /\ (min <= z)%Z).
  { destruct val as [ |b|w z|g|g|s|t|l|l|m|tn]; simpl;
      try (split; [discriminate | intros [H|(z0 & H & _)]; discriminate H]).
    - split; auto.
    - destruct w;
        try (split; [discriminate | intros [H|(z0 & H & _)]; discriminate H]).
      destruct (z <? min)%Z eqn:E.
      + split; [discriminate|]. intros [H|(z0 & H & Hle)]; [discriminate H|].
        injection H as <-. lia.
      + split; [|reflexivity]. intros _. right. exists z. split; [reflexivity | lia]. }
  split; [exact Hmax|]. split; [exact Hmin|].
  rewrite Hmax, Hmin. split.
  - intros [[->|(z & -> & Hz)] [H|(z' & H & Hz')]]; auto; try discriminate H.
    injection H as <-. right. exists z. split; [reflexivity | lia].
  - intros [->|(z & -> & Hz)]; [auto|].
    split; right; exists z; (split; [reflexivity | lia]).
Qed.

Lemma validateMinLength_measured name min val :
  val <> VNil ->
  (validateMinLength name min val = None <->
   exists n, measured val = Some n /\ (min <= n)%Z).
Proof.
  intros Hnil.
  destruct val as [ |b|w z|g|g|s|t|l|l|m|tn]; simpl; try congruence;
    try (split; [discriminate | intros (n & H & _); discriminate H]);
    match goal with |- context [(?a <? ?b)%Z] => destruct (Z.ltb_spec a b) end;
    (split;
     [ intros H0; first [discriminate H0 | eexists; split; [reflexivity | lia]]
     | intros (n & H0 & Hn); injection H0 as <-; first [reflexivity | lia] ]).
Qed.

Lemma validateMaxLength_measured name max val :
  val <> VNil ->
  (validateMaxLength name max val = None <->
   exists n, measured val = Some n /\ (n <= max)%Z).
Proof.
  intros Hnil.
  destruct val as [ |b|w z|g|g|s|t|l|l|m|tn]; simpl; try congruence;
    try (split; [discriminate | intros (n & H & _); discriminate H]);
    match goal with |- context [(?a >? ?b)%Z] =>
      rewrite (Z.gtb_ltb a b); destruct (Z.ltb_spec b a) end;
    (split;
     [ intros H0; first [discriminate H0 | eexists; split; [reflexivity | lia]]
     | intros (n & H0 & Hn); injection H0 as <-; first [reflexivity | lia] ]).
Qed.

(** X12.  The length validations accept nil, and otherwise measure a string
    by its bytes and a slice or an array by its elements: the value passes
    the minimum exactly when its length is not below it and the maximum
    exactly when its length is not above it; a value of any other type is
    refused by both. *)
Theorem length_bounds_accept name min max val :
  val <> VNil ->
  (validateMinLength name min val = None <->
   exists n, measured val = Some n /\ (min <= n)%Z) /\
  (validateMaxLength name max val = None <->
   exists n, measured val = Some n /\ (n <= max)%Z).
Proof.
  intros Hnil. split;
    [now apply validateMinLength_measured | now apply validateMaxLength_measured].
Qed.

(** X13.  [validateFormat] accepts nil only: a string is refused whatever
    the format and whatever the parser of the format says, since the error
    is built and returned even when the parser found none; a value that is
    no string is refused for its type. *)
Theorem validateFormat_accepts_only_nil name f val :
  (validateFormat name f val = None <-> val = VNil) /\
  (forall sval, val = VString sval ->
     validateFormat name f val =
     Some (Errorf "%s has an invalid value: %s" [AStr name; AErr (format_error f sval)])).
Proof.
  split.
  - destruct val; simpl; split; congruence.
  - intros sval ->. reflexivity.
Qed.

End Validators.

Lemma length_bounds_accept_witness :
  (validateMinLength unit unit unit "tags" 2 (VSlice [VNil; VNil; VNil]) = None <->
   exists n, measured unit unit unit (VSlice [VNil; VNil; VNil]) = Some n /\ (2 <= n)%Z) /\
  (validateMaxLength unit unit unit "tags" 2 (VSlice [VNil; VNil; VNil]) = None <->
   exists n, measured unit unit unit (VSlice [VNil; VNil; VNil]) = Some n /\ (n <= 2)%Z).
Proof.
  apply (length_bounds_accept unit unit unit "tags" 2 2 (VSlice [VNil; VNil; VNil])).
  discriminate.
Defined.

(** A well-formed address is refused by the email format all the same. *)
Lemma validateFormat_accepts_only_nil_witness :
  validateFormat unit unit unit (fun s => s) (fun _ _ => None) (fun _ => None)
                 (fun _ => true) "" (fun _ => false) (fun _ => true)
                 (fun _ => None) (fun _ => None) (fun _ => None)
                 "contact" "email" (VString "a@b.org") =
  Some (Errorf unit unit unit "%s has an invalid value: %s"
          [AStr _ _ _ "contact";
           AErr _ _ _ (format_error unit unit unit (fun s => s) (fun _ _ => None)
                         (fun _ => None) (fun _ => true) "" (fun _ => false)
                         (fun _ => true) (fun _ => None) (fun _ => None) (fun _ => None)
                         "email" "a@b.org")]).
Proof.
  apply (proj2 (validateFormat_accepts_only_nil unit unit unit (fun s => s)
                  (fun _ _ => None) (fun _ => None) (fun _ => true) "" (fun _ => false)
                  (fun _ => true) (fun _ => None) (fun _ => None) (fun _ => None)
                  "contact" "email" (VString "a@b.org")) "a@b.org").
  reflexivity.
Defined.

End validators.


(** * Package design: the model and the validation pass (validation.go) *)

Module design.

(** The double quote, for the messages the source writes as raw strings. *)
Definition dq : string := String (ascii_of_nat 34) EmptyString.

(** An error built by [fmt.Errorf]: the format and its arguments. *)
Inductive error :=
| Errorf (format : string) (args : list arg)
with arg :=
| AStr (s : string)
| AInt (n : Z)
| AStrs (l : list string)
| AErr (e : error).

Inductive Kind :=
| BooleanKind | IntegerKind | NumberKind | StringKind
| ArrayKind | ObjectKind | UserTypeKind | MediaTypeKind.

(** [ValidationDefinition]: the required-members validation, and the others
    (enum, format, bounds, lengths), which the validation pass does not read. *)
Inductive ValidationDefinition :=
| RequiredValidationDefinition (Names : list string)
| OtherValidationDefinition (description : string).

(** [AttributeDefinition], over the type of its [Type] field.  A nil [Type]
    is [None]; the default value is kept as its literal. *)
Record AttributeOf (T : Type) := mkAttribute {
  Type' : option T;
  Description : string;
  Validations : list ValidationDefinition;
  DefaultValue : option string;
  View : string
}.
Arguments mkAttribute {T}.
Arguments Type' {T}.
Arguments Description {T}.
Arguments Validations {T}.
Arguments DefaultValue {T}.
Arguments View {T}.

(** The implementations of [DataType].  [Object] is a map from member names
    to attributes (non-nil, as the DSL builds them); a user type and a media
    type are held by reference, here the name they are registered under. *)
Inductive DataType :=
| Primitive (k : Kind)
| Array (ElemType : AttributeOf DataType)
| Object (o : list (string * AttributeOf DataType))
| UserType (ref : string)
| MediaType (ref : string).

Abbreviation AttributeDefinition := (AttributeOf DataType).
Abbreviation Object_t := (list (string * AttributeOf DataType)).

Definition Boolean := Primitive BooleanKind.
Definition Integer := Primitive IntegerKind.
Definition Number := Primitive NumberKind.
Definition String := Primitive StringKind.

(** [&AttributeDefinition{Type: t}]: every other field has its zero value. *)
Definition attribute_of_type (t : DataType) : AttributeDefinition :=
  mkAttribute (Some t) "" [] None "".

(** [with] for the [Type] field. *)
Definition set_Type (a : AttributeDefinition) (t : option DataType) : AttributeDefinition :=
  mkAttribute t (Description a) (Validations a) (DefaultValue a) (View a).

(** [UserTypeDefinition] embeds [*AttributeDefinition]; [DSL] is the handle
    of the function value, if any. *)
Record UserTypeDefinition := mkUserType {
  UT_AttributeDefinition : AttributeDefinition;
  TypeName : string;
  BaseType : option string;
  UT_DSL : option nat
}.

(** [MediaTypeDefinition] embeds [*UserTypeDefinition]. *)
Record MediaTypeDefinition := mkMediaType {
  MT_UserTypeDefinition : UserTypeDefinition;
  Identifier : string;
  Links : list (string * string);
  Views : list (string * list string)
}.

Definition MT_Type (m : MediaTypeDefinition) : option DataType :=
  Type' (UT_AttributeDefinition (MT_UserTypeDefinition m)).

Definition set_Identifier (m : MediaTypeDefinition) (id : string) : MediaTypeDefinition :=
  mkMediaType (MT_UserTypeDefinition m) id (Links m) (Views m).

Definition set_MT_Type (m : MediaTypeDefinition) (t : option DataType) : MediaTypeDefinition :=
  let u := MT_UserTypeDefinition m in
  mkMediaType
    (mkUserType (set_Type (UT_AttributeDefinition u) t) (TypeName u) (BaseType u) (UT_DSL u))
    (Identifier m) (Links m) (Views m).

(** The declarations of the definitions below are not in the sources;
    their fields are those the validation and finalization passes use.

    The maps of a design hold pointers to response definitions, and the
    second pass writes through them.  An entry of such a map is the
    definition the pointer leads to together with its address, [Resp_Ptr]:
    two entries with the same address are one definition. *)
Record ResponseDefinition := mkResponse {
  Resp_Ptr : string;
  Resp_Name : string;
  Status : Z;
  Resp_Description : string;
  Resp_MediaType : string;
  Resp_Headers : list (string * string)
}.

(** A route; [Route_Parent] stands for its pointer to the owning action. *)
Record RouteDefinition := mkRoute {
  Verb : string;
  Path : string;
  Route_Parent : string
}.

(** [Payload] is a user type, as the code generator takes it; [Responses]
    is kept in iteration order. *)
Record ActionDefinition := mkAction {
  Action_Name : string;
  Routes : list RouteDefinition;
  Params : option AttributeDefinition;
  Payload : option UserTypeDefinition;
  Responses : list (string * ResponseDefinition)
}.

Record ResourceDefinition := mkResource {
  Res_Name : string;
  BasePath : string;
  BaseParams : option AttributeDefinition;
  ParentName : string;
  CanonicalAction : string;
  Res_MediaType : string;
  Actions : list (string * ActionDefinition);
  Res_Responses : list (string * ResponseDefinition);
  Res_DSL : option nat
}.

Record APIDefinition := mkAPI {
  API_Name : string;
  API_DSL : option nat;
  Types : list (string * UserTypeDefinition);
  MediaTypes : list (string * MediaTypeDefinition);
  Resources : list (string * ResourceDefinition);
  API_Responses : list (string * ResponseDefinition);
  DefaultResponses : list (string * ResponseDefinition)
}.

(** Modelled from the spec: the [Kind] method of the implementations of
    [DataType] is not in the sources; the type tag is one of Primitive, Array,
    Object, UserType and MediaType, and each reports its own kind. *)
Definition DataType_Kind (t : DataType) : Kind :=
  match t with
  | Primitive k => k
  | Array _ => ArrayKind
  | Object _ => ObjectKind
  | UserType _ => UserTypeKind
  | MediaType _ => MediaTypeKind
  end.

(** [LinkDefinition]: its declaration is not in the sources; the fields are
    those [Validate] reads.  A nil [Parent] or [MediaType] is [None]. *)
Record LinkDefinition := mkLink {
  Link_Name : string;
  Link_View : string;
  Link_Parent : option MediaTypeDefinition;
  Link_MediaType : option MediaTypeDefinition
}.

(** What a call of a [Validate] method that reads through pointers comes
    to: the error it returns, or the panic of a nil dereference. *)
Inductive validated :=
| Validated (err : option error)
| NilDereference.

Section Validation.

(** [mime.ParseMediaType]: the text of its error, if any. *)
Variable ParseMediaType : string -> option string.
(** [ParamsRegex.FindAllStringSubmatch(path, -1)]. *)
Variable FindAllStringSubmatch : string -> list (list string).
(** The object behind a referenced user or media type, if it has one. *)
Variable deref_object : string -> option Object_t.

(** Modelled from the spec: the [ToObject] method is not in the sources; it
    gives the object an attribute type stands for, and nil when there is
    none. *)
Definition ToObject (t : DataType) : option Object_t :=
  match t with
  | Object o => Some o
  | UserType ref | MediaType ref => deref_object ref
  | Primitive _ | Array _ => None
  end.

(** The first name of a [Required] validation that is no member of [o]. *)
Fixpoint first_missing (o : Object_t) (names : list string) : option string :=
  match names with
  | [] => None
  | n :: rest => if has_key n o then first_missing o rest else Some n
  end.

(** The loop over [a.Validations] in [AttributeDefinition.Validate];
    [o] is the result of the type assertion [a.Type.(Object)]. *)
Fixpoint check_validations (o : option Object_t) (vs : list ValidationDefinition)
  : option error :=
  match vs with
  | [] => None
  | RequiredValidationDefinition names :: rest =>
      match o with
      | None =>
          Some (Errorf ("only objects may define a " ++ dq ++ "Required" ++ dq ++ " validation") [])
      | Some o' =>
          match first_missing o' names with
          | Some n =>
              Some (Errorf ("required field " ++ dq ++ "%s" ++ dq ++ " does not exist") [AStr n])
          | None => check_validations o rest
          end
      end
  | OtherValidationDefinition _ :: rest => check_validations o rest
  end.

(** [AttributeDefinition.Validate] for an attribute of type [t] and
    validations [vs]: the validations, then every member of an object. *)
Fixpoint Validate_typed (t : DataType) (vs : list ValidationDefinition) {struct t}
  : option error :=
  match t with
  | Object o =>
      match check_validations (Some o) vs with
      | Some err => Some err
      | None =>
          (fix members (ms : list (string * AttributeOf DataType)) : option error :=
             match ms with
             | [] => None
             | (_, att) :: rest =>
                 match
                   match Type' att with
                   | Some t' => Validate_typed t' (Validations att)
                   | None => check_validations None (Validations att)
                   end
                 with
                 | Some err => Some err
                 | None => members rest
                 end
             end) o
      end
  | _ => check_validations None vs
  end.

Definition AttributeDefinition_Validate (a : AttributeDefinition) : option error :=
  match Type' a with
  | Some t => Validate_typed t (Validations a)
  | None => check_validations None (Validations a)
  end.

(** [for _, att := range o { if err := att.Validate(); err != nil { return err } }]. *)
Fixpoint validate_members (o : Object_t) : option error :=
  match o with
  | [] => None
  | (_, att) :: rest =>
      match AttributeDefinition_Validate att with
      | Some err => Some err
      | None => validate_members rest
      end
  end.

(** [UserTypeDefinition.Validate]. *)
Definition UserTypeDefinition_Validate (u : UserTypeDefinition) : option error :=
  if String.eqb (TypeName u) "" then Some (Errorf "User type must have a name" [])
  else None.

(** The loop over the attributes of a media type: an attribute with a view
    must be of a media type that has that view.  The list [o] holds the
    members in the order this run of the loop takes them; Go ranges over a
    map in an order it picks anew each time, so another call is given
    another list. *)
Fixpoint check_views (mts : list (string * MediaTypeDefinition)) (identifier : string)
         (o : Object_t) : option error :=
  match o with
  | [] => None
  | (n, att) :: rest =>
      if String.eqb (View att) "" then check_views mts identifier rest
      else
        match Type' att with
        | Some (MediaType ref) =>
            let views := match lookup ref mts with Some cmt => Views cmt | None => [] end in
            if has_key (View att) views then check_views mts identifier rest
            else Some (Errorf "attribute %s of media type %s uses unknown view %#v"
                         [AStr n; AStr identifier; AStr (View att)])
        | _ =>
            Some (Errorf
              "attribute %s of media type %s defines a view for rendering but its type is not MediaTypeDefinition"
              [AStr n; AStr identifier])
        end
  end.

(** [MediaTypeDefinition.Validate]: the media type as the call leaves it,
    and the error. *)
Definition MediaTypeDefinition_Validate (mts : list (string * MediaTypeDefinition))
           (m : MediaTypeDefinition) : MediaTypeDefinition * option error :=
  if String.eqb (TypeName (MT_UserTypeDefinition m)) "" then
    (m, Some (Errorf "Media type must have a name" []))
  else
    let identified :=
      if negb (String.eqb (Identifier m) "") then
        match ParseMediaType (Identifier m) with
        | Some err => inr (Errorf "invalid media type identifier: %s" [AStr err])
        | None => inl m
        end
      else inl (set_Identifier m "plain/text") in
    match identified with
    | inr err => (m, Some err)
    | inl m1 =>
        let m2 := match MT_Type m1 with
                  | None => set_MT_Type m1 (Some String)
                  | Some _ => m1
                  end in
        match match MT_Type m2 with Some t => ToObject t | None => None end with
        | Some o => (m2, check_views mts (Identifier m2) o)
        | None => (m2, None)
        end
    end.

(** [if mt, ok := Design.MediaTypes[name]; ok { if err := mt.Validate(); ... } }]
    for a non-empty [name]: the media types as the call leaves them. *)
Definition validate_named_media_type (mts : list (string * MediaTypeDefinition))
           (name : string) : list (string * MediaTypeDefinition) * option error :=
  if String.eqb name "" then (mts, None)
  else
    match lookup name mts with
    | Some mt =>
        let (mt', err) := MediaTypeDefinition_Validate mts mt in
        (insert name mt' mts, err)
    | None => (mts, None)
    end.

(** [ResponseDefinition.Validate]. *)
Definition ResponseDefinition_Validate (mts : list (string * MediaTypeDefinition))
           (r : ResponseDefinition) : list (string * MediaTypeDefinition) * option error :=
  if (Status r =? 0)%Z then (mts, Some (Errorf "response status not defined" []))
  else validate_named_media_type mts (Resp_MediaType r).

(** The inner loop of [ActionDefinition.Validate]: some response at a
    position other than [i] has the status of [r]. *)
Fixpoint status_shared (i : nat) (r : ResponseDefinition) (j : nat)
         (rs : list (string * ResponseDefinition)) : bool :=
  match rs with
  | [] => false
  | (_, r2) :: rest =>
      (negb (i =? j)%nat && (Status r =? Status r2)%Z) || status_shared i r (S j) rest
  end.

(** The outer loop of [ActionDefinition.Validate] from position [i] on;
    [all] is [a.Responses]. *)
Fixpoint validate_responses (all : list (string * ResponseDefinition))
         (mts : list (string * MediaTypeDefinition)) (i : nat)
         (rs : list (string * ResponseDefinition))
  : list (string * MediaTypeDefinition) * option error :=
  match rs with
  | [] => (mts, None)
  | (_, r) :: rest =>
      if status_shared i r 0 all then
        (mts, Some (Errorf "Multiple response definitions with status code %d" [AInt (Status r)]))
      else
        match ResponseDefinition_Validate mts r with
        | (mts', Some err) =>
            if (Status r =? 0)%Z then
              (mts', Some (Errorf "invalid response definition: %s" [AErr err]))
            else
              (mts', Some (Errorf "invalid %d response definition: %s" [AInt (Status r); AErr err]))
        | (mts', None) => validate_responses all mts' (S i) rest
        end
  end.

(** The loop of [ValidateParams] over the parameters. *)
Fixpoint validate_params (action : string) (params : Object_t) : option error :=
  match params with
  | [] => None
  | (n, p) :: rest =>
      if String.eqb n "" then Some (Errorf "%s has parameter with no name" [AStr action])
      else
        match Type' p with
        | None =>
            Some (Errorf "type of parameter %s of action %s cannot be nil" [AStr n; AStr action])
        | Some t =>
            match DataType_Kind t with
            | ObjectKind =>
                Some (Errorf
                  "parameter %s of action %s cannot be an object, only action payloads may be of type object"
                  [AStr n; AStr action])
            | _ =>
                match AttributeDefinition_Validate p with
                | Some err =>
                    Some (Errorf "invalid definition for parameter %s of action %s: %s"
                            [AStr n; AStr action; AErr err])
                | None => validate_params action rest
                end
            end
        end
  end.

(** [ActionDefinition.ValidateParams]. *)
Definition ValidateParams (a : ActionDefinition) : option error :=
  match Params a with
  | None => None
  | Some p =>
      match Type' p with
      | Some (Object params) => validate_params (Action_Name a) params
      | _ =>
          Some (Errorf (dq ++ "Params" ++ dq ++ " field of action " ++ dq ++ "%s" ++ dq
                        ++ " is not an object") [AStr (Action_Name a)])
      end
  end.

(** [ActionDefinition.Validate]. *)
Definition ActionDefinition_Validate (mts : list (string * MediaTypeDefinition))
           (a : ActionDefinition) : list (string * MediaTypeDefinition) * option error :=
  if String.eqb (Action_Name a) "" then (mts, Some (Errorf "Action name cannot be empty" []))
  else
    match Routes a with
    | [] => (mts, Some (Errorf "No route defined for action %s" [AStr (Action_Name a)]))
    | _ :: _ =>
        match validate_responses (Responses a) mts 0 (Responses a) with
        | (mts', Some err) => (mts', Some err)
        | (mts', None) =>
            match ValidateParams a with
            | Some err => (mts', Some err)
            | None =>
                match Payload a with
                | Some payload =>
                    match UserTypeDefinition_Validate payload with
                    | Some err =>
                        (mts', Some (Errorf ("invalid payload definition for action " ++ dq
                                             ++ "%s" ++ dq ++ ": %s")
                                       [AStr (Action_Name a); AErr err]))
                    | None => (mts', None)
                    end
                | None => (mts', None)
                end
            end
        end
    end.

(** The loop over the actions in [ResourceDefinition.Validate]; the boolean
    is [found]. *)
Fixpoint validate_actions (canonical : string) (mts : list (string * MediaTypeDefinition))
         (found : bool) (actions : list (string * ActionDefinition))
  : list (string * MediaTypeDefinition) * bool * option error :=
  match actions with
  | [] => (mts, found, None)
  | (_, a) :: rest =>
      let found := if String.eqb (Action_Name a) canonical then true else found in
      match ActionDefinition_Validate mts a with
      | (mts', Some err) =>
          (mts', found, Some (Errorf "Action %s: %s" [AStr (Action_Name a); AErr err]))
      | (mts', None) => validate_actions canonical mts' found rest
      end
  end.

(** The first variable of the base path that names no base parameter. *)
Fixpoint first_unmatched (baseParams : Object_t) (vars : list string) : option string :=
  match vars with
  | [] => None
  | v :: rest => if has_key v baseParams then first_unmatched baseParams rest else Some v
  end.

(** The check of [BaseParams] against [BasePath] in [ResourceDefinition.Validate]. *)
Definition validate_base_params (r : ResourceDefinition) : option error :=
  match BaseParams r with
  | None => None
  | Some bp =>
      match Type' bp with
      | Some (Object baseParams) =>
          match FindAllStringSubmatch (BasePath r) with
          | _ :: vars :: _ =>
              if negb (List.length vars =? List.length baseParams)%nat then
                Some (Errorf "BasePath defines parameters %s but BaseParams has %d elements"
                        [AStrs vars; AInt (Z.of_nat (List.length baseParams))])
              else
                match first_unmatched baseParams vars with
                | Some v =>
                    Some (Errorf
                      "Variable %s from base path %s does not match any parameter from BaseParams"
                      [AStr v; AStr (BasePath r)])
                | None => None
                end
          | _ =>
              if (0 <? List.length baseParams)%nat then
                Some (Errorf "BasePath does not use variables defines in BaseParams" [])
              else None
          end
      | _ => Some (Errorf "Invalid type for BaseParams, must be an Object" [])
      end
  end.

(** [ResourceDefinition.Validate]; [resources] is [Design.Resources]. *)
Definition ResourceDefinition_Validate (resources : list (string * ResourceDefinition))
           (mts : list (string * MediaTypeDefinition)) (r : ResourceDefinition)
  : list (string * MediaTypeDefinition) * option error :=
  if String.eqb (Res_Name r) "" then (mts, Some (Errorf "Resource name cannot be empty" []))
  else
    match validate_actions (CanonicalAction r) mts false (Actions r) with
    | (mts', _, Some err) => (mts', Some err)
    | (mts', found, None) =>
        if negb (String.eqb (CanonicalAction r) "") && negb found then
          (mts', Some (Errorf "Unknown canonical action '%s'" [AStr (CanonicalAction r)]))
        else
          match validate_base_params r with
          | Some err => (mts', Some err)
          | None =>
              if negb (String.eqb (ParentName r) "") && negb (has_key (ParentName r) resources)
              then (mts', Some (Errorf "Parent resource named %#v not found" [AStr (ParentName r)]))
              else validate_named_media_type mts' (Res_MediaType r)
          end
    end.

(** The loop of [APIDefinition.Validate] over the resources. *)
Fixpoint validate_resources (resources : list (string * ResourceDefinition))
         (mts : list (string * MediaTypeDefinition))
         (rs : list (string * ResourceDefinition))
  : list (string * MediaTypeDefinition) * option error :=
  match rs with
  | [] => (mts, None)
  | (_, r) :: rest =>
      match ResourceDefinition_Validate resources mts r with
      | (mts', Some err) =>
          (mts', Some (Errorf "Resource %s: %s" [AStr (Res_Name r); AErr err]))
      | (mts', None) =>
          if negb (String.eqb (ParentName r) "") && negb (has_key (ParentName r) resources)
          then (mts', Some (Errorf "Resource %s: Unknown parent resource %s"
                              [AStr (Res_Name r); AStr (ParentName r)]))
          else validate_resources resources mts' rest
      end
  end.

Definition set_MediaTypes (a : APIDefinition) (mts : list (string * MediaTypeDefinition))
  : APIDefinition :=
  mkAPI (API_Name a) (API_DSL a) (Types a) mts (Resources a) (API_Responses a)
        (DefaultResponses a).

(** [APIDefinition.Validate], called on [Design]: the design as the call
    leaves it, and the error. *)
Definition APIDefinition_Validate (a : APIDefinition) : APIDefinition * option error :=
  let (mts, err) := validate_resources (Resources a) (MediaTypes a) (Resources a) in
  (set_MediaTypes a mts, err).

(** ** Attributes: required members *)

(** [b] sits in the attribute tree of [a], reached through members of
    objects. *)
Inductive nested_in (b : AttributeDefinition) : AttributeDefinition -> Prop :=
| nested_here : nested_in b b
| nested_member a o n att :
    Type' a = Some (Object o) -> In (n, att) o -> nested_in b att -> nested_in b a.

(** [b] is an attribute of the tree of [a]: [a] itself, a member of an
    object or the element of an array, at any depth. *)
Inductive in_tree (b : AttributeDefinition) : AttributeDefinition -> Prop :=
| tree_here : in_tree b b
| tree_member a o n att :
    Type' a = Some (Object o) -> In (n, att) o -> in_tree b att -> in_tree b a
| tree_element a e :
    Type' a = Some (Array e) -> in_tree b e -> in_tree b a.

(** The type of [b] is an object and one of its [Required] validations names
    a member the object does not have. *)
Definition requires_missing_member (b : AttributeDefinition) : Prop :=
  exists o names n,
    Type' b = Some (Object o) /\
    In (RequiredValidationDefinition names) (Validations b) /\
    In n names /\ ~ In n (keys o).

Lemma AttributeDefinition_Validate_Object a o :
  Type' a = Some (Object o) ->
  AttributeDefinition_Validate a =
  match check_validations (Some o) (Validations a) with
  | Some err => Some err
  | None => validate_members o
  end.
Proof.
  intros Ha. unfold AttributeDefinition_Validate at 1. rewrite Ha. simpl.
  destruct (check_validations (Some o) (Validations a)); [reflexivity|].
  clear Ha. induction o as [|[n att] o IH]; [reflexivity|]. simpl.
  unfold AttributeDefinition_Validate at 1.
  destruct (match Type' att with Some t' => _ | None => _ end); [reflexivity | exact IH].
Qed.

Lemma first_missing_found o names n :
  In n names -> ~ In n (keys o) -> exists n', first_missing o names = Some n'.
Proof.
  intros Hin Hmiss. induction names as [|n0 names IH]; [destruct Hin|]. simpl.
  destruct (has_key n0 o) eqn:E; [|eauto].
  destruct Hin as [->|Hin]; [|auto].
  apply has_key_In in E. contradiction.
Qed.

Lemma check_validations_missing o vs names n :
  In (RequiredValidationDefinition names) vs -> In n names -> ~ In n (keys o) ->
  exists err, check_validations (Some o) vs = Some err.
Proof.
  intros Hin Hn Hmiss. induction vs as [|v vs IH]; [destruct Hin|].
  destruct Hin as [->|Hin]; simpl.
  - destruct (first_missing_found o names n Hn Hmiss) as [n' ->]. eauto.
  - destruct v as [names'|d]; [|auto].
    destruct (first_missing o names'); eauto.
Qed.

Lemma validate_members_fails o n att err :
  In (n, att) o -> AttributeDefinition_Validate att = Some err ->
  exists err', validate_members o = Some err'.
Proof.
  intros Hin Hatt. induction o as [|[n0 att0] o IH]; [destruct Hin|]. simpl.
  destruct Hin as [E|Hin].
  - injection E as -> ->. rewrite Hatt. eauto.
  - destruct (AttributeDefinition_Validate att0); eauto.
Qed.

(** Whenever an attribute whose type is an object, reached from [a] through
    members of objects only, has a [Required] validation naming a member that
    its object lacks, [a.Validate()] returns an error. *)
Lemma Validate_detects_missing_required a b :
  nested_in b a -> requires_missing_member b ->
  exists err, AttributeDefinition_Validate a = Some err.
Proof.
  intros Hnest Hreq. induction Hnest as [|a o n att Ha Hin Hnest IH].
  - destruct Hreq as (o & names & n & Ho & Hv & Hn & Hmiss).
    rewrite (AttributeDefinition_Validate_Object b o Ho).
    destruct (check_validations_missing o (Validations b) names n Hv Hn Hmiss) as [err ->]. eauto.
  - destruct IH as [err Herr].
    rewrite (AttributeDefinition_Validate_Object a o Ha).
    destruct (check_validations (Some o) (Validations a)); [eauto|].
    exact (validate_members_fails o n att err Hin Herr).
Qed.

(** ** Media types: what [Validate] leaves of the definition *)

Lemma MediaTypeDefinition_Validate_frame mts m :
  let m' := fst (MediaTypeDefinition_Validate mts m) in
  Views m' = Views m /\ Links m' = Links m /\
  TypeName (MT_UserTypeDefinition m') = TypeName (MT_UserTypeDefinition m) /\
  BaseType (MT_UserTypeDefinition m') = BaseType (MT_UserTypeDefinition m) /\
  Validations (UT_AttributeDefinition (MT_UserTypeDefinition m')) =
    Validations (UT_AttributeDefinition (MT_UserTypeDefinition m)) /\
  (Identifier m <> "" -> Identifier m' = Identifier m) /\
  (MT_Type m <> None -> MT_Type m' = MT_Type m).
Proof.
  unfold MediaTypeDefinition_Validate, MT_Type.
  destruct m as [[[ty d vs dv vw] tn bt dsl] id ls vws]; simpl.
  destruct (String.eqb tn ""); simpl; [repeat split; reflexivity|].
  destruct (String.eqb id "") eqn:Eid; simpl.
  - apply String.eqb_eq in Eid. subst id.
    destruct ty as [t|]; simpl;
      [destruct (ToObject t) | ]; simpl; repeat split; congruence.
  - destruct (ParseMediaType id); simpl; [repeat split; reflexivity|].
    destruct ty as [t|]; simpl;
      [destruct (ToObject t) | ]; simpl; repeat split; congruence.
Qed.

(** A named media type without a type comes out of a successful [Validate]
    with the type [String]. *)
Lemma MediaTypeDefinition_Validate_defaults_Type mts m :
  TypeName (MT_UserTypeDefinition m) <> "" ->
  ParseMediaType (Identifier m) = None ->
  Identifier m <> "" ->
  MT_Type m = None ->
  MediaTypeDefinition_Validate mts m = (set_MT_Type m (Some String), None).
Proof.
  intros Hname Hparse Hid Hty. unfold MediaTypeDefinition_Validate.
  apply String.eqb_neq in Hname, Hid. rewrite Hname, Hid, Hparse. simpl.
  rewrite Hty. reflexivity.
Qed.

(** ** Actions: responses sharing a status *)

(** The responses at the distinct positions [i] and [j] have the same status. *)
Definition shares_status (rs : list (string * ResponseDefinition)) (i j : nat) : Prop :=
  i <> j /\
  exists k1 r1 k2 r2,
    nth_error rs i = Some (k1, r1) /\ nth_error rs j = Some (k2, r2) /\
    Status r1 = Status r2.

Definition has_duplicate_status (rs : list (string * ResponseDefinition)) : Prop :=
  exists i j, shares_status rs i j.

Definition duplicate_status_error (status : Z) : error :=
  Errorf "Multiple response definitions with status code %d" [AInt status].

Definition is_duplicate_status_error (e : error) : Prop :=
  exists status, e = duplicate_status_error status.

Lemma status_shared_spec i r off rs :
  status_shared i r off rs = true <->
  exists j k2 r2,
    nth_error rs j = Some (k2, r2) /\ i <> off + j /\ Status r = Status r2.
Proof.
  revert off. induction rs as [|[k r2] rs IH]; intros off; simpl.
  - split; [discriminate|]. intros (j & k2 & r2 & H & _). destruct j; discriminate H.
  - rewrite orb_true_iff, andb_true_iff, negb_true_iff, Nat.eqb_neq, Z.eqb_eq, IH.
    split.
    + intros [[Hne Hst]|(j & k2 & r3 & Hj & Hne & Hst)].
      * exists 0, k, r2. rewrite Nat.add_0_r. auto.
      * exists (S j), k2, r3. rewrite Nat.add_succ_r. auto.
    + intros (j & k2 & r3 & Hj & Hne & Hst). destruct j as [|j]; simpl in Hj.
      * injection Hj as -> ->. rewrite Nat.add_0_r in Hne. auto.
      * right. exists j, k2, r3. rewrite Nat.add_succ_r in Hne. auto.
Qed.

Lemma validate_responses_app all mts i pre rest :
  validate_responses all mts i (pre ++ rest) =
  match validate_responses all mts i pre with
  | (mts', Some err) => (mts', Some err)
  | (mts', None) => validate_responses all mts' (i + List.length pre) rest
  end.
Proof.
  revert mts i. induction pre as [|[k r] pre IH]; intros mts i; simpl.
  - now rewrite Nat.add_0_r.
  - destruct (status_shared i r 0 all); [reflexivity|].
    destruct (ResponseDefinition_Validate mts r) as [mts' [err|]].
    + destruct (Status r =? 0)%Z; reflexivity.
    + rewrite IH. now rewrite Nat.add_succ_r.
Qed.

Lemma nth_error_middle {A} (pre : list A) x post :
  nth_error (pre ++ x :: post) (List.length pre) = Some x.
Proof. induction pre; simpl; auto. Qed.

(** From position [i] on, a status shared at or after [i] stops the loop
    with an error. *)
Lemma validate_responses_duplicate all mts pre rs p q :
  all = (pre ++ rs)%list -> shares_status all p q -> List.length pre <= p ->
  exists err, snd (validate_responses all mts (List.length pre) rs) = Some err.
Proof.
  intros Hall Hpq. revert mts pre Hall.
  induction rs as [|[k r] rs IH]; intros mts pre Hall Hle.
  - rewrite app_nil_r in Hall. subst pre.
    destruct Hpq as (_ & k1 & r1 & _ & _ & Hp & _).
    apply nth_error_None in Hle. congruence.
  - simpl. destruct (status_shared (List.length pre) r 0 all) eqn:Esh; [simpl; eauto|].
    assert (Hne : p <> List.length pre).
    { intros ->. destruct Hpq as (Hne & k1 & r1 & k2 & r2 & Hp & Hq & Hst).
      rewrite Hall, nth_error_middle in Hp. injection Hp as <- <-.
      assert (status_shared (List.length pre) r 0 all = true); [|congruence].
      apply status_shared_spec. exists q, k2, r2. simpl. auto. }
    destruct (ResponseDefinition_Validate mts r) as [mts' [err|]].
    + destruct (Status r =? 0)%Z; simpl; eauto.
    + specialize (IH mts' (pre ++ [(k, r)])%list).
      rewrite length_app in IH. simpl in IH. rewrite Nat.add_1_r in IH.
      apply IH; [|lia]. rewrite <- app_assoc. exact Hall.
Qed.

(** Without a shared status, no error of the loop is the duplicate-status one. *)
Lemma validate_responses_distinct all mts pre rs err :
  all = (pre ++ rs)%list -> ~ has_duplicate_status all ->
  snd (validate_responses all mts (List.length pre) rs) = Some err ->
  ~ is_duplicate_status_error err.
Proof.
  intros Hall Hnd. revert mts pre Hall.
  induction rs as [|[k r] rs IH]; intros mts pre Hall; simpl; [discriminate|].
  destruct (status_shared (List.length pre) r 0 all) eqn:Esh.
  - exfalso. apply Hnd. apply status_shared_spec in Esh.
    destruct Esh as (j & k2 & r2 & Hj & Hne & Hst).
    exists (List.length pre), j. split; [exact Hne|].
    exists k, r, k2, r2. rewrite Hall at 1. rewrite nth_error_middle. auto.
  - destruct (ResponseDefinition_Validate mts r) as [mts' [e|]].
    + destruct (Status r =? 0)%Z; simpl; intros H [st Hst];
        injection H as <-; discriminate Hst.
    + specialize (IH mts' (pre ++ [(k, r)])%list).
      rewrite length_app in IH. simpl in IH. rewrite Nat.add_1_r in IH.
      apply IH. rewrite <- app_assoc. exact Hall.
Qed.

Lemma validate_params_not_duplicate action params err :
  validate_params action params = Some err -> ~ is_duplicate_status_error err.
Proof.
  induction params as [|[n p] params IH]; simpl; [discriminate|].
  destruct (String.eqb n ""); [intros H [st Hst]; injection H as <-; discriminate Hst|].
  destruct (Type' p) as [t|]; [|intros H [st Hst]; injection H as <-; discriminate Hst].
  destruct (DataType_Kind t);
    try (destruct (AttributeDefinition_Validate p); [|exact IH]);
    intros H [st Hst]; injection H as <-; discriminate Hst.
Qed.

(** C3 (as amended).  An action with two distinct responses of equal status
    always fails [Validate].  The error is the duplicate-status error of the
    first response, in iteration order, whose status is shared, provided the
    action has a name and a route and the responses before that one pass
    the loop.  An action whose statuses are pairwise distinct never gets the
    duplicate-status error. *)
Theorem ActionDefinition_Validate_duplicate_status mts a :
  (has_duplicate_status (Responses a) ->
   exists err, snd (ActionDefinition_Validate mts a) = Some err) /\
  (forall pre k r post,
     Action_Name a <> "" -> Routes a <> [] ->
     Responses a = (pre ++ (k, r) :: post)%list ->
     status_shared (List.length pre) r 0 (Responses a) = true ->
     snd (validate_responses (Responses a) mts 0 pre) = None ->
     snd (ActionDefinition_Validate mts a) = Some (duplicate_status_error (Status r))) /\
  (~ has_duplicate_status (Responses a) ->
   forall err, snd (ActionDefinition_Validate mts a) = Some err ->
               ~ is_duplicate_status_error err).
Proof.
  unfold ActionDefinition_Validate. split; [|split].
  - intros (p & q & Hpq).
    destruct (String.eqb (Action_Name a) ""); [simpl; eauto|].
    destruct (Routes a); [simpl; eauto|].
    destruct (validate_responses_duplicate (Responses a) mts [] (Responses a) p q
                eq_refl Hpq (Nat.le_0_l _)) as [err Herr].
    simpl in Herr.
    destruct (validate_responses (Responses a) mts 0 (Responses a)) as [mts' [e|]];
      simpl in *; [eauto | discriminate].
  - intros pre k r post Hname Hroutes Hresp Hshared Hpre.
    apply String.eqb_neq in Hname. rewrite Hname.
    destruct (Routes a); [congruence|].
    rewrite Hresp at 2. rewrite validate_responses_app.
    destruct (validate_responses (Responses a) mts 0 pre) as [mts' [e|]];
      simpl in Hpre; [discriminate|].
    simpl. rewrite Hshared. reflexivity.
  - intros Hnd err.
    destruct (String.eqb (Action_Name a) "");
      [simpl; intros H [st Hst]; injection H as <-; discriminate Hst|].
    destruct (Routes a);
      [simpl; intros H [st Hst]; injection H as <-; discriminate Hst|].
    pose proof (validate_responses_distinct (Responses a) mts [] (Responses a)) as Hloop.
    simpl in Hloop.
    destruct (validate_responses (Responses a) mts 0 (Responses a)) as [mts' [e|]]; simpl.
    + intros H. injection H as <-. now apply (Hloop e).
    + destruct (ValidateParams a) as [e|] eqn:Ep; simpl.
      * intros H. injection H as <-. unfold ValidateParams in Ep.
        destruct (Params a) as [p|]; [|discriminate].
        destruct (Type' p) as [[ | |o| | ]|];
          try (intros [st Hst]; injection Ep as <-; discriminate Hst).
        now apply validate_params_not_duplicate with (Action_Name a) o.
      * destruct (Payload a) as [u|]; [|discriminate].
        destruct (UserTypeDefinition_Validate u); simpl; [|discriminate].
        intros H [st Hst]; injection H as <-; discriminate Hst.
Qed.

(** ** A design that passed validation *)

Lemma ActionDefinition_Validate_params mts a mts' :
  ActionDefinition_Validate mts a = (mts', None) -> ValidateParams a = None.
Proof.
  unfold ActionDefinition_Validate.
  destruct (String.eqb (Action_Name a) ""); [discriminate|].
  destruct (Routes a); [discriminate|].
  destruct (validate_responses (Responses a) mts 0 (Responses a)) as [m [e|]]; [discriminate|].
  destruct (ValidateParams a); [discriminate | reflexivity].
Qed.

Lemma validate_actions_params canonical mts found actions mts' found' :
  validate_actions canonical mts found actions = (mts', found', None) ->
  forall name a, In (name, a) actions -> ValidateParams a = None.
Proof.
  revert mts found. induction actions as [|[n0 a0] actions IH]; intros mts found H name a Hin.
  - destruct Hin.
  - simpl in H.
    destruct (ActionDefinition_Validate mts a0) as [m [e|]] eqn:Ea; [discriminate|].
    destruct Hin as [E|Hin].
    + injection E as <- <-. exact (ActionDefinition_Validate_params mts a0 m Ea).
    + exact (IH _ _ H name a Hin).
Qed.

Lemma ResourceDefinition_Validate_params resources mts r mts' :
  ResourceDefinition_Validate resources mts r = (mts', None) ->
  forall name a, In (name, a) (Actions r) -> ValidateParams a = None.
Proof.
  unfold ResourceDefinition_Validate.
  destruct (String.eqb (Res_Name r) ""); [discriminate|].
  destruct (validate_actions (CanonicalAction r) mts false (Actions r))
    as [[m found] [e|]] eqn:Ea; [discriminate|].
  intros _. exact (validate_actions_params _ _ _ _ _ _ Ea).
Qed.

Lemma validate_resources_params resources mts rs mts' :
  validate_resources resources mts rs = (mts', None) ->
  forall rname r name a,
    In (rname, r) rs -> In (name, a) (Actions r) -> ValidateParams a = None.
Proof.
  revert mts. induction rs as [|[n0 r0] rs IH]; intros mts H rname r name a Hr Ha.
  - destruct Hr.
  - simpl in H.
    destruct (ResourceDefinition_Validate resources mts r0) as [m [e|]] eqn:Er; [discriminate|].
    destruct (negb (String.eqb (ParentName r0) "") && negb (has_key (ParentName r0) resources));
      [discriminate|].
    destruct Hr as [E|Hr].
    + injection E as <- <-. exact (ResourceDefinition_Validate_params _ _ _ _ Er name a Ha).
    + exact (IH _ H rname r name a Hr Ha).
Qed.

(** [Validate] changes nothing of a design but its media types, and the
    parameters of every action of a design it accepts pass [ValidateParams]. *)
Lemma APIDefinition_Validate_accepts d d' :
  APIDefinition_Validate d = (d', None) ->
  Resources d' = Resources d /\ Types d' = Types d /\
  API_Responses d' = API_Responses d /\ DefaultResponses d' = DefaultResponses d /\
  forall rname r name a,
    In (rname, r) (Resources d) -> In (name, a) (Actions r) -> ValidateParams a = None.
Proof.
  unfold APIDefinition_Validate.
  destruct (validate_resources (Resources d) (MediaTypes d) (Resources d)) as [mts err] eqn:E.
  intros H. injection H as <- ->. simpl. repeat split.
  exact (validate_resources_params _ _ _ _ E).
Qed.

(** ** The views of attributes *)

(** The views of the media type a reference leads to. *)
Definition views_of (mts : list (string * MediaTypeDefinition)) (ref : string)
  : list (string * list string) :=
  match lookup ref mts with Some cmt => Views cmt | None => [] end.

(** What the loop of [MediaTypeDefinition.Validate] asks of one attribute:
    no view, or a view of the media type the attribute is of. *)
Definition view_ok (mts : list (string * MediaTypeDefinition)) (att : AttributeDefinition)
  : bool :=
  String.eqb (View att) "" ||
  match Type' att with
  | Some (MediaType ref) => has_key (View att) (views_of mts ref)
  | _ => false
  end.

Lemma check_views_None_iff mts identifier o :
  check_views mts identifier o = None <-> Forall (fun nr => view_ok mts (snd nr) = true) o.
Proof.
  unfold view_ok, views_of. induction o as [|[n att] o IH]; simpl.
  - split; [constructor | reflexivity].
  - destruct (String.eqb (View att) "") eqn:Ev; simpl.
    + rewrite IH. split; [intros H; constructor; [simpl; now rewrite Ev | exact H]
                         | intros H; now inversion H].
    + assert (Hbad : forall e : error,
                Some e = None <->
                Forall (fun nr : string * AttributeDefinition =>
                          String.eqb (View (snd nr)) "" || false = true) ((n, att) :: o)).
      { intros e. split; [discriminate|]. intros H. inversion H as [|? ? H1 _]; subst.
        simpl in H1. rewrite Ev in H1. discriminate H1. }
      destruct (Type' att) as [[k|e|ob|ref|ref]|] eqn:Et;
        try (split; [discriminate|]; intros H; inversion H as [|? ? H1 _]; subst;
             simpl in H1; rewrite Ev, Et in H1; discriminate H1).
      destruct (has_key (View att)
                  (match lookup ref mts with Some cmt => Views cmt | None => [] end)) eqn:Eh.
      * rewrite IH. split; [intros H; constructor; [simpl; now rewrite Ev, Et, Eh | exact H]
                           | intros H; now inversion H].
      * split; [discriminate|]. intros H. inversion H as [|? ? H1 _]; subst.
        simpl in H1. rewrite Ev, Et, Eh in H1. discriminate H1.
Qed.

Lemma view_ok_views_of mts mts' att :
  (forall ref, views_of mts' ref = views_of mts ref) -> view_ok mts' att = view_ok mts att.
Proof.
  intros H. unfold view_ok. destruct (Type' att) as [[k|e|ob|ref|ref]|]; try reflexivity.
  now rewrite H.
Qed.

(** Acceptance depends neither on the order the attributes are taken in nor
    on more of the registered media types than their views. *)
Lemma check_views_reordered mts mts' identifier identifier' o o' :
  (forall ref, views_of mts' ref = views_of mts ref) -> Permutation o o' ->
  (check_views mts' identifier' o' = None <-> check_views mts identifier o = None).
Proof.
  intros Hv Hp. rewrite !check_views_None_iff. split; intros H.
  - apply (Permutation_Forall (Permutation_sym Hp)).
    eapply Forall_impl; [|exact H]. intros nr Hnr. simpl in Hnr.
    now rewrite <- (view_ok_views_of mts mts' (snd nr) Hv).
  - apply (Permutation_Forall Hp).
    eapply Forall_impl; [|exact H]. intros nr Hnr. simpl in Hnr.
    now rewrite (view_ok_views_of mts mts' (snd nr) Hv).
Qed.

(** ** What an accepted media type satisfies *)

Lemma check_views_accepts mts identifier o :
  check_views mts identifier o = None ->
  forall n att, In (n, att) o -> View att <> "" ->
    exists ref cmt, Type' att = Some (MediaType ref) /\ lookup ref mts = Some cmt /\
                    has_key (View att) (Views cmt) = true.
Proof.
  induction o as [|[n0 att0] o IH]; simpl; intros H n att Hin Hv; [destruct Hin|].
  destruct (String.eqb (View att0) "") eqn:Ev.
  - destruct Hin as [E|Hin]; [|eauto].
    injection E as <- <-. apply String.eqb_eq in Ev. contradiction.
  - destruct (Type' att0) as [[k|e|ob|ref|ref]|] eqn:Et; try discriminate.
    destruct (lookup ref mts) as [cmt|] eqn:El; [|discriminate].
    destruct (has_key (View att0) (Views cmt)) eqn:Eh; [|discriminate].
    destruct Hin as [E|Hin]; [|eauto].
    injection E as <- <-. eauto 6.
Qed.

(** X15.  A media type that [Validate] accepts has a name; its identifier,
    if it had one, parses, and is [plain/text] otherwise; its type is the one
    it had, or [String] if it had none; and every attribute of its object that
    names a view is of a registered media type that has this view. *)
Theorem MediaTypeDefinition_Validate_accepted mts m m' :
  MediaTypeDefinition_Validate mts m = (m', None) ->
  TypeName (MT_UserTypeDefinition m) <> "" /\
  (Identifier m <> "" -> ParseMediaType (Identifier m) = None) /\
  Identifier m' = (if String.eqb (Identifier m) "" then "plain/text" else Identifier m) /\
  MT_Type m' = Some (match MT_Type m with Some t => t | None => String end) /\
  forall t o n att,
    MT_Type m' = Some t -> ToObject t = Some o -> In (n, att) o -> View att <> "" ->
    exists ref cmt, Type' att = Some (MediaType ref) /\ lookup ref mts = Some cmt /\
                    has_key (View att) (Views cmt) = true.
Proof.
  unfold MediaTypeDefinition_Validate, MT_Type.
  destruct m as [[[ty d vs dv vw] tn bt dsl] id ls vws]; simpl.
  destruct (String.eqb tn "") eqn:Etn; [discriminate|]. apply String.eqb_neq in Etn.
  destruct (String.eqb id "") eqn:Eid; simpl.
  - apply String.eqb_eq in Eid. subst id.
    destruct ty as [t|]; simpl.
    + destruct (ToObject t) as [o|] eqn:Eo; intros H; injection H as <-; simpl;
        (split; [exact Etn|]); (split; [congruence|]); (split; [reflexivity|]);
        (split; [reflexivity|]); intros t' o' n att Ht Ho' Hin Hv;
        injection Ht as <-; rewrite Eo in Ho'; [|discriminate].
      injection Ho' as <-. exact (check_views_accepts _ _ _ H n att Hin Hv).
    + intros H; injection H as <-; simpl.
      split; [exact Etn|]. split; [congruence|]. split; [reflexivity|].
      split; [reflexivity|]. intros t' o' n att Ht Ho'. injection Ht as <-. discriminate.
  - destruct (ParseMediaType id) as [e|] eqn:Ep; simpl; [discriminate|].
    destruct ty as [t|]; simpl.
    + destruct (ToObject t) as [o|] eqn:Eo; intros H; injection H as <-; simpl;
        (split; [exact Etn|]); (split; [reflexivity|]); (split; [reflexivity|]);
        (split; [reflexivity|]); intros t' o' n att Ht Ho' Hin Hv;
        injection Ht as <-; rewrite Eo in Ho'; [|discriminate].
      injection Ho' as <-. exact (check_views_accepts _ _ _ H n att Hin Hv).
    + intros H; injection H as <-; simpl.
      split; [exact Etn|]. split; [reflexivity|]. split; [reflexivity|].
      split; [reflexivity|]. intros t' o' n att Ht Ho'. injection Ht as <-. discriminate.
Qed.

(** ** What the validation pass writes *)

(** [m'] is [m], but that an empty identifier may have become [plain/text]
    and a nil type may have become [String]. *)
Definition defaulted (m m' : MediaTypeDefinition) : Prop :=
  exists id ty,
    m' = set_MT_Type (set_Identifier m id) ty /\
    (id = Identifier m \/ (Identifier m = "" /\ id = "plain/text")) /\
    (ty = MT_Type m \/ (MT_Type m = None /\ ty = Some (Primitive StringKind))).

(** The same names in the same order, each media type as it was but for
    such defaults. *)
Definition media_types_defaulted (mts mts' : list (string * MediaTypeDefinition)) : Prop :=
  Forall2 (fun e e' => fst e' = fst e /\ defaulted (snd e) (snd e')) mts mts'.

Lemma defaulted_refl m : defaulted m m.
Proof.
  exists (Identifier m), (MT_Type m). split; [|split; left; reflexivity].
  destruct m as [[[ty d vs dv vw] tn bt dsl] id ls vws]. reflexivity.
Qed.

Lemma defaulted_trans m1 m2 m3 : defaulted m1 m2 -> defaulted m2 m3 -> defaulted m1 m3.
Proof.
  intros (id & ty & -> & Hid & Hty) (id' & ty' & -> & Hid' & Hty').
  exists id', ty'.
  destruct m1 as [[[ty1 d vs dv vw] tn bt dsl] id1 ls vws].
  unfold MT_Type in *. simpl in *.
  split; [reflexivity|]. split.
  - destruct Hid as [->|[-> ->]], Hid' as [->|[E ->]]; auto.
  - destruct Hty as [->|[-> ->]], Hty' as [->|[E ->]]; auto; discriminate E.
Qed.

Lemma MediaTypeDefinition_Validate_defaulted mts m :
  defaulted m (fst (MediaTypeDefinition_Validate mts m)).
Proof.
  unfold MediaTypeDefinition_Validate.
  destruct (String.eqb (TypeName (MT_UserTypeDefinition m)) ""); [apply defaulted_refl|].
  destruct (String.eqb (Identifier m) "") eqn:Eid; simpl.
  - apply String.eqb_eq in Eid.
    assert (Hd : defaulted m
                   (match MT_Type (set_Identifier m "plain/text") with
                    | None => set_MT_Type (set_Identifier m "plain/text") (Some String)
                    | Some _ => set_Identifier m "plain/text"
                    end)).
    { destruct m as [[[ty d vs dv vw] tn bt dsl] id ls vws].
      unfold defaulted, MT_Type in *. simpl in *. subst id.
      destruct ty as [t|]; simpl.
      - exists "plain/text", (Some t).
        split; [reflexivity|]. split; [right; split; reflexivity | left; reflexivity].
      - exists "plain/text", (Some String).
        split; [reflexivity|]. split; right; split; reflexivity. }
    destruct (match MT_Type _ with Some t => ToObject t | None => None end); exact Hd.
  - destruct (ParseMediaType (Identifier m)); simpl; [apply defaulted_refl|].
    assert (Hd : defaulted m
                   (match MT_Type m with
                    | None => set_MT_Type m (Some String)
                    | Some _ => m
                    end)).
    { destruct (MT_Type m) eqn:Et; [apply defaulted_refl|].
      exists (Identifier m), (Some String).
      split; [|split; [left; reflexivity | right; split; [exact Et | reflexivity]]].
      destruct m as [[[ty d vs dv vw] tn bt dsl] id ls vws]. reflexivity. }
    destruct (match MT_Type _ with Some t => ToObject t | None => None end); exact Hd.
Qed.

Lemma media_types_defaulted_refl mts : media_types_defaulted mts mts.
Proof.
  induction mts as [|e mts IH]; constructor; [|exact IH].
  split; [reflexivity | apply defaulted_refl].
Qed.

Lemma media_types_defaulted_trans m1 m2 m3 :
  media_types_defaulted m1 m2 -> media_types_defaulted m2 m3 -> media_types_defaulted m1 m3.
Proof.
  intros H12. revert m3. induction H12 as [|e1 e2 l1 l2 [Hk Hd] _ IH]; intros m3 H23.
  - inversion H23. constructor.
  - inversion H23 as [|e2' e3 l2' l3 [Hk' Hd'] Hrest]; subst. constructor.
    + split; [congruence | exact (defaulted_trans _ _ _ Hd Hd')].
    + exact (IH _ Hrest).
Qed.

Lemma media_types_defaulted_insert mts name mt mt' :
  lookup name mts = Some mt -> defaulted mt mt' ->
  media_types_defaulted mts (insert name mt' mts).
Proof.
  induction mts as [|[k v] mts IH]; simpl; [discriminate|].
  destruct (String.eqb name k) eqn:E; intros H Hd.
  - injection H as ->. apply String.eqb_eq in E. subst k.
    constructor; [split; [reflexivity | exact Hd] | apply media_types_defaulted_refl].
  - constructor; [split; [reflexivity | apply defaulted_refl] | exact (IH H Hd)].
Qed.

Lemma validate_named_media_type_defaulted mts name :
  media_types_defaulted mts (fst (validate_named_media_type mts name)).
Proof.
  unfold validate_named_media_type.
  destruct (String.eqb name ""); [apply media_types_defaulted_refl|].
  destruct (lookup name mts) as [mt|] eqn:El; [|apply media_types_defaulted_refl].
  pose proof (MediaTypeDefinition_Validate_defaulted mts mt) as Hd.
  destruct (MediaTypeDefinition_Validate mts mt) as [mt' err]. simpl in *.
  exact (media_types_defaulted_insert mts name mt mt' El Hd).
Qed.

Lemma ResponseDefinition_Validate_defaulted mts r :
  media_types_defaulted mts (fst (ResponseDefinition_Validate mts r)).
Proof.
  unfold ResponseDefinition_Validate.
  destruct (Status r =? 0)%Z; [apply media_types_defaulted_refl|].
  apply validate_named_media_type_defaulted.
Qed.

Lemma validate_responses_defaulted all mts i rs :
  media_types_defaulted mts (fst (validate_responses all mts i rs)).
Proof.
  revert mts i. induction rs as [|[k r] rs IH]; intros mts i; simpl.
  - apply media_types_defaulted_refl.
  - destruct (status_shared i r 0 all); [apply media_types_defaulted_refl|].
    pose proof (ResponseDefinition_Validate_defaulted mts r) as Hd.
    destruct (ResponseDefinition_Validate mts r) as [mts' [e|]]; simpl in Hd.
    + destruct (Status r =? 0)%Z; exact Hd.
    + exact (media_types_defaulted_trans _ _ _ Hd (IH mts' (S i))).
Qed.

Lemma ActionDefinition_Validate_defaulted mts a :
  media_types_defaulted mts (fst (ActionDefinition_Validate mts a)).
Proof.
  unfold ActionDefinition_Validate.
  destruct (String.eqb (Action_Name a) ""); [apply media_types_defaulted_refl|].
  destruct (Routes a); [apply media_types_defaulted_refl|].
  pose proof (validate_responses_defaulted (Responses a) mts 0 (Responses a)) as Hd.
  destruct (validate_responses (Responses a) mts 0 (Responses a)) as [mts' [e|]];
    simpl in Hd; [exact Hd|].
  destruct (ValidateParams a); [exact Hd|].
  destruct (Payload a) as [u|]; [destruct (UserTypeDefinition_Validate u)|]; exact Hd.
Qed.

Lemma validate_actions_defaulted canonical mts found actions :
  media_types_defaulted mts (fst (fst (validate_actions canonical mts found actions))).
Proof.
  revert mts found. induction actions as [|[n a] actions IH]; intros mts found; simpl.
  - apply media_types_defaulted_refl.
  - pose proof (ActionDefinition_Validate_defaulted mts a) as Hd.
    destruct (ActionDefinition_Validate mts a) as [mts' [e|]]; simpl in Hd; [exact Hd|].
    exact (media_types_defaulted_trans _ _ _ Hd (IH mts' _)).
Qed.

Lemma ResourceDefinition_Validate_defaulted resources mts r :
  media_types_defaulted mts (fst (ResourceDefinition_Validate resources mts r)).
Proof.
  unfold ResourceDefinition_Validate.
  destruct (String.eqb (Res_Name r) ""); [apply media_types_defaulted_refl|].
  pose proof (validate_actions_defaulted (CanonicalAction r) mts false (Actions r)) as Hd.
  destruct (validate_actions (CanonicalAction r) mts false (Actions r)) as [[mts' found] [e|]];
    simpl in Hd; [exact Hd|].
  destruct (negb (String.eqb (CanonicalAction r) "") && negb found); [exact Hd|].
  destruct (validate_base_params r); [exact Hd|].
  destruct (negb (String.eqb (ParentName r) "") && negb (has_key (ParentName r) resources));
    [exact Hd|].
  exact (media_types_defaulted_trans _ _ _ Hd
           (validate_named_media_type_defaulted mts' (Res_MediaType r))).
Qed.

Lemma validate_resources_defaulted resources mts rs :
  media_types_defaulted mts (fst (validate_resources resources mts rs)).
Proof.
  revert mts. induction rs as [|[n r] rs IH]; intros mts; simpl.
  - apply media_types_defaulted_refl.
  - pose proof (ResourceDefinition_Validate_defaulted resources mts r) as Hd.
    destruct (ResourceDefinition_Validate resources mts r) as [mts' [e|]]; simpl in Hd;
      [exact Hd|].
    destruct (negb (String.eqb (ParentName r) "") && negb (has_key (ParentName r) resources));
      [exact Hd|].
    exact (media_types_defaulted_trans _ _ _ Hd (IH mts')).
Qed.

(** X16.  Whatever it returns, [APIDefinition.Validate] writes to nothing of
    the design but its media types, and of those it keeps the names, their
    order and every field: all it does is give the identifier [plain/text]
    to a media type that had none and the type [String] to one that had
    none. *)
Theorem APIDefinition_Validate_writes_defaults_only d :
  let d' := fst (APIDefinition_Validate d) in
  API_Name d' = API_Name d /\ API_DSL d' = API_DSL d /\ Types d' = Types d /\
  Resources d' = Resources d /\ API_Responses d' = API_Responses d /\
  DefaultResponses d' = DefaultResponses d /\
  media_types_defaulted (MediaTypes d) (MediaTypes d').
Proof.
  unfold APIDefinition_Validate.
  pose proof (validate_resources_defaulted (Resources d) (MediaTypes d) (Resources d)) as Hd.
  destruct (validate_resources (Resources d) (MediaTypes d) (Resources d)) as [mts err].
  simpl in *. repeat split. exact Hd.
Qed.

(** ** Parameters *)

(** A member an action may have as a parameter. *)
Definition is_parameter (n : string) (p : AttributeDefinition) : Prop :=
  n <> "" /\
  exists t, Type' p = Some t /\ DataType_Kind t <> ObjectKind /\
            AttributeDefinition_Validate p = None.

Lemma validate_params_accepts action params :
  validate_params action params = None <->
  forall n p, In (n, p) params -> is_parameter n p.
Proof.
  induction params as [|[n0 p0] params IH]; simpl.
  - split; [intros _ n p [] | reflexivity].
  - destruct (String.eqb n0 "") eqn:En.
    { split; [discriminate|]. intros H. destruct (H n0 p0 (or_introl eq_refl)) as [Hn _].
      apply String.eqb_eq in En. contradiction. }
    apply String.eqb_neq in En.
    destruct (Type' p0) as [t|] eqn:Et.
    2:{ split; [discriminate|]. intros H.
        destruct (H n0 p0 (or_introl eq_refl)) as (_ & t & Ht & _). congruence. }
    assert (Hhead : forall rest : option error,
              (match AttributeDefinition_Validate p0 with
               | Some err =>
                   Some (Errorf "invalid definition for parameter %s of action %s: %s"
                           [AStr n0; AStr action; AErr err])
               | None => rest
               end = None) <-> AttributeDefinition_Validate p0 = None /\ rest = None).
    { intros rest. destruct (AttributeDefinition_Validate p0); split;
        [discriminate | intros [H _]; discriminate | auto | intros [_ H]; exact H]. }
    assert (Hstep : DataType_Kind t <> ObjectKind ->
              (AttributeDefinition_Validate p0 = None /\
               validate_params action params = None) <->
              forall n p, (n0, p0) = (n, p) \/ In (n, p) params -> is_parameter n p).
    { intros Hk. rewrite IH. split.
      - intros [Hv Hrest] n p [E|Hin]; [|auto]. injection E as <- <-.
        split; [exact En|]. exists t. auto.
      - intros H. split; [|intros n p Hin; apply H; auto].
        destruct (H n0 p0 (or_introl eq_refl)) as (_ & t' & _ & _ & Hv). exact Hv. }
    destruct (DataType_Kind t) eqn:Ek;
      try (rewrite Hhead; apply Hstep; discriminate).
    split; [discriminate|]. intros H.
    destruct (H n0 p0 (or_introl eq_refl)) as (_ & t' & Ht & Hk & _).
    assert (t' = t) by congruence. subst t'. contradiction.
Qed.

(** X17.  [ValidateParams] accepts an action exactly when it has no
    parameters, or its parameters are an object each of whose members has a
    name, a type that is not an object and a definition that validates. *)
Theorem ValidateParams_accepts_iff a :
  ValidateParams a = None <->
  (Params a = None \/
   exists p o, Params a = Some p /\ Type' p = Some (Object o) /\
               forall n att, In (n, att) o -> is_parameter n att).
Proof.
  unfold ValidateParams. destruct (Params a) as [p|]; [|split; auto].
  destruct (Type' p) as [[k|e|o|ref|ref]|] eqn:Et;
    try (split; [discriminate | intros [H|(p' & o' & Hp & Ho & _)];
                                [discriminate | injection Hp as <-; congruence]]).
  rewrite validate_params_accepts. split.
  - intros H. right. exists p, o. auto.
  - intros [H|(p' & o' & Hp & Ho & H)]; [discriminate|].
    injection Hp as <-. assert (o' = o) by congruence. subst o'. exact H.
Qed.

(** ** What an accepted action, and an accepted design, satisfy *)

Lemma validate_responses_statuses all mts i rs mts' :
  validate_responses all mts i rs = (mts', None) ->
  forall k r, In (k, r) rs -> Status r <> 0%Z.
Proof.
  revert mts i. induction rs as [|[k0 r0] rs IH]; intros mts i H k r Hin; [destruct Hin|].
  simpl in H. destruct (status_shared i r0 0 all); [discriminate|].
  destruct (ResponseDefinition_Validate mts r0) as [m [e|]] eqn:Er.
  - destruct (Status r0 =? 0)%Z; discriminate.
  - destruct Hin as [E|Hin]; [|exact (IH _ _ H k r Hin)].
    injection E as <- <-. unfold ResponseDefinition_Validate in Er.
    destruct (Status r0 =? 0)%Z eqn:Es; [discriminate|]. now apply Z.eqb_neq.
Qed.

(** X18.  An action that [Validate] accepts has a name and at least one
    route, no two of its responses share a status, none has the status 0,
    its parameters pass [ValidateParams] and its payload, if any, is a named
    type. *)
Theorem ActionDefinition_Validate_accepted mts a mts' :
  ActionDefinition_Validate mts a = (mts', None) ->
  Action_Name a <> "" /\ Routes a <> [] /\ ~ has_duplicate_status (Responses a) /\
  (forall k r, In (k, r) (Responses a) -> Status r <> 0%Z) /\
  ValidateParams a = None /\
  (forall u, Payload a = Some u -> TypeName u <> "").
Proof.
  unfold ActionDefinition_Validate.
  destruct (String.eqb (Action_Name a) "") eqn:En; [discriminate|].
  destruct (Routes a) as [|rt rts]; [discriminate|].
  destruct (validate_responses (Responses a) mts 0 (Responses a)) as [m [e|]] eqn:Er;
    [discriminate|].
  destruct (ValidateParams a) eqn:Ep; [discriminate|].
  intros H. split; [now apply String.eqb_neq|]. split; [discriminate|]. split; [|split; [|split]].
  - intros (p & q & Hpq).
    destruct (validate_responses_duplicate (Responses a) mts [] (Responses a) p q
                eq_refl Hpq (Nat.le_0_l _)) as [err Herr].
    simpl in Herr. rewrite Er in Herr. discriminate.
  - exact (validate_responses_statuses _ _ _ _ _ Er).
  - reflexivity.
  - intros u Hu. rewrite Hu in H. unfold UserTypeDefinition_Validate in H.
    destruct (String.eqb (TypeName u) "") eqn:Eu; [discriminate|]. now apply String.eqb_neq.
Qed.

Lemma ActionDefinition_Validate_routed mts a mts' :
  ActionDefinition_Validate mts a = (mts', None) ->
  Action_Name a <> "" /\ Routes a <> [] /\ ~ has_duplicate_status (Responses a).
Proof.
  unfold ActionDefinition_Validate.
  destruct (String.eqb (Action_Name a) "") eqn:En; [discriminate|].
  destruct (Routes a) as [|rt rts]; [discriminate|].
  destruct (validate_responses (Responses a) mts 0 (Responses a)) as [m [e|]] eqn:Er;
    [discriminate|].
  intros _. split; [now apply String.eqb_neq|]. split; [discriminate|].
  intros (p & q & Hpq).
  destruct (validate_responses_duplicate (Responses a) mts [] (Responses a) p q
              eq_refl Hpq (Nat.le_0_l _)) as [err Herr].
  simpl in Herr. rewrite Er in Herr. discriminate.
Qed.

(** What [ResourceDefinition.Validate] has checked of a resource it accepts.
    Of the base parameters it has checked what the source checks: [vars] is
    [vs[1]], the second match of [ParamsRegex] on the base path (its text and
    its groups), and not the variables of the path. *)
Definition resource_accepted (resources : list (string * ResourceDefinition))
           (r : ResourceDefinition) : Prop :=
  Res_Name r <> "" /\
  (CanonicalAction r <> "" ->
   exists n a, In (n, a) (Actions r) /\ Action_Name a = CanonicalAction r) /\
  (ParentName r <> "" -> has_key (ParentName r) resources = true) /\
  (forall bp, BaseParams r = Some bp ->
     exists o, Type' bp = Some (Object o) /\
       match FindAllStringSubmatch (BasePath r) with
       | _ :: vars :: _ =>
           List.length vars = List.length o /\ forall v, In v vars -> has_key v o = true
       | _ => o = []
       end) /\
  (forall n a, In (n, a) (Actions r) ->
     Action_Name a <> "" /\ Routes a <> [] /\ ~ has_duplicate_status (Responses a)).

Lemma validate_actions_accepts canonical mts found actions mts' found' :
  validate_actions canonical mts found actions = (mts', found', None) ->
  (found' = true -> found = true \/
     exists n a, In (n, a) actions /\ Action_Name a = canonical) /\
  (forall n a, In (n, a) actions ->
     Action_Name a <> "" /\ Routes a <> [] /\ ~ has_duplicate_status (Responses a)).
Proof.
  revert mts found. induction actions as [|[n0 a0] actions IH]; intros mts found H; simpl in H.
  - injection H as _ <-. split; [auto | intros n a []].
  - destruct (ActionDefinition_Validate mts a0) as [m [e|]] eqn:Ea; [discriminate|].
    destruct (IH _ _ H) as [Hf Hall]. split.
    + intros Hfound. destruct (Hf Hfound) as [Hc|(n & a & Hin & Hn)].
      * destruct (String.eqb (Action_Name a0) canonical) eqn:E; [|auto].
        right. exists n0, a0. split; [left; reflexivity | now apply String.eqb_eq].
      * right. exists n, a. split; [right; exact Hin | exact Hn].
    + intros n a [E|Hin]; [|exact (Hall n a Hin)]. injection E as <- <-.
      exact (ActionDefinition_Validate_routed mts a0 m Ea).
Qed.

Lemma first_unmatched_None baseParams vars :
  first_unmatched baseParams vars = None ->
  forall v, In v vars -> has_key v baseParams = true.
Proof.
  induction vars as [|v0 vars IH]; simpl; intros H v Hin; [destruct Hin|].
  destruct (has_key v0 baseParams) eqn:E; [|discriminate].
  destruct Hin as [<-|Hin]; [exact E | exact (IH H v Hin)].
Qed.

Lemma validate_base_params_accepts r :
  validate_base_params r = None ->
  forall bp, BaseParams r = Some bp ->
    exists o, Type' bp = Some (Object o) /\
      match FindAllStringSubmatch (BasePath r) with
      | _ :: vars :: _ =>
          List.length vars = List.length o /\ forall v, In v vars -> has_key v o = true
      | _ => o = []
      end.
Proof.
  unfold validate_base_params. intros H bp Hbp. rewrite Hbp in H.
  destruct (Type' bp) as [[k|e|o|ref|ref]|]; try discriminate.
  exists o. split; [reflexivity|].
  destruct (FindAllStringSubmatch (BasePath r)) as [|whole [|vars rest]].
  - destruct o; [reflexivity | discriminate].
  - destruct o; [reflexivity | discriminate].
  - destruct (List.length vars =? List.length o)%nat eqn:El; [|discriminate]. simpl in H.
    apply Nat.eqb_eq in El. split; [exact El|].
    destruct (first_unmatched o vars) eqn:Eu; [discriminate|].
    exact (first_unmatched_None o vars Eu).
Qed.

Lemma ResourceDefinition_Validate_accepts resources mts r mts' :
  ResourceDefinition_Validate resources mts r = (mts', None) -> resource_accepted resources r.
Proof.
  unfold ResourceDefinition_Validate, resource_accepted.
  destruct (String.eqb (Res_Name r) "") eqn:En; [discriminate|].
  destruct (validate_actions (CanonicalAction r) mts false (Actions r))
    as [[m found] [e|]] eqn:Ea; [discriminate|].
  destruct (validate_actions_accepts _ _ _ _ _ _ Ea) as [Hf Hall].
  destruct (negb (String.eqb (CanonicalAction r) "") && negb found) eqn:Ec; [discriminate|].
  destruct (validate_base_params r) eqn:Eb; [discriminate|].
  destruct (negb (String.eqb (ParentName r) "") && negb (has_key (ParentName r) resources))
    eqn:Ep; [discriminate|].
  intros _. split; [now apply String.eqb_neq|]. split; [|split; [|split]].
  - intros Hc. apply String.eqb_neq in Hc. rewrite Hc in Ec. simpl in Ec.
    destruct found; [|discriminate].
    destruct (Hf eq_refl) as [H|H]; [discriminate | exact H].
  - intros Hp. apply String.eqb_neq in Hp. rewrite Hp in Ep. simpl in Ep.
    now destruct (has_key (ParentName r) resources).
  - exact (validate_base_params_accepts r Eb).
  - exact Hall.
Qed.

Lemma validate_resources_accepts resources mts rs mts' :
  validate_resources resources mts rs = (mts', None) ->
  forall n r, In (n, r) rs -> resource_accepted resources r.
Proof.
  revert mts. induction rs as [|[n0 r0] rs IH]; intros mts H n r Hin; [destruct Hin|].
  simpl in H.
  destruct (ResourceDefinition_Validate resources mts r0) as [m [e|]] eqn:Er; [discriminate|].
  destruct (negb (String.eqb (ParentName r0) "") && negb (has_key (ParentName r0) resources));
    [discriminate|].
  destruct Hin as [E|Hin]; [|exact (IH _ H n r Hin)].
  injection E as <- <-. exact (ResourceDefinition_Validate_accepts _ _ _ _ Er).
Qed.

(** X19.  Every resource of a design that [APIDefinition.Validate] accepts
    has a name; its canonical action, if it names one, is the name of one of
    its actions; its parent, if it names one, is a resource of the design;
    its base parameters, if any, are of type [Object], none when
    [ParamsRegex] matches the base path less than twice, and otherwise as
    many as the second match has strings, each of these strings naming one
    of them; and each of its actions has a name, a route and no two
    responses of the same status. *)
Theorem APIDefinition_Validate_accepted d d' :
  APIDefinition_Validate d = (d', None) ->
  forall n r, In (n, r) (Resources d) -> resource_accepted (Resources d) r.
Proof.
  unfold APIDefinition_Validate.
  destruct (validate_resources (Resources d) (MediaTypes d) (Resources d)) as [mts err] eqn:E.
  intros H. injection H as _ ->. exact (validate_resources_accepts _ _ _ _ E).
Qed.

(** ** Links *)

(** Modelled from the spec: the [ToObject] method of a media type is not in
    the sources; it gives the object the type of the media type stands for,
    and nil when there is none. *)
Definition MediaTypeDefinition_ToObject (m : MediaTypeDefinition) : option Object_t :=
  match MT_Type m with
  | Some t => ToObject t
  | None => None
  end.

(** [LinkDefinition.Validate].  The media type an attribute is of is held
    by reference: a reference that leads to no registered media type stands
    for a nil pointer, whose [Views] cannot be read. *)
Definition LinkDefinition_Validate (mts : list (string * MediaTypeDefinition))
           (l : LinkDefinition) : validated :=
  let check (mediaType : MediaTypeDefinition) : validated :=
    if has_key (Link_View l) (Views mediaType) then Validated None
    else
      match Link_Parent l with
      | None => NilDereference
      | Some parent =>
          Validated (Some (Errorf
            "Link %#v of media type %s uses view %#v which does not exist on target media type %#v"
            [AStr (Link_Name l); AStr (Identifier parent); AStr (Link_View l);
             AStr (Identifier mediaType)]))
      end in
  match Link_MediaType l with
  | Some mediaType => check mediaType
  | None =>
      if String.eqb (Link_Name l) "" then
        Validated (Some (Errorf "Links must have a name" []))
      else
        match Link_Parent l with
        | None =>
            Validated (Some (Errorf "Link %#v must have a parent media type"
                               [AStr (Link_Name l)]))
        | Some parent =>
            match MediaTypeDefinition_ToObject parent with
            | None =>
                Validated (Some (Errorf "Link %#v parent media type must be an Object"
                                   [AStr (Link_Name l)]))
            | Some o =>
                match lookup (Link_Name l) o with
                | None =>
                    Validated (Some (Errorf
                      "Link %#v name must match one of the parent media type attribute names"
                      [AStr (Link_Name l)]))
                | Some att =>
                    match Type' att with
                    | Some (MediaType ref) =>
                        match lookup ref mts with
                        | Some mediaType => check mediaType
                        | None => NilDereference
                        end
                    | _ =>
                        Validated (Some (Errorf "Link %#v attribute type must be a media type"
                                           [AStr (Link_Name l)]))
                    end
                end
            end
        end
  end.

(** The media type a link leads to: the one it names, or else the one of
    the attribute of its parent that has the name of the link. *)
Definition leads_to (mts : list (string * MediaTypeDefinition)) (l : LinkDefinition)
           (target : MediaTypeDefinition) : Prop :=
  Link_MediaType l = Some target \/
  (Link_MediaType l = None /\ Link_Name l <> "" /\
   exists parent o att ref,
     Link_Parent l = Some parent /\ MediaTypeDefinition_ToObject parent = Some o /\
     lookup (Link_Name l) o = Some att /\ Type' att = Some (MediaType ref) /\
     lookup ref mts = Some target).

(** X20.  A link that [Validate] accepts leads to a media type that has the
    view of the link. *)
Theorem LinkDefinition_Validate_accepted mts l :
  LinkDefinition_Validate mts l = Validated None ->
  exists target, leads_to mts l target /\ has_key (Link_View l) (Views target) = true.
Proof.
  unfold LinkDefinition_Validate, leads_to.
  destruct (Link_MediaType l) as [mt|].
  - destruct (has_key (Link_View l) (Views mt)) eqn:Eh.
    + intros _. exists mt. auto.
    + destruct (Link_Parent l); discriminate.
  - destruct (String.eqb (Link_Name l) "") eqn:En; [discriminate|].
    apply String.eqb_neq in En.
    destruct (Link_Parent l) as [parent|] eqn:Ep; [|discriminate].
    destruct (MediaTypeDefinition_ToObject parent) as [o|] eqn:Eo; [|discriminate].
    destruct (lookup (Link_Name l) o) as [att|] eqn:Ea; [|discriminate].
    destruct (Type' att) as [[k|e|ob|ref|ref]|] eqn:Et; try discriminate.
    destruct (lookup ref mts) as [target|] eqn:El; [|discriminate].
    destruct (has_key (Link_View l) (Views target)) eqn:Eh; [|discriminate].
    intros _. exists target. split; [|exact Eh].
    right. split; [reflexivity|]. split; [exact En|].
    exists parent, o, att, ref. auto.
Qed.

(** X21.  A link that names its media type and has no parent never gets an
    error back, whatever its name: [Validate] accepts it when the media type
    has the view, and otherwise reads the identifier of the nil parent. *)
Theorem LinkDefinition_Validate_without_parent mts l mt :
  Link_MediaType l = Some mt -> Link_Parent l = None ->
  LinkDefinition_Validate mts l =
    (if has_key (Link_View l) (Views mt) then Validated None else NilDereference) /\
  forall err, LinkDefinition_Validate mts l <> Validated (Some err).
Proof.
  intros Hmt Hp. unfold LinkDefinition_Validate. rewrite Hmt, Hp.
  destruct (has_key (Link_View l) (Views mt)); split; try reflexivity; discriminate.
Qed.

End Validation.

(** ** Validating a media type a second time

    A second call ranges over the attributes in an order of its own, and
    resolves references to objects whose members it takes in an order of
    its own. *)

(** The type [t2] is [t1] with the members of its object, if it is one, in
    another order. *)
Definition reordered_type (t1 t2 : option DataType) : Prop :=
  match t1, t2 with
  | Some (Object o1), Some (Object o2) => Permutation o1 o2
  | _, _ => t1 = t2
  end.

Definition reordered_object (o1 o2 : option Object_t) : Prop :=
  match o1, o2 with
  | Some o1, Some o2 => Permutation o1 o2
  | None, None => True
  | _, _ => False
  end.

Lemma ToObject_reordered deref1 deref2 t1 t2 :
  (forall ref, reordered_object (deref1 ref) (deref2 ref)) ->
  reordered_type (Some t1) (Some t2) ->
  reordered_object (ToObject deref1 t1) (ToObject deref2 t2).
Proof.
  intros Hd Ht. destruct t1 as [k|e|o|ref|ref]; simpl in Ht;
    try (injection Ht as <-; simpl; first [exact I | apply Hd]).
  destruct t2 as [k2|e2|o2|ref2|ref2]; try discriminate Ht. exact Ht.
Qed.

(** X14.  Validating again a media type [Validate] has been through writes
    nothing more, and accepts it exactly when the first call did, whatever
    order the second call takes the attributes in, as long as
    [mime.ParseMediaType] accepts the default identifier: the defaults of
    the first call are the only writes.  (The error of the second call may
    name another of the offending attributes.) *)
Theorem MediaTypeDefinition_Validate_second_call
        (ParseMediaType : string -> option string)
        (deref1 deref2 : string -> option Object_t) mts1 mts2 m t2 :
  ParseMediaType "plain/text" = None ->
  (forall ref, reordered_object (deref1 ref) (deref2 ref)) ->
  (forall ref, views_of mts2 ref = views_of mts1 ref) ->
  reordered_type (MT_Type (fst (MediaTypeDefinition_Validate ParseMediaType deref1 mts1 m))) t2 ->
  let first := MediaTypeDefinition_Validate ParseMediaType deref1 mts1 m in
  let again := set_MT_Type (fst first) t2 in
  let second := MediaTypeDefinition_Validate ParseMediaType deref2 mts2 again in
  fst second = again /\ (snd second = None <-> snd first = None).
Proof.
  intros Hplain Hderef Hviews.
  unfold MediaTypeDefinition_Validate, MT_Type, set_MT_Type, set_Identifier, set_Type.
  destruct m as [[[ty d vs dv vw] tn bt dsl] id ls vws]; simpl.
  destruct (String.eqb tn "") eqn:Etn; simpl.
  { intros _. rewrite Etn. simpl. split; [reflexivity | split; discriminate]. }
  assert (Hloop : forall id' t t',
            reordered_type (Some t) (Some t') ->
            (match ToObject deref2 t' with
             | Some o => check_views mts2 id' o
             | None => None
             end = None <->
             match ToObject deref1 t with
             | Some o => check_views mts1 id' o
             | None => None
             end = None)).
  { intros id' t t' Ht. pose proof (ToObject_reordered deref1 deref2 t t' Hderef Ht) as Ho.
    destruct (ToObject deref1 t) as [o|], (ToObject deref2 t') as [o'|]; simpl in Ho;
      try contradiction; [|tauto].
    exact (check_views_reordered mts1 mts2 id' id' o o' Hviews Ho). }
  destruct (String.eqb id "") eqn:Eid; simpl.
  - destruct ty as [t|]; simpl.
    + destruct (ToObject deref1 t) as [o|] eqn:Eo; simpl; intros Ht;
        (destruct t2 as [t'|]; [|destruct t; discriminate Ht]);
        simpl; rewrite Etn; simpl; rewrite Hplain; simpl;
        specialize (Hloop "plain/text" t t' Ht); rewrite Eo in Hloop;
        destruct (ToObject deref2 t') as [o'|]; simpl; (split; [reflexivity | exact Hloop]).
    + intros Ht. unfold reordered_type, String in Ht. subst t2.
      simpl. rewrite Etn. simpl. rewrite Hplain. simpl.
      split; [reflexivity | tauto].
  - destruct (ParseMediaType id) as [e|] eqn:Ep; simpl.
    + intros _. rewrite Etn, Eid. simpl. rewrite Ep. simpl.
      split; [reflexivity | split; discriminate].
    + destruct ty as [t|]; simpl.
      * destruct (ToObject deref1 t) as [o|] eqn:Eo; simpl; intros Ht;
          (destruct t2 as [t'|]; [|destruct t; discriminate Ht]);
          simpl; rewrite Etn, Eid; simpl; rewrite Ep; simpl;
          specialize (Hloop id t t' Ht); rewrite Eo in Hloop;
          destruct (ToObject deref2 t') as [o'|]; simpl; (split; [reflexivity | exact Hloop]).
      * intros Ht. unfold reordered_type, String in Ht. subst t2.
        simpl. rewrite Etn, Eid. simpl. rewrite Ep. simpl.
        split; [reflexivity | tauto].
Qed.


(** ** The validation pass run on concrete definitions

    [mime.ParseMediaType] accepts every identifier here, the base-path
    expression matches nothing and no reference leads to an object. *)
Module Run.

Definition ParseMediaType (id : string) : option string := None.
Definition FindAllStringSubmatch (path : string) : list (list string) := [].
Definition deref_object (ref : string) : option Object_t := None.

Definition MediaTypeDefinition_Validate :=
  MediaTypeDefinition_Validate ParseMediaType deref_object.
Definition ActionDefinition_Validate :=
  ActionDefinition_Validate ParseMediaType deref_object.

(** A media type registered with a name and an identifier and no attributes. *)
Definition bottle : MediaTypeDefinition :=
  mkMediaType (mkUserType (mkAttribute None "" [] None "") "Bottle" None None)
              "application/vnd.goa.example.bottle" [] [].

(** The same, declared without an identifier. *)
Definition anonymous : MediaTypeDefinition :=
  mkMediaType (mkUserType (mkAttribute None "" [] None "") "Bottle" None None)
              "" [] [].

Definition ok_200 : ResponseDefinition := mkResponse "0xc000010000" "OK" 200 "" "" [].
Definition also_200 : ResponseDefinition := mkResponse "0xc000010040" "Fine" 200 "" "" [].

(** An action with two responses of status 200, with and without a route. *)
Definition show : ActionDefinition :=
  mkAction "show" [mkRoute "GET" "/:id" "show"] None None
           [("OK", ok_200); ("Fine", also_200)].
Definition show_unrouted : ActionDefinition :=
  mkAction "show" [] None None [("OK", ok_200); ("Fine", also_200)].

(** An object requiring a member it lacks, one level down in a payload. *)
Definition address : AttributeDefinition :=
  mkAttribute (Some (Object [("street", attribute_of_type String)])) ""
              [RequiredValidationDefinition ["street"; "city"]] None "".
Definition person : AttributeDefinition :=
  mkAttribute (Some (Object [("name", attribute_of_type String); ("address", address)]))
              "" [RequiredValidationDefinition ["name"]] None "".

(** The same object held as the element of an array member. *)
Definition people : AttributeDefinition :=
  mkAttribute (Some (Object [("all", attribute_of_type (Array address))])) "" [] None "".

End Run.

(** C1.  [Validate] succeeds on a named media type that has no attributes
    and leaves it changed: its [Type], nil before the call, is [String]
    after it. *)
Theorem MediaTypeDefinition_Validate_changes_Type :
  MT_Type Run.bottle = None /\
  Run.MediaTypeDefinition_Validate [] Run.bottle =
    (set_MT_Type Run.bottle (Some String), None) /\
  set_MT_Type Run.bottle (Some String) <> Run.bottle.
Proof. repeat split. discriminate. Qed.

(** The identifier is defaulted by the same call. *)
Lemma MediaTypeDefinition_Validate_changes_Identifier :
  Identifier (fst (Run.MediaTypeDefinition_Validate [] Run.anonymous)) = "plain/text" /\
  snd (Run.MediaTypeDefinition_Validate [] Run.anonymous) = None.
Proof. split; reflexivity. Qed.

(** C3, the claim as stated fails: two responses share the status 200, and
    [Validate] returns the missing-route error, not a duplicate-status one. *)
Lemma ActionDefinition_Validate_route_error_first :
  has_duplicate_status (Responses Run.show_unrouted) /\
  snd (Run.ActionDefinition_Validate [] Run.show_unrouted) =
    Some (Errorf "No route defined for action %s" [AStr "show"]) /\
  ~ is_duplicate_status_error (Errorf "No route defined for action %s" [AStr "show"]).
Proof.
  split; [|split].
  - exists 0, 1. split; [discriminate|].
    exists "OK", Run.ok_200, "Fine", Run.also_200. repeat split.
  - reflexivity.
  - intros [st H]. discriminate H.
Qed.

Lemma ActionDefinition_Validate_duplicate_status_witness :
  snd (Run.ActionDefinition_Validate [] Run.show) = Some (duplicate_status_error 200).
Proof.
  refine (proj1 (proj2 (ActionDefinition_Validate_duplicate_status
            Run.ParseMediaType Run.deref_object [] Run.show))
          [] "OK" Run.ok_200 [("Fine", Run.also_200)] _ _ eq_refl eq_refl eq_refl);
    discriminate.
Defined.

Lemma Validate_detects_missing_required_witness :
  exists err, AttributeDefinition_Validate Run.person = Some err.
Proof.
  apply (Validate_detects_missing_required Run.person Run.address).
  - eapply nested_member with (n := "address"); [reflexivity | | apply nested_here].
    simpl. right. left. reflexivity.
  - exists [("street", attribute_of_type String)], ["street"; "city"], "city".
    repeat split; simpl; auto.
    intros [H|[]]. discriminate H.
Defined.

(** C4.  [Validate] does not detect a missing required member at every
    depth of an attribute tree: the walk follows the members of objects and
    never enters the element attribute of an array.  The object [address]
    requires a member it lacks and is the element of an array member of
    [people], yet [people.Validate()] returns nil. *)
Theorem AttributeDefinition_Validate_skips_array_elements :
  in_tree Run.address Run.people /\
  requires_missing_member Run.address /\
  AttributeDefinition_Validate Run.people = None.
Proof.
  split; [|split; [|reflexivity]].
  - eapply tree_member with (n := "all"); [reflexivity | left; reflexivity|].
    eapply tree_element; [reflexivity | apply tree_here].
  - exists [("street", attribute_of_type String)], ["street"; "city"], "city".
    repeat split; simpl; auto.
    intros [H|[]]. discriminate H.
Qed.

(** ** More concrete definitions *)

(** A media type with a view, and a media type without an identifier whose
    object has an attribute rendered with that view. *)
Definition account : MediaTypeDefinition :=
  mkMediaType
    (mkUserType (mkAttribute (Some (Object [("href", attribute_of_type String)])) "" [] None "")
                "Account" None None)
    "application/vnd.goa.example.account" [] [("tiny", ["href"])].

Definition owner : AttributeDefinition :=
  mkAttribute (Some (MediaType "Account")) "" [] None "tiny".

Definition owned_bottle : MediaTypeDefinition :=
  mkMediaType
    (mkUserType (mkAttribute (Some (Object [("owner", owner)])) "" [] None "")
                "Bottle" None None)
    "" [] [].

Definition registry : list (string * MediaTypeDefinition) :=
  [("Account", account); ("Bottle", owned_bottle)].

(** An action with one response, and a design of one resource that has it
    as its canonical action. *)
Definition show_one : ActionDefinition :=
  mkAction "show" [mkRoute "GET" "/:id" "show"] None None [("OK", Run.ok_200)].

Definition bottles : ResourceDefinition :=
  mkResource "bottles" "/bottles" None "" "show" "" [("show", show_one)] [] None.

Definition one_resource : APIDefinition :=
  mkAPI "cellar" None [] [] [("bottles", bottles)] [] [].

(** A link of the bottle to its owner, and a link without parent that names
    the account and a view the account does not have. *)
Definition owner_link : LinkDefinition := mkLink "owner" "tiny" (Some owned_bottle) None.
Definition orphan_link : LinkDefinition := mkLink "" "full" None (Some account).

(** A media type two of whose attributes name a view that their type does
    not have, and its type with the attributes in the other order. *)
Definition cover : AttributeDefinition :=
  mkAttribute (Some (MediaType "Account")) "" [] None "full".
Definition label : AttributeDefinition :=
  mkAttribute (Some String) "" [] None "short".

Definition crate : MediaTypeDefinition :=
  mkMediaType
    (mkUserType (mkAttribute (Some (Object [("cover", cover); ("label", label)])) "" [] None "")
                "Crate" None None)
    "" [] [].

Definition crate_again : MediaTypeDefinition :=
  set_MT_Type (fst (Run.MediaTypeDefinition_Validate registry crate))
              (Some (Object [("label", label); ("cover", cover)])).

Lemma MediaTypeDefinition_Validate_second_call_witness :
  fst (Run.MediaTypeDefinition_Validate registry crate_again) = crate_again /\
  (snd (Run.MediaTypeDefinition_Validate registry crate_again) = None <->
   snd (Run.MediaTypeDefinition_Validate registry crate) = None).
Proof.
  apply (MediaTypeDefinition_Validate_second_call Run.ParseMediaType
           Run.deref_object Run.deref_object registry registry crate
           (Some (Object [("label", label); ("cover", cover)]))).
  - reflexivity.
  - intros ref. exact I.
  - intros ref. reflexivity.
  - apply perm_swap.
Defined.

(** The two calls refuse the media type, each for the attribute it came to
    first. *)
Lemma MediaTypeDefinition_Validate_second_call_other_error :
  snd (Run.MediaTypeDefinition_Validate registry crate) =
    Some (Errorf "attribute %s of media type %s uses unknown view %#v"
            [AStr "cover"; AStr "plain/text"; AStr "full"]) /\
  snd (Run.MediaTypeDefinition_Validate registry crate_again) =
    Some (Errorf
      "attribute %s of media type %s defines a view for rendering but its type is not MediaTypeDefinition"
      [AStr "label"; AStr "plain/text"]).
Proof. split; reflexivity. Qed.

Lemma MediaTypeDefinition_Validate_accepted_witness :
  exists ref cmt,
    Type' owner = Some (MediaType ref) /\ lookup ref registry = Some cmt /\
    has_key (View owner) (Views cmt) = true.
Proof.
  refine (proj2 (proj2 (proj2 (proj2
            (MediaTypeDefinition_Validate_accepted Run.ParseMediaType Run.deref_object
               registry owned_bottle (set_Identifier owned_bottle "plain/text") eq_refl))))
          (Object [("owner", owner)]) [("owner", owner)] "owner" owner
          eq_refl eq_refl (or_introl eq_refl) _).
  discriminate.
Defined.

Lemma ActionDefinition_Validate_accepted_witness :
  Action_Name show_one <> "" /\ Routes show_one <> [] /\
  ~ has_duplicate_status (Responses show_one).
Proof.
  destruct (ActionDefinition_Validate_accepted Run.ParseMediaType Run.deref_object
              [] show_one [] eq_refl) as (H1 & H2 & H3 & _).
  split; [exact H1 | split; [exact H2 | exact H3]].
Defined.

(** [ParamsRegex.FindAllStringSubmatch] on the base path of the example:
    the expression is [(?:[^/]*/:([^/]+))+], so each match is a stretch of
    the path with the name of its last variable as the group. *)
Definition ParamsRegex_matches (path : string) : list (list string) :=
  if String.eqb path "/accounts/:accountID/bottles/:bottleID" then
    [["accounts/:accountID"; "accountID"]; ["bottles/:bottleID"; "bottleID"]]
  else [].

(** A resource under that base path with the base parameters the check
    lets through, the same with the two variables of the path as its base
    parameters, and a design for each. *)
Definition nested_bottles (baseParams : Object_t) : ResourceDefinition :=
  mkResource "bottles" "/accounts/:accountID/bottles/:bottleID"
             (Some (attribute_of_type (Object baseParams))) "" "show" ""
             [("show", show_one)] [] None.

Definition second_match_params : Object_t :=
  [("bottles/:bottleID", attribute_of_type String); ("bottleID", attribute_of_type Integer)].
Definition path_variables : Object_t :=
  [("accountID", attribute_of_type Integer); ("bottleID", attribute_of_type Integer)].

Definition nested_design (baseParams : Object_t) : APIDefinition :=
  mkAPI "cellar" None [] [] [("bottles", nested_bottles baseParams)] [] [].

Lemma APIDefinition_Validate_accepted_witness :
  resource_accepted ParamsRegex_matches (Resources (nested_design second_match_params))
                    (nested_bottles second_match_params).
Proof.
  apply (APIDefinition_Validate_accepted Run.ParseMediaType ParamsRegex_matches
           Run.deref_object (nested_design second_match_params)
           (nested_design second_match_params) eq_refl "bottles").
  left. reflexivity.
Defined.

(** The base parameters named after the two variables of the path are
    refused: the check looks for the text of the second match. *)
Lemma APIDefinition_Validate_refuses_path_variables :
  snd (APIDefinition_Validate Run.ParseMediaType ParamsRegex_matches Run.deref_object
         (nested_design path_variables)) =
  Some (Errorf "Resource %s: %s"
          [AStr "bottles";
           AErr (Errorf
                   "Variable %s from base path %s does not match any parameter from BaseParams"
                   [AStr "bottles/:bottleID"; AStr "/accounts/:accountID/bottles/:bottleID"])]).
Proof. reflexivity. Qed.

Lemma LinkDefinition_Validate_accepted_witness :
  exists target,
    leads_to Run.deref_object registry owner_link target /\
    has_key (Link_View owner_link) (Views target) = true.
Proof. apply LinkDefinition_Validate_accepted. reflexivity. Defined.

Lemma LinkDefinition_Validate_without_parent_witness :
  LinkDefinition_Validate Run.deref_object registry orphan_link = NilDereference.
Proof.
  exact (proj1 (LinkDefinition_Validate_without_parent Run.deref_object registry
                  orphan_link account eq_refl eq_refl)).
Defined.

End design.


(** * Package dsl: the evaluation engine and the finalization pass *)

Module dsl.
Import design.

(** ** Finalization *)

(** Modelled from the spec: [AttributeDefinition.Inherit] is not in the
    sources.  It merges the attributes of the base into the derived type,
    the derived type's own attributes winning on name collision. *)
Fixpoint inherit_members (o parent : Object_t) : Object_t :=
  match parent with
  | [] => o
  | (n, att) :: rest => inherit_members (if has_key n o then o else insert n att o) rest
  end.

Definition Inherit (a parent : AttributeDefinition) : AttributeDefinition :=
  match Type' a, Type' parent with
  | Some (Object o), Some (Object po) => set_Type a (Some (Object (inherit_members o po)))
  | _, _ => a
  end.

(** [finalizeType]: the attribute handed to [Inherit] is the type's own
    ([bat := ut.AttributeDefinition]). *)
Definition finalizeType (ut : UserTypeDefinition) : UserTypeDefinition :=
  match BaseType ut with
  | Some _ =>
      let bat := UT_AttributeDefinition ut in
      mkUserType (Inherit (UT_AttributeDefinition ut) bat) (TypeName ut) (BaseType ut) (UT_DSL ut)
  | None => ut
  end.

(** [finalizeMediaType]; [BaseType] and [AttributeDefinition] are the
    fields of the embedded user type. *)
Definition finalizeMediaType (mt : MediaTypeDefinition) : MediaTypeDefinition :=
  mkMediaType (finalizeType (MT_UserTypeDefinition mt)) (Identifier mt) (Links mt) (Views mt).

(** A field is filled from [other] when it has its zero value. *)
Definition fill {A} (unset : A -> bool) (mine other : A) : A :=
  if unset mine then other else mine.

Definition unset_string (s : string) : bool := String.eqb s "".
Definition unset_status (n : Z) : bool := (n =? 0)%Z.
Definition unset_headers (h : list (string * string)) : bool :=
  match h with [] => true | _ => false end.

(** Modelled from the spec: [ResponseDefinition.Merge] is not in the
    sources.  It merges field by field, the other definition filling only
    the fields this response left unset; the response stays where it is. *)
Definition Merge (r other : ResponseDefinition) : ResponseDefinition :=
  mkResponse
    (Resp_Ptr r)
    (fill unset_string (Resp_Name r) (Resp_Name other))
    (fill unset_status (Status r) (Status other))
    (fill unset_string (Resp_Description r) (Resp_Description other))
    (fill unset_string (Resp_MediaType r) (Resp_MediaType other))
    (fill unset_headers (Resp_Headers r) (Resp_Headers other)).

(** The store of the response definitions: what each address holds. *)
Abbreviation store := (list (string * ResponseDefinition)).

(** [resp.Merge(x)] for the pointers [p] and [q]: the definition at [p] is
    overwritten in place with its merge with the definition at [q]. *)
Definition merge_at (H : store) (p q : string) : store :=
  match lookup p H, lookup q H with
  | Some r, Some x => insert p (Merge r x) H
  | _, _ => H
  end.

(** [if x, ok := m[name]; ok { resp.Merge(x) }], [p] being the address of
    [resp]. *)
Definition merge_from (m : list (string * ResponseDefinition)) (name p : string)
           (H : store) : store :=
  match lookup name m with
  | Some x => merge_at H p (Resp_Ptr x)
  | None => H
  end.

(** Step 1 of [finalizeResource] for one response of an action of [parent];
    [d] is [Design]. *)
Definition merge_response (d : APIDefinition) (parent : ResourceDefinition)
           (name : string) (resp : ResponseDefinition) (H : store) : store :=
  let p := Resp_Ptr resp in
  merge_from (DefaultResponses d) name p
    (merge_from (API_Responses d) name p
       (merge_from (Res_Responses parent) name p H)).

(** [for name, resp := range a.Responses { ... }]. *)
Fixpoint merge_responses (d : APIDefinition) (parent : ResourceDefinition)
         (rs : list (string * ResponseDefinition)) (H : store) : store :=
  match rs with
  | [] => H
  | (name, resp) :: rest => merge_responses d parent rest (merge_response d parent name resp H)
  end.

(** The response definitions a design points to, in the maps of its
    resources and their actions and in its own two maps; the store that
    holds them; and a definition read back from a store. *)
Definition action_responses (a : ActionDefinition) : list ResponseDefinition :=
  map snd (Responses a).

Definition resource_responses (r : ResourceDefinition) : list ResponseDefinition :=
  (map snd (Res_Responses r) ++ flat_map (fun na => action_responses (snd na)) (Actions r))%list.

Definition all_responses (d : APIDefinition) : list ResponseDefinition :=
  (flat_map (fun nr => resource_responses (snd nr)) (Resources d)
   ++ map snd (API_Responses d) ++ map snd (DefaultResponses d))%list.

Definition store_of (d : APIDefinition) : store :=
  map (fun r => (Resp_Ptr r, r)) (all_responses d).

Definition refresh (H : store) (r : ResponseDefinition) : ResponseDefinition :=
  match lookup (Resp_Ptr r) H with
  | Some held => held
  | None => r
  end.

(** A design with [f] applied to every response definition it points to. *)
Definition map_snd {A B : Type} (f : A -> B) (m : list (string * A)) : list (string * B) :=
  map (fun kv => (fst kv, f (snd kv))) m.

Definition action_with (f : ResponseDefinition -> ResponseDefinition)
           (a : ActionDefinition) : ActionDefinition :=
  mkAction (Action_Name a) (Routes a) (Params a) (Payload a) (map_snd f (Responses a)).

Definition resource_with (f : ResponseDefinition -> ResponseDefinition)
           (r : ResourceDefinition) : ResourceDefinition :=
  mkResource (Res_Name r) (BasePath r) (BaseParams r) (ParentName r) (CanonicalAction r)
             (Res_MediaType r) (map_snd (action_with f) (Actions r))
             (map_snd f (Res_Responses r)) (Res_DSL r).

Definition design_with (f : ResponseDefinition -> ResponseDefinition)
           (d : APIDefinition) : APIDefinition :=
  mkAPI (API_Name d) (API_DSL d) (Types d) (MediaTypes d)
        (map_snd (resource_with f) (Resources d))
        (map_snd f (API_Responses d)) (map_snd f (DefaultResponses d)).

(** [&AttributeDefinition{Type: String}]. *)
Definition implicit_param : AttributeDefinition := attribute_of_type String.

(** The body of the loop over the wildcards of a route.  [None]: the
    parameters are neither nil nor of type [Object]; the source then
    writes to a nil map and panics, or writes through a reference into the
    user or media type it names.  [ValidateParams] rejects such parameters. *)
Definition add_wildcard (params : option AttributeDefinition) (wc : string)
  : option (option AttributeDefinition) :=
  match params with
  | None => Some (Some (attribute_of_type (Object [(wc, implicit_param)])))
  | Some p =>
      match Type' p with
      | Some (Object o) =>
          if has_key wc o then Some params
          else Some (Some (set_Type p (Some (Object (insert wc implicit_param o)))))
      | _ => None
      end
  end.

Fixpoint add_wildcards (params : option AttributeDefinition) (wcs : list string)
  : option (option AttributeDefinition) :=
  match wcs with
  | [] => Some params
  | wc :: rest =>
      match add_wildcard params wc with
      | Some params' => add_wildcards params' rest
      | None => None
      end
  end.

Section Runner.

(** [ExtractWildcards] and [RouteDefinition.FullPath] are not in the
    sources; the full path of a route depends on the route and on base
    paths, which finalization does not change. *)
Variable ExtractWildcards : string -> list string.
Variable FullPath : RouteDefinition -> string.

(** Step 2 of [finalizeResource]: the loop over the routes. *)
Fixpoint finalize_routes (params : option AttributeDefinition)
         (routes : list RouteDefinition) : option (option AttributeDefinition) :=
  match routes with
  | [] => Some params
  | r :: rest =>
      match add_wildcards params (ExtractWildcards (FullPath r)) with
      | Some params' => finalize_routes params' rest
      | None => None
      end
  end.

(** The function [finalizeResource] hands to [IterateActions];
    [a.Parent] is [parent].  Step 1 writes to the store, through the
    pointers of the responses of the action; step 2 gives the action its
    parameters. *)
Definition finalizeAction (d : APIDefinition) (parent : ResourceDefinition)
           (H : store) (a : ActionDefinition) : option (ActionDefinition * store) :=
  let H' := merge_responses d parent (Responses a) H in
  match finalize_routes (Params a) (Routes a) with
  | Some params =>
      Some (mkAction (Action_Name a) (Routes a) params (Payload a) (Responses a), H')
  | None => None
  end.

(** [IterateActions], which is not in the sources, calls the function on
    every action of the resource; the function given here returns nil. *)
Fixpoint finalize_actions (d : APIDefinition) (parent : ResourceDefinition)
         (H : store) (actions : list (string * ActionDefinition))
  : option (list (string * ActionDefinition) * store) :=
  match actions with
  | [] => Some ([], H)
  | (name, a) :: rest =>
      match finalizeAction d parent H a with
      | Some (a', H') =>
          match finalize_actions d parent H' rest with
          | Some (rest', H'') => Some ((name, a') :: rest', H'')
          | None => None
          end
      | None => None
      end
  end.

Definition set_Actions (r : ResourceDefinition) (actions : list (string * ActionDefinition))
  : ResourceDefinition :=
  mkResource (Res_Name r) (BasePath r) (BaseParams r) (ParentName r) (CanonicalAction r)
             (Res_MediaType r) actions (Res_Responses r) (Res_DSL r).

(** [finalizeResource]: the resource with the parameters of its actions,
    and the store as the merges leave it. *)
Definition finalizeResource (d : APIDefinition) (H : store) (r : ResourceDefinition)
  : option (ResourceDefinition * store) :=
  match finalize_actions d r H (Actions r) with
  | Some (actions, H') => Some (set_Actions r actions, H')
  | None => None
  end.

Fixpoint finalize_resources (d : APIDefinition) (H : store)
         (rs : list (string * ResourceDefinition))
  : option (list (string * ResourceDefinition) * store) :=
  match rs with
  | [] => Some ([], H)
  | (name, r) :: rest =>
      match finalizeResource d H r with
      | Some (r', H') =>
          match finalize_resources d H' rest with
          | Some (rest', H'') => Some ((name, r') :: rest', H'')
          | None => None
          end
      | None => None
      end
  end.

(** The second pass of [RunDSL]: the three loops over [Design.Types],
    [Design.MediaTypes] and [Design.Resources], run on the store of the
    design; in the design it leaves, every response definition is what the
    store holds at its address. *)
Definition Finalize (d : APIDefinition) : option APIDefinition :=
  match finalize_resources d (store_of d) (Resources d) with
  | Some (resources, H) =>
      Some (design_with (refresh H)
              (mkAPI (API_Name d) (API_DSL d)
                 (map (fun nt => (fst nt, finalizeType (snd nt))) (Types d))
                 (map (fun nm => (fst nm, finalizeMediaType (snd nm))) (MediaTypes d))
                 resources (API_Responses d) (DefaultResponses d)))
  | None => None
  end.

(** ** The evaluation engine *)

(** The definitions a DSL runs in ([DSLDefinition]). *)
Inductive DSLDefinition :=
| API_ctx
| Attribute_ctx (owner : string)
| MediaType_ctx (name : string)
| Resource_ctx (name : string)
| Action_ctx (name : string)
| Response_ctx (name : string).

(** [Error]: a recorded error with the place it was raised at. *)
Record Error := mkError {
  GoError : error;
  File : string;
  Line : nat
}.

(** The calls of the second pass, as they happen. *)
Inductive event :=
| FinalizeType (name : string)
| FinalizeMediaType (name : string)
| FinalizeResource (name : string).

(** The package state: [Design], [Errors] (nil is the empty list), the
    context stack with its top at the end, and the record of the calls of
    the second pass. *)
Record World := mkWorld {
  Design : option APIDefinition;
  Errors : list Error;
  ctxStack : list DSLDefinition;
  finalized : list event
}.

Definition set_Design (w : World) (d : option APIDefinition) : World :=
  mkWorld d (Errors w) (ctxStack w) (finalized w).
Definition set_Errors (w : World) (errs : list Error) : World :=
  mkWorld (Design w) errs (ctxStack w) (finalized w).
Definition set_ctxStack (w : World) (s : list DSLDefinition) : World :=
  mkWorld (Design w) (Errors w) s (finalized w).
Definition set_finalized (w : World) (evs : list event) : World :=
  mkWorld (Design w) (Errors w) (ctxStack w) evs.

(** What a DSL function value can do: build or change definitions, read the
    package state, record an error, and run a nested DSL in a context and
    go on according to its result.  The stack is private to the package and
    changed by [executeDSL] only; errors are recorded with [ReportError]. *)
Inductive stmt :=
| Mutate (f : APIDefinition -> APIDefinition)
| Report (fm : string) (vals : list arg) (file : string) (line : nat)
| Branch (cond : World -> bool) (yes no : block)
| Execute (dsl : func) (ctx : DSLDefinition) (ok failed : block)
with block :=
| Return
| Seq (s : stmt) (rest : block)
with func :=
| NilFunc
| Func (body : block).

Scheme stmt_mut := Induction for stmt Sort Prop
  with block_mut := Induction for block Sort Prop
  with func_mut := Induction for func Sort Prop.
Combined Scheme engine_ind from stmt_mut, block_mut, func_mut.

(** [DSLDefinition.Context] is not in the sources. *)
Variable Context : DSLDefinition -> string.
(** The function value behind the handle kept in a [DSL] field. *)
Variable code : nat -> func.
Variable ParseMediaType : string -> option string.
Variable FindAllStringSubmatch : string -> list (list string).
Variable deref_object : string -> option Object_t.

(** [contextStack.current]. *)
Fixpoint current (s : list DSLDefinition) : option DSLDefinition :=
  match s with
  | [] => None
  | [x] => Some x
  | _ :: rest => current rest
  end.

(** [ReportError]; the location is that of the call. *)
Definition ReportError (fm : string) (vals : list arg) (file : string) (line : nat)
           (w : World) : World :=
  let suffix :=
    match current (ctxStack w) with
    | Some cur => " in " ++ Context cur
    | None => " (top level)"
    end in
  set_Errors w (Errors w ++ [mkError (Errorf (fm ++ suffix) vals) file line]).

(** [ctxStack = ctxStack[:len(ctxStack)-1]]; [None] is the panic on an
    empty stack. *)
Definition pop (w : World) : option World :=
  match ctxStack w with
  | [] => None
  | _ :: _ => Some (set_ctxStack w (removelast (ctxStack w)))
  end.

(** Running statements, blocks, and [executeDSL] itself: the world after
    the call (and the result of [executeDSL]), or [None] for a panic. *)
Fixpoint exec_stmt (s : stmt) (w : World) {struct s} : option World :=
  match s with
  | Mutate f => Some (set_Design w (option_map f (Design w)))
  | Report fm vals file line => Some (ReportError fm vals file line w)
  | Branch cond yes no => if cond w then exec_block yes w else exec_block no w
  | Execute dsl ctx ok failed =>
      match executeDSL dsl ctx w with
      | Some (w', true) => exec_block ok w'
      | Some (w', false) => exec_block failed w'
      | None => None
      end
  end
with exec_block (b : block) (w : World) {struct b} : option World :=
  match b with
  | Return => Some w
  | Seq s rest =>
      match exec_stmt s w with
      | Some w' => exec_block rest w'
      | None => None
      end
  end
with executeDSL (dsl : func) (ctx : DSLDefinition) (w : World) {struct dsl}
  : option (World * bool) :=
  match dsl with
  | NilFunc => Some (w, true)
  | Func body =>
      let initCount := List.length (Errors w) in
      match exec_block body (set_ctxStack w (ctxStack w ++ [ctx])) with
      | Some w1 =>
          match pop w1 with
          | Some w2 => Some (w2, (List.length (Errors w2) <=? initCount)%nat)
          | None => None
          end
      | None => None
      end
  end.

(** The function value of a [DSL] field. *)
Definition func_of (h : option nat) : func :=
  match h with
  | Some n => code n
  | None => NilFunc
  end.

(** [for _, x := range xs { executeDSL(x.DSL, ctx(x)) }]. *)
Fixpoint execute_all (dsls : list (func * DSLDefinition)) (w : World) : option World :=
  match dsls with
  | [] => Some w
  | (dsl, ctx) :: rest =>
      match executeDSL dsl ctx w with
      | Some (w', _) => execute_all rest w'
      | None => None
      end
  end.

(** The first pass of [RunDSL], from [Errors = nil] to the last resource:
    each loop ranges over the definitions [Design] holds when it starts. *)
Definition run_dsls (w : World) : option World :=
  let types_of w :=
    match Design w with
    | Some d => map (fun nt => (func_of (UT_DSL (snd nt)), Attribute_ctx (fst nt))) (Types d)
    | None => []
    end in
  let media_types_of w :=
    match Design w with
    | Some d =>
        map (fun nm => (func_of (UT_DSL (MT_UserTypeDefinition (snd nm))), MediaType_ctx (fst nm)))
            (MediaTypes d)
    | None => []
    end in
  let resources_of w :=
    match Design w with
    | Some d => map (fun nr => (func_of (Res_DSL (snd nr)), Resource_ctx (fst nr))) (Resources d)
    | None => []
    end in
  let api_dsl := match Design w with Some d => func_of (API_DSL d) | None => NilFunc end in
  match executeDSL api_dsl API_ctx (set_Errors w []) with
  | Some (w1, _) =>
      match execute_all (types_of w1) w1 with
      | Some w2 =>
          match execute_all (media_types_of w2) w2 with
          | Some w3 => execute_all (resources_of w3) w3
          | None => None
          end
      | None => None
      end
  | None => None
  end.

(** The error [RunDSL] returns: that of [Design.Validate], or [Errors]. *)
Inductive RunError :=
| ValidationError (err : error)
| DSLErrors (errs : list Error).

(** The calls the second pass makes on [d]. *)
Definition finalize_events (d : APIDefinition) : list event :=
  (map (fun nt => FinalizeType (fst nt)) (Types d)
   ++ map (fun nm => FinalizeMediaType (fst nm)) (MediaTypes d)
   ++ map (fun nr => FinalizeResource (fst nr)) (Resources d))%list.

(** [RunDSL] after its first pass: validation, the test of [Errors], and
    the second pass. *)
Definition validate_and_finalize (w : World) : option (World * option RunError) :=
  match Design w with
  | None => None
  | Some d =>
      let (d', err) := APIDefinition_Validate ParseMediaType FindAllStringSubmatch deref_object d in
      let w' := set_Design w (Some d') in
      match err with
      | Some e => Some (w', Some (ValidationError e))
      | None =>
          match Errors w' with
          | _ :: _ => Some (w', Some (DSLErrors (Errors w')))
          | [] =>
              match Finalize d' with
              | Some d'' =>
                  Some (set_finalized (set_Design w' (Some d''))
                          (finalized w' ++ finalize_events d'), None)
              | None => None
              end
          end
      end
  end.

(** [RunDSL]: the world it leaves and the error it returns; [None] for a
    panic. *)
Definition RunDSL (w : World) : option (World * option RunError) :=
  match Design w with
  | None => Some (w, None)
  | Some _ =>
      match run_dsls w with
      | Some w' => validate_and_finalize w'
      | None => None
      end
  end.

(** ** The engine keeps its stack *)

(** What running a piece of DSL does to the package state: the stack is
    as before, recorded errors are only added, the second pass is not
    called and [Design] stays set. *)
Definition runs_cleanly (w : World) (r : option World) : Prop :=
  exists w' new,
    r = Some w' /\
    ctxStack w' = ctxStack w /\
    Errors w' = (Errors w ++ new)%list /\
    finalized w' = finalized w /\
    (Design w <> None -> Design w' <> None).

Lemma runs_cleanly_refl w : runs_cleanly w (Some w).
Proof. exists w, []. rewrite app_nil_r. auto. Qed.

Lemma runs_cleanly_trans w w1 r :
  runs_cleanly w (Some w1) -> runs_cleanly w1 r -> runs_cleanly w r.
Proof.
  intros (w1' & new1 & E & Hs1 & He1 & Hf1 & Hd1) (w2 & new2 & -> & Hs2 & He2 & Hf2 & Hd2).
  injection E as <-. exists w2, (new1 ++ new2)%list.
  rewrite Hs2, He2, Hf2, Hs1, He1, Hf1, app_assoc. repeat split; auto.
Qed.

(** [len(Errors) <= initCount] after [new] was appended to [initCount] errors. *)
Definition none_added (new : list Error) : bool :=
  match new with [] => true | _ :: _ => false end.

Lemma none_added_length (errs new : list Error) :
  (List.length (errs ++ new) <=? List.length errs)%nat = none_added new.
Proof.
  rewrite length_app. destruct new; simpl.
  - rewrite Nat.add_0_r. apply Nat.leb_refl.
  - apply Nat.leb_gt. lia.
Qed.

(** What a call of [executeDSL] does to the package state. *)
Definition executes_cleanly (dsl : func) (ctx : DSLDefinition) (w : World) : Prop :=
  exists w' new,
    executeDSL dsl ctx w = Some (w', none_added new) /\
    ctxStack w' = ctxStack w /\
    Errors w' = (Errors w ++ new)%list /\
    finalized w' = finalized w /\
    (Design w <> None -> Design w' <> None) /\
    match dsl with
    | NilFunc => w' = w
    | Func body =>
        exists w1,
          exec_block body (set_ctxStack w (ctxStack w ++ [ctx])) = Some w1 /\
          current (ctxStack w ++ [ctx]) = Some ctx /\
          ctxStack w1 = (ctxStack w ++ [ctx])%list /\
          w' = set_ctxStack w1 (ctxStack w)
    end.

Lemma current_push s ctx : current (s ++ [ctx]) = Some ctx.
Proof.
  induction s as [|x s IH]; [reflexivity|]. simpl.
  destruct (s ++ [ctx])%list eqn:E; [destruct s; discriminate E | exact IH].
Qed.

Lemma pop_push w1 s ctx :
  ctxStack w1 = (s ++ [ctx])%list -> pop w1 = Some (set_ctxStack w1 s).
Proof.
  unfold pop. intros ->.
  destruct (s ++ [ctx])%list eqn:E; [destruct s; discriminate E|].
  now rewrite <- E, removelast_last.
Qed.

Lemma engine_runs_cleanly :
  (forall s w, runs_cleanly w (exec_stmt s w)) /\
  (forall b w, runs_cleanly w (exec_block b w)) /\
  (forall dsl ctx w, executes_cleanly dsl ctx w).
Proof.
  apply engine_ind.
  - intros f w. exists (set_Design w (option_map f (Design w))), []. simpl.
    rewrite app_nil_r. repeat split; auto.
    destruct (Design w); simpl; congruence.
  - intros fm vals file line w. eexists _, [_]. simpl. repeat split; auto.
  - intros cond yes IHyes no IHno w. simpl. destruct (cond w); auto.
  - intros dsl IHdsl ctx ok IHok failed IHfailed w. simpl.
    destruct (IHdsl ctx w) as (w' & new & -> & Hs & He & Hf & Hd & _).
    assert (Hw' : runs_cleanly w (Some w')) by (exists w', new; auto).
    destruct (none_added new); eapply runs_cleanly_trans; eauto.
  - intros w. apply runs_cleanly_refl.
  - intros s IHs rest IHrest w. simpl.
    destruct (IHs w) as (w' & new & E & Hrest). rewrite E.
    eapply runs_cleanly_trans; [exists w', new; eauto | apply IHrest].
  - intros ctx w. exists w, []. simpl. rewrite app_nil_r. auto 10.
  - intros body IHbody ctx w. unfold executes_cleanly. simpl.
    destruct (IHbody (set_ctxStack w (ctxStack w ++ [ctx])))
      as (w1 & new & E & Hs & He & Hf & Hd).
    simpl in Hs, He, Hf, Hd. rewrite E, (pop_push w1 (ctxStack w) ctx Hs).
    exists (set_ctxStack w1 (ctxStack w)), new. simpl.
    rewrite He, none_added_length. repeat split; auto.
    exists w1. rewrite current_push. auto.
Qed.

(** C10.  For every function value, context and state, [executeDSL] returns
    (it does not panic and no recorded error stops it); the stack after the
    call is the stack before it; a non-nil body runs on the stack with
    exactly [ctx] pushed, which is its current context, and finds the stack
    so again when it ends; the errors recorded before the call are kept,
    and the result is true exactly when none was added.  A nil function
    value leaves the state alone and gives true. *)
Theorem executeDSL_keeps_stack dsl ctx w :
  exists w' new,
    executeDSL dsl ctx w = Some (w', none_added new) /\
    ctxStack w' = ctxStack w /\
    Errors w' = (Errors w ++ new)%list /\
    (none_added new = true <-> Errors w' = Errors w) /\
    match dsl with
    | NilFunc => w' = w
    | Func body =>
        exists w1,
          exec_block body (set_ctxStack w (ctxStack w ++ [ctx])) = Some w1 /\
          current (ctxStack w ++ [ctx]) = Some ctx /\
          ctxStack w1 = (ctxStack w ++ [ctx])%list /\
          w' = set_ctxStack w1 (ctxStack w)
    end.
Proof.
  destruct (proj2 (proj2 engine_runs_cleanly) dsl ctx w)
    as (w' & new & E & Hs & He & _ & _ & Hbody).
  exists w', new. repeat split; auto.
  - intros Hnone. destruct new; [|discriminate]. now rewrite app_nil_r in He.
  - intros Heq. rewrite Heq in He. destruct new; [reflexivity|].
    apply (f_equal (@List.length Error)) in He. rewrite length_app in He. simpl in He. lia.
Qed.

(** ** [RunDSL]: no second pass after an error *)

Lemma execute_all_cleanly dsls w : runs_cleanly w (execute_all dsls w).
Proof.
  revert w. induction dsls as [|[dsl ctx] dsls IH]; intros w; simpl.
  - apply runs_cleanly_refl.
  - destruct (proj2 (proj2 engine_runs_cleanly) dsl ctx w)
      as (w' & new & -> & Hs & He & Hf & Hd & _).
    eapply runs_cleanly_trans; [exists w', new; eauto | apply IH].
Qed.

(** The first pass returns; it calls nothing of the second pass and leaves
    [Design] set. *)
Lemma run_dsls_cleanly w : runs_cleanly (set_Errors w []) (run_dsls w).
Proof.
  unfold run_dsls.
  destruct (proj2 (proj2 engine_runs_cleanly)
              (match Design w with Some d => func_of (API_DSL d) | None => NilFunc end)
              API_ctx (set_Errors w []))
    as (w1 & new & -> & Hs & He & Hf & Hd & _).
  eapply runs_cleanly_trans; [exists w1, new; eauto|].
  match goal with |- runs_cleanly _ (match execute_all ?l w1 with _ => _ end) =>
    destruct (execute_all_cleanly l w1) as (w2 & new2 & E2 & H2) end.
  rewrite E2. eapply runs_cleanly_trans; [exists w2, new2; eauto|].
  match goal with |- runs_cleanly _ (match execute_all ?l w2 with _ => _ end) =>
    destruct (execute_all_cleanly l w2) as (w3 & new3 & E3 & H3) end.
  rewrite E3. eapply runs_cleanly_trans; [exists w3, new3; eauto|].
  apply execute_all_cleanly.
Qed.

(** C9.  With [Design] set, the first pass of [RunDSL] ends in a state [wd]
    holding a design [d].  If [d.Validate()] returns an error, [RunDSL]
    returns that error; if it returns none and errors were recorded,
    [RunDSL] returns the recorded errors.  Whenever [RunDSL] returns an
    error, no finalize function has been called; and if one has been
    called, validation accepted the design, no error was recorded and
    [RunDSL] returns nil. *)
Theorem RunDSL_error_skips_finalize w :
  Design w <> None ->
  exists wd d,
    run_dsls w = Some wd /\ Design wd = Some d /\
    let v := APIDefinition_Validate ParseMediaType FindAllStringSubmatch deref_object d in
    let wv := set_Design wd (Some (fst v)) in
    (forall e, snd v = Some e -> RunDSL w = Some (wv, Some (ValidationError e))) /\
    (snd v = None -> Errors wd <> [] ->
     RunDSL w = Some (wv, Some (DSLErrors (Errors wd)))) /\
    (forall w' err, RunDSL w = Some (w', Some err) -> finalized w' = finalized w) /\
    (forall w' res, RunDSL w = Some (w', res) -> finalized w' <> finalized w ->
       snd v = None /\ Errors wd = [] /\ res = None).
Proof.
  intros Hset.
  destruct (run_dsls_cleanly w) as (wd & new & Hrun & _ & _ & Hf & Hd).
  simpl in Hf, Hd. specialize (Hd Hset).
  destruct (Design wd) as [d|] eqn:Ed; [clear Hd | congruence].
  exists wd, d. split; [exact Hrun|]. split; [exact Ed|].
  unfold RunDSL. destruct (Design w) as [d0|]; [clear Hset | congruence].
  rewrite Hrun. unfold validate_and_finalize. rewrite Ed.
  destruct (APIDefinition_Validate ParseMediaType FindAllStringSubmatch deref_object d)
    as [d' verr]. simpl.
  destruct verr as [e|]; [|destruct (Errors wd) as [|e0 errs] eqn:Ee];
    (split; [|split; [|split]]).
  - intros e' He'. injection He' as <-. reflexivity.
  - discriminate.
  - intros w' err H. injection H as <- _. exact Hf.
  - intros w' res H Hne. injection H as <- _. simpl in Hne. congruence.
  - discriminate.
  - congruence.
  - destruct (Finalize d'); [|discriminate].
    intros w' err H. injection H as _ H. discriminate H.
  - destruct (Finalize d'); [|discriminate].
    intros w' res H _. now injection H as _ <-.
  - discriminate.
  - reflexivity.
  - intros w' err H. injection H as <- _. exact Hf.
  - intros w' res H Hne. injection H as <- _. simpl in Hne. congruence.
Qed.

(** ** Finalization: a parameter for every wildcard *)

(** The members of the parameters of an action; none when [Params] is nil. *)
Definition params_object (params : option AttributeDefinition) : Object_t :=
  match params with
  | Some p => match Type' p with Some (Object o) => o | _ => [] end
  | None => []
  end.

(** [Params] is nil or of type [Object], as [ValidateParams] requires. *)
Definition object_params (params : option AttributeDefinition) : Prop :=
  match params with
  | Some p => exists o, Type' p = Some (Object o)
  | None => True
  end.

(** The wildcards of the full paths of the routes of an action. *)
Definition wildcards_of (a : ActionDefinition) : list string :=
  flat_map (fun r => ExtractWildcards (FullPath r)) (Routes a).

Definition named (n : string) (names : list string) : bool :=
  existsb (String.eqb n) names.

(** A parameter of type [String] that has no validations, and no
    description, default value or view either. *)
Definition string_parameter : AttributeDefinition :=
  {| Type' := Some (Primitive StringKind);
     Description := "";
     Validations := [];
     DefaultValue := None;
     View := "" |}.

(** The parameters [after] are the parameters [before] and, for each of the
    wildcards [wcs] that [before] does not declare, a parameter of type
    [String] without validations. *)
Definition params_completed (wcs : list string)
           (before after : option AttributeDefinition) : Prop :=
  object_params after /\
  forall n,
    lookup n (params_object after) =
    match lookup n (params_object before) with
    | Some att => Some att
    | None => if named n wcs then Some string_parameter else None
    end.

(** What [finalizeResource] does to the parameters of an action. *)
Definition wildcards_declared (a a' : ActionDefinition) : Prop :=
  Routes a' = Routes a /\
  params_completed (wildcards_of a) (Params a) (Params a') /\
  forall r wc, In r (Routes a') -> In wc (ExtractWildcards (FullPath r)) ->
               has_key wc (params_object (Params a')) = true.

Lemma ValidateParams_object_params a :
  ValidateParams a = None -> object_params (Params a).
Proof.
  unfold ValidateParams, object_params. destruct (Params a) as [p|]; [|trivial].
  destruct (Type' p) as [[ | |o| | ]|]; try discriminate. eauto.
Qed.

Lemma add_wildcard_completes params wc :
  object_params params ->
  exists params', add_wildcard params wc = Some params' /\
                  params_completed [wc] params params'.
Proof.
  unfold params_completed, named. intros Hobj.
  destruct params as [p|]; simpl in *.
  - destruct Hobj as [o Ho]. rewrite Ho.
    destruct (has_key wc o) eqn:Ekey.
    + eexists. split; [reflexivity|]. simpl. rewrite Ho. split; [eauto|].
      intros n. destruct (lookup n o) eqn:El; [reflexivity|].
      destruct (String.eqb n wc) eqn:E; [|reflexivity].
      apply String.eqb_eq in E. subst n.
      apply has_key_lookup in Ekey. destruct Ekey as [v Hv]. congruence.
    + eexists. split; [reflexivity|]. simpl. split; [eauto|].
      intros n. destruct (String.eqb n wc) eqn:E.
      * apply String.eqb_eq in E. subst n.
        rewrite lookup_insert_same, (lookup_not_has_key _ _ Ekey). reflexivity.
      * apply String.eqb_neq in E.
        rewrite lookup_insert_other by congruence.
        destruct (lookup n o); reflexivity.
  - eexists. split; [reflexivity|]. simpl. split; [eauto|].
    intros n. destruct (String.eqb n wc); reflexivity.
Qed.

Lemma params_completed_trans wcs1 wcs2 p0 p1 p2 :
  params_completed wcs1 p0 p1 -> params_completed wcs2 p1 p2 ->
  params_completed (wcs1 ++ wcs2) p0 p2.
Proof.
  unfold params_completed, named. intros [_ H1] [Hobj H2]. split; [exact Hobj|].
  intros n. rewrite H2, H1, existsb_app.
  destruct (lookup n (params_object p0)); [reflexivity|].
  destruct (existsb (String.eqb n) wcs1); reflexivity.
Qed.

Lemma params_completed_refl p : object_params p -> params_completed [] p p.
Proof.
  intros Hobj. split; [exact Hobj|]. intros n. simpl.
  destruct (lookup n (params_object p)); reflexivity.
Qed.

Lemma add_wildcards_completes wcs params :
  object_params params ->
  exists params', add_wildcards params wcs = Some params' /\
                  params_completed wcs params params'.
Proof.
  revert params. induction wcs as [|wc wcs IH]; intros params Hobj; simpl.
  - eexists. split; [reflexivity | now apply params_completed_refl].
  - destruct (add_wildcard_completes params wc Hobj) as (p1 & -> & H1).
    destruct (IH p1 (proj1 H1)) as (p2 & -> & H2).
    exists p2. split; [reflexivity|].
    exact (params_completed_trans [wc] wcs params p1 p2 H1 H2).
Qed.

Lemma finalize_routes_completes routes params :
  object_params params ->
  exists params',
    finalize_routes params routes = Some params' /\
    params_completed (flat_map (fun r => ExtractWildcards (FullPath r)) routes)
                     params params'.
Proof.
  revert params. induction routes as [|r routes IH]; intros params Hobj; simpl.
  - eexists. split; [reflexivity | now apply params_completed_refl].
  - destruct (add_wildcards_completes (ExtractWildcards (FullPath r)) params Hobj)
      as (p1 & -> & H1).
    destruct (IH p1 (proj1 H1)) as (p2 & -> & H2).
    exists p2. split; [reflexivity|].
    exact (params_completed_trans _ _ params p1 p2 H1 H2).
Qed.

Lemma finalizeAction_declares d parent H a :
  object_params (Params a) ->
  exists a' H', finalizeAction d parent H a = Some (a', H') /\ wildcards_declared a a'.
Proof.
  intros Hobj. unfold finalizeAction.
  destruct (finalize_routes_completes (Routes a) (Params a) Hobj) as (p' & -> & Hp').
  eexists _, _. split; [reflexivity|]. unfold wildcards_declared. simpl.
  split; [reflexivity|]. split; [exact Hp'|].
  intros r wc Hr Hwc. apply has_key_lookup.
  destruct Hp' as [_ Hl]. rewrite Hl.
  destruct (lookup wc (params_object (Params a))); [eauto|].
  assert (named wc (flat_map (fun r => ExtractWildcards (FullPath r)) (Routes a)) = true)
    as ->; [|eauto].
  apply existsb_exists. exists wc. split; [|apply String.eqb_refl].
  apply in_flat_map. eauto.
Qed.

Lemma finalize_actions_declare d parent H actions :
  (forall name a, In (name, a) actions -> object_params (Params a)) ->
  exists actions' H',
    finalize_actions d parent H actions = Some (actions', H') /\
    Forall2 (fun na na' => fst na' = fst na /\ wildcards_declared (snd na) (snd na'))
            actions actions'.
Proof.
  revert H. induction actions as [|[name a] actions IH]; intros H Hobj; simpl.
  - exists [], H. split; [reflexivity | constructor].
  - destruct (finalizeAction_declares d parent H a (Hobj name a (or_introl eq_refl)))
      as (a' & H1 & -> & Ha').
    destruct (IH H1) as (actions' & H2 & -> & Hrest);
      [intros n b Hin; apply (Hobj n b); now right|].
    eexists _, _. split; [reflexivity|].
    constructor; [split; [reflexivity | exact Ha'] | exact Hrest].
Qed.

(** C5.  For a resource whose actions have parameters that are nil or of
    type [Object], [finalizeResource] returns, whatever the store of the
    responses holds, and for each action and each name: a declared parameter
    is as it was; a name that is a wildcard of the full path of one of the
    routes and was not declared is now a parameter of type [String] with no
    validations (and no description, default or view); nothing else is
    added.  So every wildcard of every route has a parameter afterwards. *)
Theorem finalizeResource_declares_wildcards d H r :
  (forall name a, In (name, a) (Actions r) -> object_params (Params a)) ->
  exists r' H',
    finalizeResource d H r = Some (r', H') /\
    Forall2 (fun na na' => fst na' = fst na /\ wildcards_declared (snd na) (snd na'))
            (Actions r) (Actions r').
Proof.
  intros Hobj. unfold finalizeResource.
  destruct (finalize_actions_declare d r H (Actions r) Hobj) as (actions' & H' & -> & HF).
  eexists _, _. split; [reflexivity | exact HF].
Qed.

Lemma finalize_resources_returns d H rs :
  (forall rname r name a,
     In (rname, r) rs -> In (name, a) (Actions r) -> object_params (Params a)) ->
  exists rs' H', finalize_resources d H rs = Some (rs', H').
Proof.
  revert H. induction rs as [|[rname r] rs IH]; intros H Hobj; simpl; [eauto|].
  unfold finalizeResource.
  destruct (finalize_actions_declare d r H (Actions r)) as (actions' & H1 & -> & _).
  { intros name a Ha. exact (Hobj rname r name a (or_introl eq_refl) Ha). }
  destruct (IH H1) as (rs' & H2 & ->); [|eauto].
  intros rn r0 name a Hr. apply (Hobj rn r0). now right.
Qed.

(** The second pass returns on every design the validation pass accepted. *)
Lemma validated_design_finalizes d d' :
  APIDefinition_Validate ParseMediaType FindAllStringSubmatch deref_object d = (d', None) ->
  exists d'', Finalize d' = Some d''.
Proof.
  intros H. apply APIDefinition_Validate_accepts in H.
  destruct H as (Hr & _ & _ & _ & Hparams).
  unfold Finalize. rewrite Hr.
  destruct (finalize_resources_returns d' (store_of d') (Resources d)) as (rs' & H' & ->);
    [|eauto].
  intros rname r name a Hin Ha.
  exact (ValidateParams_object_params a (Hparams rname r name a Hin Ha)).
Qed.

(** [RunDSL] returns on every state: neither the engine nor the second
    pass panics. *)
Lemma RunDSL_returns w : exists r, RunDSL w = Some r.
Proof.
  unfold RunDSL. destruct (Design w) as [d0|] eqn:Ed0; [|eauto].
  destruct (run_dsls_cleanly w) as (wd & new & -> & _ & _ & _ & Hd).
  simpl in Hd. unfold validate_and_finalize.
  destruct (Design wd) as [d|]; [|exfalso; apply Hd; congruence].
  destruct (APIDefinition_Validate ParseMediaType FindAllStringSubmatch deref_object d)
    as [d' [e|]] eqn:Ev; simpl; [eauto|].
  destruct (Errors wd); [|eauto].
  destruct (validated_design_finalizes d d' Ev) as [d'' ->]. eauto.
Qed.

(** ** Finalization: a second run *)












(** *** What [Merge] absorbs *)











(** *** The store *)








Lemma lookup_merge_at H p q k :
  k <> p -> lookup k (merge_at H p q) = lookup k H.
Proof.
  intros Hne. unfold merge_at.
  destruct (lookup p H); [|reflexivity]. destruct (lookup q H); [|reflexivity].
  apply lookup_insert_other. congruence.
Qed.

Lemma has_key_merge_at H p q k : has_key k (merge_at H p q) = has_key k H.
Proof.
  unfold merge_at. destruct (lookup p H) as [r|] eqn:Ep; [|reflexivity].
  destruct (lookup q H); [|reflexivity].
  rewrite has_key_insert. destruct (String.eqb k p) eqn:E; [|reflexivity].
  apply String.eqb_eq in E. subst k. simpl. symmetry. apply has_key_lookup. eauto.
Qed.

(** *** The merges of the pass

    The pairs of addresses the pass merges, the address written first, in
    the order it takes them. *)
Definition merges_from (m : list (string * ResponseDefinition)) (name p : string)
  : list (string * string) :=
  match lookup name m with
  | Some x => [(p, Resp_Ptr x)]
  | None => []
  end.

Definition merges_response (d : APIDefinition) (parent : ResourceDefinition)
           (name : string) (resp : ResponseDefinition) : list (string * string) :=
  let p := Resp_Ptr resp in
  (merges_from (Res_Responses parent) name p
   ++ merges_from (API_Responses d) name p
   ++ merges_from (DefaultResponses d) name p)%list.

Definition merges_responses (d : APIDefinition) (parent : ResourceDefinition)
           (rs : list (string * ResponseDefinition)) : list (string * string) :=
  flat_map (fun nr => merges_response d parent (fst nr) (snd nr)) rs.

Definition merges_actions (d : APIDefinition) (parent : ResourceDefinition)
           (actions : list (string * ActionDefinition)) : list (string * string) :=
  flat_map (fun na => merges_responses d parent (Responses (snd na))) actions.



Definition run_merges (ms : list (string * string)) (H : store) : store :=
  fold_left (fun H pq => merge_at H (fst pq) (snd pq)) ms H.

Lemma run_merges_app ms1 ms2 H :
  run_merges (ms1 ++ ms2) H = run_merges ms2 (run_merges ms1 H).
Proof. apply fold_left_app. Qed.

Lemma merge_from_run m name p H :
  merge_from m name p H = run_merges (merges_from m name p) H.
Proof. unfold merge_from, merges_from. now destruct (lookup name m). Qed.

Lemma merge_response_run d parent name resp H :
  merge_response d parent name resp H = run_merges (merges_response d parent name resp) H.
Proof.
  unfold merge_response, merges_response. now rewrite !run_merges_app, !merge_from_run.
Qed.

Lemma merge_responses_run d parent rs H :
  merge_responses d parent rs H = run_merges (merges_responses d parent rs) H.
Proof.
  revert H. induction rs as [|[name resp] rs IH]; intros H; simpl; [reflexivity|].
  unfold merges_responses. simpl. now rewrite run_merges_app, IH, merge_response_run.
Qed.

(** An action, and a resource, with the parameters the pass gives them. *)
Definition params_finalized (a : ActionDefinition) : ActionDefinition :=
  mkAction (Action_Name a) (Routes a)
           (match finalize_routes (Params a) (Routes a) with
            | Some params => params
            | None => Params a
            end)
           (Payload a) (Responses a).


Lemma finalize_actions_run d parent H actions actions' H' :
  finalize_actions d parent H actions = Some (actions', H') ->
  actions' = map_snd params_finalized actions /\
  H' = run_merges (merges_actions d parent actions) H.
Proof.
  revert H actions'. induction actions as [|[name a] actions IH]; intros H actions'; simpl.
  - intros E. injection E as <- <-. split; reflexivity.
  - unfold finalizeAction at 1, params_finalized at 1.
    destruct (finalize_routes (Params a) (Routes a)) as [params|]; [|discriminate].
    destruct (finalize_actions d parent (merge_responses d parent (Responses a) H) actions)
      as [[rest H2]|] eqn:Er; [|discriminate].
    intros E. injection E as <- <-. destruct (IH _ _ Er) as [-> ->].
    unfold merges_actions. simpl. rewrite run_merges_app, merge_responses_run.
    split; reflexivity.
Qed.


(** *** A store that has taken every merge in *)









Lemma has_key_run_merges ms H k : has_key k (run_merges ms H) = has_key k H.
Proof.
  revert H. induction ms as [|[p q] ms IH]; intros H; simpl; [reflexivity|].
  now rewrite IH, has_key_merge_at.
Qed.

(** A definition that the pass does not merge into is left as it is. *)
Lemma lookup_run_merges ms H k :
  ~ In k (map fst ms) -> lookup k (run_merges ms H) = lookup k H.
Proof.
  revert H. induction ms as [|[p q] ms IH]; intros H Hnot; simpl; [reflexivity|].
  simpl in Hnot. rewrite IH by (intros Hin; apply Hnot; now right).
  apply lookup_merge_at. intros ->. apply Hnot. now left.
Qed.

(** *** The design the pass leaves *)















(** *** Parameters that are settled *)
















(** ** Errors and the context they are reported in *)

(** X22.  An error reported by the body of a DSL is recorded with the
    context [executeDSL] was called with, whatever the stack was before, and
    makes that call return false; the state is otherwise as before.  On an
    empty stack [ReportError] records the error as a top-level one. *)
Theorem executeDSL_reports_in_context fm vals file line ctx w :
  executeDSL (Func (Seq (Report fm vals file line) Return)) ctx w =
    Some (set_Errors w (Errors w ++
                        [mkError (Errorf (fm ++ " in " ++ Context ctx) vals) file line]),
          false) /\
  ReportError fm vals file line (set_ctxStack w []) =
    set_Errors (set_ctxStack w [])
               (Errors w ++ [mkError (Errorf (fm ++ " (top level)") vals) file line]).
Proof.
  split; [|reflexivity].
  simpl. unfold ReportError. simpl. rewrite current_push.
  erewrite pop_push by reflexivity. simpl.
  rewrite none_added_length. reflexivity.
Qed.

(** X23.  A nested DSL that fails makes the DSL that runs it fail: when the
    first statement of a body executes a DSL and that call returns false,
    the call of [executeDSL] on the body returns false as well, whatever
    the body goes on to do. *)
Theorem executeDSL_failure_propagates inner ctx2 ok failed rest ctx w wi :
  executeDSL inner ctx2 (set_ctxStack w (ctxStack w ++ [ctx])) = Some (wi, false) ->
  exists w',
    executeDSL (Func (Seq (Execute inner ctx2 ok failed) rest)) ctx w = Some (w', false).
Proof.
  intros Hinner. simpl. rewrite Hinner.
  destruct (proj2 (proj2 engine_runs_cleanly) inner ctx2
              (set_ctxStack w (ctxStack w ++ [ctx])))
    as (wi' & new & E & Hs & He & _).
  rewrite Hinner in E. injection E as <- Hnew. simpl in Hs, He.
  destruct (proj1 (proj2 engine_runs_cleanly) failed wi) as (w2 & new2 & -> & Hs2 & He2 & _).
  destruct (proj1 (proj2 engine_runs_cleanly) rest w2) as (w3 & new3 & -> & Hs3 & He3 & _).
  rewrite (pop_push w3 (ctxStack w) ctx) by congruence.
  eexists. simpl. rewrite He3, He2, He, <- !app_assoc, none_added_length.
  destruct new; [discriminate Hnew | reflexivity].
Qed.

(** ** What [RunDSL] comes to *)

(** X24.  [RunDSL] returns on every state and leaves the context stack as
    it found it.  Without a design it does nothing.  With one, the design
    stays set, the errors recorded before the call play no part, a nil
    result leaves no recorded error, and the recorded errors it returns are
    those it leaves in [Errors], of which there is at least one. *)
Theorem RunDSL_outcome w :
  exists w' res,
    RunDSL w = Some (w', res) /\
    ctxStack w' = ctxStack w /\
    (Design w = None -> w' = w /\ res = None) /\
    (Design w <> None ->
     Design w' <> None /\
     RunDSL (set_Errors w []) = RunDSL w /\
     match res with
     | None => Errors w' = []
     | Some (DSLErrors errs) => errs = Errors w' /\ errs <> []
     | Some (ValidationError _) => True
     end).
Proof.
  unfold RunDSL. destruct (Design w) as [d0|] eqn:Ed0.
  2:{ exists w, None. repeat split; congruence. }
  simpl. rewrite Ed0.
  destruct (run_dsls_cleanly w) as (wd & new & Hrun & Hs & _ & _ & Hd).
  simpl in Hs, Hd.
  assert (Hreset : run_dsls (set_Errors w []) = run_dsls w) by reflexivity.
  rewrite Hreset, Hrun. unfold validate_and_finalize.
  destruct (Design wd) as [d|] eqn:Ed; [|exfalso; apply Hd; congruence].
  destruct (APIDefinition_Validate ParseMediaType FindAllStringSubmatch deref_object d)
    as [d' [e|]] eqn:Ev; simpl.
  - eexists _, _. split; [reflexivity|]. simpl.
    split; [exact Hs|]. split; [discriminate|]. intros _. repeat split; discriminate.
  - destruct (Errors wd) as [|e0 errs] eqn:Ee.
    + destruct (validated_design_finalizes d d' Ev) as [d'' ->].
      eexists _, _. split; [reflexivity|]. simpl.
      split; [exact Hs|]. split; [discriminate|]. intros _.
      split; [discriminate|]. split; [reflexivity | exact Ee].
    + eexists _, _. split; [reflexivity|]. simpl.
      split; [exact Hs|]. split; [discriminate|]. intros _.
      split; [discriminate|]. split; [reflexivity|]. rewrite Ee. split; [reflexivity | discriminate].
Qed.

(** ** What finalization writes to *)

(** The action [a'] is [a] but for its parameters: name, routes, payload
    and the map of responses (the name and the address of each response, in
    their order) are those of [a]. *)
Definition action_kept (a a' : ActionDefinition) : Prop :=
  Action_Name a' = Action_Name a /\ Routes a' = Routes a /\ Payload a' = Payload a /\
  map_snd Resp_Ptr (Responses a') = map_snd Resp_Ptr (Responses a).

(** The resource [r'] is [r] but for its actions, which keep their names
    and order. *)
Definition resource_kept (r r' : ResourceDefinition) : Prop :=
  Res_Name r' = Res_Name r /\ BasePath r' = BasePath r /\ BaseParams r' = BaseParams r /\
  ParentName r' = ParentName r /\ CanonicalAction r' = CanonicalAction r /\
  Res_MediaType r' = Res_MediaType r /\
  map_snd Resp_Ptr (Res_Responses r') = map_snd Resp_Ptr (Res_Responses r) /\
  Res_DSL r' = Res_DSL r /\
  Forall2 (fun na na' => fst na' = fst na /\ action_kept (snd na) (snd na'))
          (Actions r) (Actions r').

(** The addresses [finalizeResource] may write to: those of the responses
    of the actions of the resource. *)
Definition written_by (r : ResourceDefinition) : list string :=
  map Resp_Ptr (flat_map (fun na => action_responses (snd na)) (Actions r)).

Lemma params_finalized_kept actions :
  Forall2 (fun na na' => fst na' = fst na /\ action_kept (snd na) (snd na'))
          actions (map_snd params_finalized actions).
Proof.
  induction actions as [|[name a] actions IH]; simpl; constructor; [|exact IH].
  unfold action_kept. simpl. auto.
Qed.

Lemma merges_from_target m name p pq : In pq (merges_from m name p) -> fst pq = p.
Proof.
  unfold merges_from. destruct (lookup name m); [|intros []].
  intros [<-|[]]. reflexivity.
Qed.

Lemma merges_response_target d parent name resp pq :
  In pq (merges_response d parent name resp) -> fst pq = Resp_Ptr resp.
Proof.
  unfold merges_response. intros Hin.
  repeat (apply in_app_or in Hin; destruct Hin as [Hin|Hin]);
    exact (merges_from_target _ _ _ _ Hin).
Qed.

Lemma merges_actions_targets d parent actions p :
  In p (map fst (merges_actions d parent actions)) ->
  In p (map Resp_Ptr (flat_map (fun na => action_responses (snd na)) actions)).
Proof.
  intros Hin. apply in_map_iff in Hin. destruct Hin as (pq & <- & Hin).
  unfold merges_actions in Hin. apply in_flat_map in Hin. destruct Hin as (na & Hna & Hin).
  unfold merges_responses in Hin. apply in_flat_map in Hin. destruct Hin as (nr & Hnr & Hin).
  rewrite (merges_response_target _ _ _ _ _ Hin).
  apply in_map. apply in_flat_map. exists na. split; [exact Hna|].
  unfold action_responses. apply in_map. exact Hnr.
Qed.

(** X25.  [finalizeResource] writes to the parameters of the actions of the
    resource and to the response definitions these actions point to, and to
    nothing else: every other field of the resource and of its actions is
    as before, the maps of responses hold the same addresses under the same
    names, the store holds a definition at the same addresses, and what an
    address holds is as before unless it is the address of a response of
    one of the actions -- under whatever name, and in whatever other map,
    that definition is also reached. *)
Theorem finalizeResource_frame d H r r' H' :
  finalizeResource d H r = Some (r', H') ->
  resource_kept r r' /\
  (forall p, has_key p H' = has_key p H) /\
  (forall p, ~ In p (written_by r) -> lookup p H' = lookup p H).
Proof.
  unfold finalizeResource.
  destruct (finalize_actions d r H (Actions r)) as [[actions H1]|] eqn:E; [|discriminate].
  intros X. injection X as <- <-.
  destruct (finalize_actions_run _ _ _ _ _ _ E) as [-> ->].
  split; [|split].
  - unfold resource_kept. simpl. repeat split. apply params_finalized_kept.
  - intros p. apply has_key_run_merges.
  - intros p Hp. apply lookup_run_merges. intros Hin. apply Hp.
    exact (merges_actions_targets _ _ _ _ Hin).
Qed.

(** ** A design [RunDSL] accepted *)




End Runner.

(** ** The engine and the second pass run on a concrete design

    Wildcards are the path segments that start with a colon, the full path
    of a route is its own path, and handle 0 is a DSL that records an
    error. *)
Module Run.

Fixpoint split_path (path : string) (segment : string) : list string :=
  match path with
  | EmptyString => [segment]
  | String.String c rest =>
      if Ascii.eqb c "/" then segment :: split_path rest EmptyString
      else split_path rest (segment ++ String.String c EmptyString)
  end.

Definition ExtractWildcards (path : string) : list string :=
  flat_map (fun segment =>
              match segment with
              | String.String ":" name => [name]
              | _ => []
              end) (split_path path EmptyString).

Definition FullPath (r : RouteDefinition) : string := Path r.

Definition Context (ctx : DSLDefinition) : string :=
  match ctx with
  | API_ctx => "API"
  | Attribute_ctx owner => "attribute of " ++ owner
  | MediaType_ctx name => "media type " ++ name
  | Resource_ctx name => "resource " ++ name
  | Action_ctx name => "action " ++ name
  | Response_ctx name => "response " ++ name
  end.

(** [func() { Action("show", func() { ReportError("bad") }) }], the action
    being kept only if its DSL recorded nothing. *)
Definition code (h : nat) : func :=
  match h with
  | 0 =>
      Func (Seq (Execute (Func (Seq (Report "bad" [] "design.go" 7) Return))
                         (Action_ctx "show") Return Return)
                Return)
  | _ => Func Return
  end.

Definition finalizeResource := finalizeResource ExtractWildcards FullPath.
Definition Finalize := Finalize ExtractWildcards FullPath.
Definition executeDSL := executeDSL Context.
Definition RunDSL :=
  RunDSL ExtractWildcards FullPath Context code design.Run.ParseMediaType
         design.Run.FindAllStringSubmatch design.Run.deref_object.

(** The bottles of an account: the route has the wildcards accountID and
    id, and only id is declared. *)
Definition show : ActionDefinition :=
  mkAction "show" [mkRoute "GET" "/accounts/:accountID/bottles/:id" "show"]
           (Some (attribute_of_type (Object [("id", attribute_of_type Integer)])))
           None
           [("NotFound", mkResponse "0xc000010080" "NotFound" 0 "" "" [])].

Definition bottles : ResourceDefinition :=
  mkResource "bottles" "" None "" "" "" [("show", show)] [] None.

Definition cellar : APIDefinition :=
  mkAPI "cellar" None [] [] [("bottles", bottles)]
        [("NotFound",
          mkResponse "0xc0000100c0" "NotFound" 404 "Resource not found" "application/json" [])]
        [].


(** A response made from a template whose DSL calls [Name("Created")]:
    the action holds it under the name of the template, "Template", and
    [Name] has stored the same pointer in [Design.Responses] under
    "Created".  The action has a second response, under the name "Created",
    and the resource describes the responses named "Template". *)
Definition from_template : ResponseDefinition :=
  mkResponse "0xc000010100" "Created" 201 "" "" [].

Definition created : ResponseDefinition :=
  mkResponse "0xc000010140" "Created" 0 "" "" [].

Definition described : ResponseDefinition :=
  mkResponse "0xc000010180" "Template" 0 "Made from the template" "" [].

Definition create : ActionDefinition :=
  mkAction "create" [mkRoute "POST" "/bottles" "create"] None None
           [("Created", created); ("Template", from_template)].

Definition templated : APIDefinition :=
  mkAPI "cellar" None [] []
        [("bottles", mkResource "bottles" "" None "" "" "" [("create", create)]
                       [("Template", described)] None)]
        [("Created", from_template)]
        [].


(** A design whose only resource has a DSL that records an error, and one
    whose only resource has an action without a route. *)
Definition failing : APIDefinition :=
  mkAPI "cellar" None [] []
        [("bottles", mkResource "bottles" "" None "" "" "" [] [] (Some 0))] [] [].
Definition unrouted : APIDefinition :=
  mkAPI "cellar" None [] []
        [("bottles", mkResource "bottles" "" None "" "" ""
                       [("show", design.Run.show_unrouted)] [] None)] [] [].

Definition start (d : APIDefinition) : World := mkWorld (Some d) [] [] [].

End Run.

Lemma finalizeResource_declares_wildcards_witness :
  exists r' H',
    Run.finalizeResource Run.cellar (store_of Run.cellar) Run.bottles = Some (r', H') /\
    Forall2 (fun na na' =>
               fst na' = fst na /\
               wildcards_declared Run.ExtractWildcards Run.FullPath (snd na) (snd na'))
            (Actions Run.bottles) (Actions r').
Proof.
  apply (finalizeResource_declares_wildcards Run.ExtractWildcards Run.FullPath
           Run.cellar (store_of Run.cellar) Run.bottles).
  intros name a [E|[]]. injection E as <- <-. simpl. eauto.
Defined.

(** Scenario 5 of the specification: the parameters of the action after
    finalization. *)
Lemma finalizeResource_cellar_params :
  option_map (fun r => map (fun na => params_object (Params (snd na))) (Actions (fst r)))
             (Run.finalizeResource Run.cellar (store_of Run.cellar) Run.bottles) =
  Some [[("id", attribute_of_type Integer); ("accountID", attribute_of_type String)]].
Proof. reflexivity. Qed.


(** The first run is not vacuous: it fills the status, the description and
    the media type of the response and declares the parameter. *)
Lemma Finalize_cellar_changes :
  Run.Finalize Run.cellar =
  Some (mkAPI "cellar" None [] []
          [("bottles",
            mkResource "bottles" "" None "" "" ""
              [("show",
                mkAction "show" [mkRoute "GET" "/accounts/:accountID/bottles/:id" "show"]
                  (Some (attribute_of_type
                           (Object [("id", attribute_of_type Integer);
                                    ("accountID", attribute_of_type String)])))
                  None
                  [("NotFound",
                    mkResponse "0xc000010080" "NotFound" 404 "Resource not found"
                               "application/json" [])])]
              [] None)]
          [("NotFound",
            mkResponse "0xc0000100c0" "NotFound" 404 "Resource not found" "application/json" [])]
          []).
Proof. reflexivity. Qed.


Lemma RunDSL_error_skips_finalize_witness :
  exists w' err,
    Run.RunDSL (Run.start Run.unrouted) = Some (w', Some err) /\
    finalized w' = finalized (Run.start Run.unrouted).
Proof.
  destruct (RunDSL_error_skips_finalize Run.ExtractWildcards Run.FullPath Run.Context
              Run.code design.Run.ParseMediaType design.Run.FindAllStringSubmatch
              design.Run.deref_object (Run.start Run.unrouted))
    as (wd & d & _ & _ & _ & _ & H & _).
  - discriminate.
  - eexists _, _. split; [reflexivity|]. eapply H. reflexivity.
Defined.

(** [RunDSL] on the two failing designs: the validation error, and the
    recorded error with the context it was raised in; no finalize call. *)
Lemma RunDSL_unrouted :
  option_map (fun r => (snd r, finalized (fst r))) (Run.RunDSL (Run.start Run.unrouted)) =
  Some (Some (ValidationError
          (Errorf "Resource %s: %s"
             [AStr "bottles";
              AErr (Errorf "Action %s: %s"
                      [AStr "show";
                       AErr (Errorf "No route defined for action %s" [AStr "show"])])])),
        []).
Proof. reflexivity. Qed.

Lemma RunDSL_failing :
  option_map (fun r => (snd r, finalized (fst r), ctxStack (fst r)))
             (Run.RunDSL (Run.start Run.failing)) =
  Some (Some (DSLErrors [mkError (Errorf "bad in action show" []) "design.go" 7]), [], []).
Proof. reflexivity. Qed.

(** ** The further properties on concrete designs *)

(** A design whose only action has one response, with its status, and the
    state [RunDSL] leaves of it. *)
Definition routed : APIDefinition :=
  mkAPI "cellar" None [] []
        [("bottles", mkResource "bottles" "/bottles" None "" "show" ""
                       [("show", design.show_one)] [] None)] [] [].

Definition ran : World :=
  match Run.RunDSL (Run.start routed) with
  | Some (w', _) => w'
  | None => Run.start routed
  end.

Lemma executeDSL_failure_propagates_witness :
  exists w',
    Run.executeDSL
      (Func (Seq (Execute (Func (Seq (Report "bad" [] "design.go" 7) Return))
                          (Action_ctx "show") Return Return)
                 Return))
      (Resource_ctx "bottles") (Run.start Run.failing) = Some (w', false).
Proof.
  eapply (executeDSL_failure_propagates Run.Context). reflexivity.
Defined.

(** The store after [finalizeResource] on the resource of the design with
    the response made from a template. *)
Definition templated_store : store :=
  match Run.finalizeResource Run.templated (store_of Run.templated)
          (mkResource "bottles" "" None "" "" "" [("create", Run.create)]
                      [("Template", Run.described)] None) with
  | Some (_, H') => H'
  | None => store_of Run.templated
  end.

Lemma finalizeResource_frame_witness :
  lookup "0xc000010180" templated_store = Some Run.described /\
  lookup "0xc000010100" templated_store =
  Some (mkResponse "0xc000010100" "Created" 201 "Made from the template" "" []).
Proof.
  split; [|reflexivity].
  destruct (finalizeResource_frame Run.ExtractWildcards Run.FullPath Run.templated
              (store_of Run.templated)
              (mkResource "bottles" "" None "" "" "" [("create", Run.create)]
                          [("Template", Run.described)] None)
              (match Run.finalizeResource Run.templated (store_of Run.templated)
                       (mkResource "bottles" "" None "" "" "" [("create", Run.create)]
                                   [("Template", Run.described)] None) with
               | Some (r', _) => r'
               | None => mkResource "" "" None "" "" "" [] [] None
               end)
              templated_store eq_refl) as (_ & _ & Hframe).
  rewrite Hframe; [reflexivity|].
  intros [E|[E|[]]]; discriminate E.
Defined.


(** The action of that design after the run: the wildcard of its route is
    now a parameter. *)
Lemma RunDSL_routed_params :
  option_map (fun d => map (fun nr => map (fun na => params_object (Params (snd na)))
                                          (Actions (snd nr)))
                           (Resources d))
             (Design ran) =
  Some [[[("id", attribute_of_type String)]]].
Proof. reflexivity. Qed.

End dsl.
